(** * AutoSwig (script/AutoSwig/autoswig.py): a shallow embedding

    The binding-directive generator of Urho3D walks a libclang syntax tree
    and writes SWIG interface fragments.  This development embeds its
    identifier normalizer, its passes and their life-cycle hooks as Rocq
    functions and settles the properties stated about them.

    Conventions of the embedding:
    - a Python [str] is a [string]; case tests and case mapping are the
      ASCII ones (C++ identifiers are ASCII), every other character is
      uncased;
    - a Python exception is a value [Raise e] of the [result] monad;
    - a [dict] is a [gmap] (with its insertion order kept beside it where
      the code iterates over the keys), a [set] is a [gset];
    - recursion that Python does not bound is given a fuel argument, and
      running out of fuel is a separate outcome, [None]. *)

From Stdlib Require Import Ascii String.
From stdpp Require Import base option list gmap strings pretty fin_maps fin_sets.

#[local] Set Warnings "-clear-no-such-hyp,-register-all".

Local Open Scope string_scope.
Local Open Scope list_scope.

(** ** Exceptions *)

Inductive exn : Type :=
  | AttributeError
  | IndexError
  | KeyError
  | TypeError
  | ValueError
  | RecursionError.

Inductive result (A : Type) : Type :=
  | Ok (a : A)
  | Raise (e : exn).
Arguments Ok {A} a.
Arguments Raise {A} e.

#[global] Instance result_ret : MRet result := λ A a, Ok a.
#[global] Instance result_bind : MBind result :=
  λ A B f m, match m with Ok a => f a | Raise e => Raise e end.

(** ** Python strings *)

Module Py.

Definition chars (s : string) : list ascii := list_ascii_of_string s.
Definition str (l : list ascii) : string := string_of_list_ascii l.

(** [s.isascii()].  The case functions below ([isupper], [lower], [upper])
    are those of [str] on ASCII text, where Python maps a string character
    by character; on other letters Python follows Unicode (a letter may
    change into several, or depend on its neighbours), which is not
    modelled.  A statement that rests on the case of a character is made
    for ASCII names. *)
Definition isascii (s : string) : bool :=
  forallb (λ c, (nat_of_ascii c <? 128)%nat) (chars s).

Definition is_upper (c : ascii) : bool :=
  (65 <=? nat_of_ascii c)%nat && (nat_of_ascii c <=? 90)%nat.
Definition is_lower (c : ascii) : bool :=
  (97 <=? nat_of_ascii c)%nat && (nat_of_ascii c <=? 122)%nat.
Definition to_lower (c : ascii) : ascii :=
  if is_upper c then ascii_of_nat (nat_of_ascii c + 32)%nat else c.
Definition to_upper (c : ascii) : ascii :=
  if is_lower c then ascii_of_nat (nat_of_ascii c - 32)%nat else c.

(** [s.lower()] *)
Definition lower (s : string) : string := str (to_lower <$> chars s).

(** [s.isupper()]: at least one cased character and no lowercase one. *)
Definition isupper (s : string) : bool :=
  existsb is_upper (chars s) && negb (existsb is_lower (chars s)).

(** [c in s] for a single character [c]. *)
Definition has_char (c : ascii) (s : string) : bool :=
  existsb (Ascii.eqb c) (chars s).

(** [s[a:b]] and [s[a:]] for in-range, non-negative bounds. *)
Definition slice (a b : nat) (s : string) : string :=
  str (take (b - a) (drop a (chars s))).
Definition slice_from (a : nat) (s : string) : string :=
  str (drop a (chars s)).

(** [s[i]] *)
Definition get (i : nat) (s : string) : result ascii :=
  match chars s !! i with Some c => Ok c | None => Raise IndexError end.

(** [s.split(sep)] for a one-character separator. *)
Fixpoint split_on (sep : ascii) (l : list ascii) : list (list ascii) :=
  match l with
  | [] => [[]]
  | c :: r =>
      if Ascii.eqb c sep then [] :: split_on sep r
      else match split_on sep r with
           | seg :: segs => (c :: seg) :: segs
           | [] => [[c]]
           end
  end.
Definition split (sep : ascii) (s : string) : list string :=
  str <$> split_on sep (chars s).

(** [sep.join(parts)] *)
Fixpoint join (sep : string) (parts : list string) : string :=
  match parts with
  | [] => ""
  | [p] => p
  | p :: ps => p +:+ sep +:+ join sep ps
  end.

(** [s.rstrip(cs)] and [s.strip(cs)] for a set of characters [cs]. *)
Fixpoint lstrip_chars (cs : list ascii) (l : list ascii) : list ascii :=
  match l with
  | [] => []
  | c :: r => if existsb (Ascii.eqb c) cs then lstrip_chars cs r else l
  end.
Definition rstrip_chars (cs l : list ascii) : list ascii :=
  rev (lstrip_chars cs (rev l)).
Definition rstrip (cs s : string) : string := str (rstrip_chars (chars cs) (chars s)).
Definition strip (cs s : string) : string :=
  str (rstrip_chars (chars cs) (lstrip_chars (chars cs) (chars s))).

(** [s.startswith(p)], [s.endswith(p)], [p in s] *)
Definition startswith (p s : string) : bool := String.prefix p s.
Fixpoint is_prefix (p l : list ascii) : bool :=
  match p, l with
  | [], _ => true
  | a :: p', b :: l' => Ascii.eqb a b && is_prefix p' l'
  | _ :: _, [] => false
  end.
Definition endswith (p s : string) : bool :=
  is_prefix (rev (chars p)) (rev (chars s)).
Fixpoint contains_chars (p l : list ascii) : bool :=
  is_prefix p l ||
  match l with
  | [] => false
  | _ :: r => contains_chars p r
  end.
Definition contains (p s : string) : bool := contains_chars (chars p) (chars s).

(** [s.replace(old, new)] for a non-empty [old]: every occurrence, left to
    right, without overlap ([skip] counts the characters of a match still
    to be dropped). *)
Fixpoint replace_chars (old new : list ascii) (skip : nat) (l : list ascii)
  : list ascii :=
  match l with
  | [] => []
  | c :: r =>
      match skip with
      | S k => replace_chars old new k r
      | O => if is_prefix old l
             then new ++ replace_chars old new (length old - 1) r
             else c :: replace_chars old new 0 r
      end
  end.
Definition replace (old new s : string) : string :=
  str (replace_chars (chars old) (chars new) 0 (chars s)).

End Py.

(** ** Identifier normalizer *)

(** One turn of the loop of [split_identifier] (lines 55-58): the state is
    [(prev_split, parts)], [i] ranges over [range(len(identifier) - 1)]. *)
Definition split_step (identifier : string) (st : nat * list string) (i : nat)
  : nat * list string :=
  let '(prev_split, parts) := st in
  match Py.get (i + 1) identifier with
  | Ok c =>
      if Py.is_upper c
      then (i + 1, parts ++ [Py.lower (Py.slice prev_split (i + 1) identifier)])
      else st
  | Raise _ => st
  end.

Definition split_identifier (identifier : string) : list string :=
  if Py.has_char "_" identifier
  then Py.lower <$> Py.split "_" identifier
  else
    let '(prev_split, parts) :=
      foldl (split_step identifier) (0, []) (seq 0 (String.length identifier - 1)) in
    let last := Py.slice_from prev_split identifier in
    if String.eqb last "" then parts else parts ++ [Py.lower last].

(** The argument of [camel_case] is dynamically typed: a name, or the list
    or tuple of its segments. *)
Inductive pyobj : Type :=
  | PStr (s : string)
  | PList (l : list string)
  | PTuple (l : list string).

(** [identifier.strip('_')]: only [str] has the method. *)
Definition obj_strip (cs : string) (o : pyobj) : result pyobj :=
  match o with
  | PStr s => Ok (PStr (Py.strip cs s))
  | PList _ | PTuple _ => Raise AttributeError
  end.

(** [p[0].upper() + p[1:]] *)
Definition capitalize (p : string) : result string :=
  c ← Py.get 0 p; Ok (String (Py.to_upper c) (Py.slice_from 1 p)).

(** The loop of lines 78-79, [name_parts[i] = name_parts[i][0].upper() +
    name_parts[i][1:]], on a list (updated in place, so the caller's list
    is the one returned). *)
Fixpoint capitalize_parts (name_parts : list string) : result (list string) :=
  match name_parts with
  | [] => Ok []
  | p :: rest =>
      p' ← capitalize p; rest' ← capitalize_parts rest; Ok (p' :: rest')
  end.

(** The same loop on a tuple: the right-hand side is evaluated, then the
    item assignment is refused. *)
Definition capitalize_tuple (name_parts : list string) : result (list string) :=
  match name_parts with
  | [] => Ok []
  | p :: _ => _ ← capitalize p; Raise TypeError
  end.

Definition camel_case (identifier : pyobj) : result pyobj :=
  identifier ← obj_strip "_" identifier;
  match identifier with
  | PStr s =>
      let s := if Py.isupper s && negb (Py.has_char "_" s) then Py.lower s else s in
      name_parts ← capitalize_parts (split_identifier s);
      Ok (PStr (Py.join "" name_parts))
  | PList l => name_parts ← capitalize_parts l; Ok (PList name_parts)
  | PTuple l => name_parts ← capitalize_tuple l; Ok (PTuple name_parts)
  end.

(** [camel_case] on a name, as every pass calls it. *)
Definition camel_case_str (name : string) : result string :=
  r ← camel_case (PStr name);
  match r with PStr s => Ok s | _ => Raise TypeError end.

(** The loop of [rename_identifier] over the characters of the first
    segment (lines 91-95): [Ok true] when it runs to its end, [Ok false] on
    [break]; an [IndexError] goes to the [except] clause. *)
Fixpoint abbreviates (cs : list ascii) (i : nat) (parent_parts : list string) : result bool :=
  match cs with
  | [] => Ok true
  | c :: rest =>
      match parent_parts !! i with
      | None => Raise IndexError
      | Some p =>
          p0 ← Py.get 0 p;
          if Ascii.eqb c p0 then abbreviates rest (S i) parent_parts else Ok false
      end
  end.

(** Lines 90-97: the first segment is dropped when the loop ran to its
    end. *)
Definition drop_parent_prefix (name_parts parent_parts : list string) : list string :=
  match name_parts with
  | [] => []
  | first :: rest =>
      match abbreviates (Py.chars first) 0 parent_parts with
      | Ok true => rest
      | Ok false | Raise _ => name_parts
      end
  end.

(** [rename_identifier], the one caller that hands a list to [camel_case].
    ([str] has no method [tolower], line 100.) *)
Definition rename_identifier (name parent_name : string) (is_private : bool)
  : result string :=
  let name_parts :=
    drop_parent_prefix (split_identifier name) (split_identifier parent_name) in
  r ← camel_case (PList name_parts);
  match r with
  | PList name_parts | PTuple name_parts =>
      if is_private then
        match name_parts with
        | [] => Raise IndexError
        | p :: _ => _ ← Py.get 0 p; Raise AttributeError
        end
      else Ok (Py.join "" name_parts)
  | PStr s => if is_private then _ ← Py.get 0 s; Raise AttributeError else Ok s
  end.

(** ** The syntax tree handed over by the parser

    Modelled from the spec: the node class of walkcpp, which wraps the
    cursors of libclang, is not part of autoswig.py.  The records below hold
    the attributes the passes read.  An attribute the code reads through
    [node.c] (the raw cursor) and the one it reads on the node itself are
    one field here. *)

Inductive CursorKind : Type :=
  | TRANSLATION_UNIT | NAMESPACE | CLASS_DECL | STRUCT_DECL | ENUM_DECL
  | ENUM_CONSTANT_DECL | VAR_DECL | FIELD_DECL | CXX_METHOD | FUNCTION_DECL
  | PARM_DECL | CXX_BASE_SPECIFIER | TYPE_ALIAS_DECL | TYPE_REF
  | UNEXPOSED_EXPR | INTEGER_LITERAL | FLOATING_LITERAL | STRING_LITERAL
  | OTHER_CURSOR.

Inductive AccessSpecifier : Type :=
  | INVALID_ACCESS | PUBLIC | PROTECTED | PRIVATE | NO_ACCESS.

Inductive TypeKind : Type :=
  | INVALID | VOID | BOOL | CHAR_U | UCHAR | CHAR16 | CHAR32 | USHORT | UINT
  | ULONG | ULONGLONG | UINT128 | CHAR_S | SCHAR | WCHAR | SHORT | INT | LONG
  | LONGLONG | INT128 | FLOAT | DOUBLE | LONGDOUBLE | NULLPTR | FLOAT128 | HALF
  | POINTER | LVALUEREFERENCE | RECORD | ENUM | TYPEDEF | ELABORATED
  | OTHER_TYPE.

Inductive AstAction : Type := ENTER | LEAVE.

#[global] Instance CursorKind_eq_dec : EqDecision CursorKind.
Proof. solve_decision. Defined.
#[global] Instance AccessSpecifier_eq_dec : EqDecision AccessSpecifier.
Proof. solve_decision. Defined.
#[global] Instance TypeKind_eq_dec : EqDecision TypeKind.
Proof. solve_decision. Defined.
#[global] Instance AstAction_eq_dec : EqDecision AstAction.
Proof. solve_decision. Defined.

(** Modelled from the spec: a type descriptor of the parser, with what the
    passes read of it: [spelling], [kind], [is_const_qualified()],
    [get_canonical()] (its spelling and kind), [get_declaration()] (the
    fully-qualified name of the declaration) and the verdict of
    [walkcpp.utils.is_builtin_type]. *)
Record ctype : Type := CType {
  t_spelling : string;
  t_kind : TypeKind;
  t_is_const_qualified : bool;
  t_canonical_spelling : string;
  t_canonical_kind : TypeKind;
  t_declaration : string;
  t_is_builtin : bool;
}.

(** Modelled from the spec: a node of the parser, without its children.
    [extent] is the source offset of the declaration, which tells apart two
    declarations that agree on every other attribute;
    [raw_code] is what [read_raw_code] finds in the source file between the
    bounds of the node. *)
Record cursor : Type := Cursor {
  kind : CursorKind;
  spelling : string;
  fully_qualified_name : string;
  access : AccessSpecifier;
  type : ctype;
  result_type : option ctype;
  arguments : list ctype;
  is_static_method : bool;
  is_virtual_method : bool;
  semantic_parent_kind : CursorKind;
  enum_value : Z;
  extent : nat;
  raw_code : string;
}.

Inductive node : Type := Node (c : cursor) (children : list node).

Definition cur (n : node) : cursor := match n with Node c _ => c end.
Definition children (n : node) : list node := match n with Node _ ch => ch end.

#[global] Instance ctype_eq_dec : EqDecision ctype.
Proof. solve_decision. Defined.
#[global] Instance cursor_eq_dec : EqDecision cursor.
Proof. solve_decision. Defined.

(** Modelled from the spec: node equality, as [list.index] needs it, is
    equality of the cursors. *)
Definition node_eqb (a b : node) : bool := bool_decide (cur a = cur b).

(** Modelled from the spec: the navigation helpers of the node class.
    [find_children] filters the direct children, [find_child] takes the
    first of them, [find_any_child] searches the whole subtree in document
    order. *)
Definition find_children (P : cursor → bool) (n : node) : list node :=
  filter (λ ch, P (cur ch)) (children n).
Definition find_child (P : cursor → bool) (n : node) : option node :=
  head (find_children P n).
Fixpoint find_first (P : cursor → bool) (n : node) : option node :=
  match n with
  | Node c ch =>
      if P c then Some n
      else (fix go (l : list node) : option node :=
              match l with
              | [] => None
              | x :: r => match find_first P x with Some y => Some y | None => go r end
              end) ch
  end.
Definition find_any_child (P : cursor → bool) (n : node) : option node :=
  (fix go (l : list node) : option node :=
     match l with
     | [] => None
     | x :: r => match find_first P x with Some y => Some y | None => go r end
     end) (children n).

Definition has_kind (k : CursorKind) (c : cursor) : bool := bool_decide (kind c = k).

(** ** Output files and the state of a pass

    A pass writes through a file object it opened; the file system sees the
    text when the file is closed.  An exception leaves the state as it was
    when it was raised. *)

(** A [file] is a file object that is open: the hooks that close a file are
    modelled on the file they opened, before anything else closes or removes
    it. *)
Record file : Type := File { f_name : string; f_buf : string }.

Abbreviation filesystem := (gmap string string).

(** [open(path, 'w+')]: create or truncate. *)
Definition open_w (path : string) (fs : filesystem) : file * filesystem :=
  (File path "", <[path := ""]> fs).
(** [open(path, 'a+')]: create if missing, write at the end. *)
Definition open_a (path : string) (fs : filesystem) : file * filesystem :=
  let old := default "" (fs !! path) in (File path old, <[path := old]> fs).
Definition fwrite (data : string) (f : file) : file :=
  File (f_name f) (f_buf f +:+ data).
Definition fclose (f : file) (fs : filesystem) : filesystem :=
  <[f_name f := f_buf f]> fs.
(** [os.stat(path).st_size], [os.unlink(path)] *)
Definition st_size (path : string) (fs : filesystem) : option nat :=
  String.length <$> fs !! path.
Definition unlink (path : string) (fs : filesystem) : filesystem := delete path fs.

(** [os.path.join(dir, name)] for a relative [name]. *)
Definition path_join (dir name : string) : string :=
  if String.eqb dir "" then name
  else if Py.endswith "/" dir then dir +:+ name
  else dir +:+ "/" +:+ name.

(** A computation of a pass on its state: the outcome, and the state it
    leaves, also when it raises. *)
Definition M (S A : Type) : Type := S → result A * S.

#[global] Instance M_ret {S} : MRet (M S) := λ A a s, (Ok a, s).
#[global] Instance M_bind {S} : MBind (M S) :=
  λ A B f m s, match m s with
               | (Ok a, s') => f a s'
               | (Raise e, s') => (Raise e, s')
               end.
Definition raise {S A} (e : exn) : M S A := λ s, (Raise e, s).
Definition lift {S A} (r : result A) : M S A := λ s, (r, s).
Definition modify {S} (f : S → S) : M S unit := λ s, (Ok (), f s).

(** The line break and the double quote of the emitted text. *)
Definition nl : string := String (ascii_of_nat 10) "".
Definition dq : string := String (ascii_of_nat 34) "".

(** ** Class hierarchy pass *)

Module DefineRefCountedPass.

(** [parent_classes], a class attribute: a dict from a class name to the
    set of its direct bases, with the order in which keys were added. *)
Record odict : Type := ODict {
  od_map : gmap string (gset string);
  od_keys : list string;
}.
Definition od_empty : odict := ODict ∅ [].

(** The loop of [is_subclass_of] over the direct bases (lines 234-238):
    [call] is the nested call; its exception or its running out of fuel
    ends the loop. *)
Fixpoint any_base (parent_classes : gmap string (gset string))
    (call : string → option (result bool)) (l : list string) : option (result bool) :=
  match l with
  | [] => Some (Ok false)
  | subclass :: rest =>
      if decide (subclass ∈ dom parent_classes)
      then match call subclass with
           | Some (Ok true) => Some (Ok true)
           | Some (Ok false) => any_base parent_classes call rest
           | other => other
           end
      else any_base parent_classes call rest
  end.

(** [is_subclass_of]: [None] when [fuel] nested calls were not enough.
    [order class_name] is the order in which Python iterates the set of
    bases recorded for [class_name]: it is fixed while the record does not
    change, but it follows the hashes of the names, which change from one
    process to the next, so it is a parameter. *)
Fixpoint is_subclass_of (order : string → list string) (fuel : nat)
    (parent_classes : gmap string (gset string))
    (class_name base_name : string) : option (result bool) :=
  match fuel with
  | O => None
  | S fuel' =>
      if decide (class_name = base_name) then Some (Ok true)
      else match parent_classes !! class_name with
           | None => Some (Raise KeyError)
           | Some subclasses =>
               if decide (base_name ∈ subclasses) then Some (Ok true)
               else any_base parent_classes
                      (λ subclass, is_subclass_of order fuel' parent_classes subclass base_name)
                      (order class_name)
           end
  end.

(** The body of the loop of [visit]: one base specifier. *)
Definition add_base (super_fqn sub_fqn : string) (pc : odict) : odict :=
  match od_map pc !! super_fqn with
  | Some bases_set => ODict (<[super_fqn := bases_set ∪ {[sub_fqn]}]> (od_map pc)) (od_keys pc)
  | None => ODict (<[super_fqn := {[sub_fqn]}]> (od_map pc)) (od_keys pc ++ [super_fqn])
  end.

Definition visit (n : node) (action : AstAction) (pc : odict) : bool * odict :=
  if bool_decide (kind (cur n) = CLASS_DECL) || bool_decide (kind (cur n) = STRUCT_DECL)
  then (true,
        foldl (λ pc base, add_base (fully_qualified_name (cur n))
                                   (t_declaration (type (cur base))) pc)
              pc (find_children (has_kind CXX_BASE_SPECIFIER) n))
  else (true, pc).

(** The loop of [on_end] over the keys, in the order they were added.
    More nested calls than there are keys means a class is its own base
    and Python gives up with [RecursionError]. *)
Fixpoint write_refcounted (order : string → list string) (pc : gmap string (gset string))
    (keys : list string) (f : file) : result unit * file :=
  match keys with
  | [] => (Ok (), f)
  | cls_name :: rest =>
      match is_subclass_of order (S (size pc)) pc cls_name "Urho3D::RefCounted" with
      | Some (Ok true) =>
          write_refcounted order pc rest
            (fwrite ("URHO3D_REFCOUNTED(" +:+ cls_name +:+ ");" +:+ nl) f)
      | Some (Ok false) => write_refcounted order pc rest f
      | Some (Raise e) => (Raise e, f)
      | None => (Raise RecursionError, f)
      end
  end.

Definition on_end (order : string → list string) (output : string) (pc : odict)
    (fs : filesystem) : result unit * filesystem :=
  let '(f, fs) := open_w (path_join output "_refcounted.i") fs in
  match write_refcounted order (od_map pc) (od_keys pc) f with
  | (Ok _, f) => (Ok (), fclose f fs)
  | (Raise e, _) => (Raise e, fs)
  end.

End DefineRefCountedPass.

(** *** What the hierarchy pass is specified to answer *)

(** [reaches pc c b]: [c] is [b], or [b] is a recorded direct base of [c], or
    a recorded direct base of [c] that has recorded bases itself reaches
    [b]. *)
Inductive reaches (pc : gmap string (gset string)) : string → string → Prop :=
  | reaches_refl c : reaches pc c c
  | reaches_direct c b bases :
      pc !! c = Some bases → b ∈ bases → reaches pc c b
  | reaches_step c d b bases :
      pc !! c = Some bases → d ∈ bases → d ∈ dom pc → reaches pc d b →
      reaches pc c b.

(** An edge of the recursion: from a key to a direct base that is a key. *)
Definition edge (pc : gmap string (gset string)) (c d : string) : Prop :=
  ∃ bases, pc !! c = Some bases ∧ d ∈ bases ∧ d ∈ dom pc.

(** No class is its own (transitive) base. *)
Definition acyclic (pc : gmap string (gset string)) : Prop :=
  ∀ c, ¬ tc (edge pc) c c.

(** [order] is a way Python can iterate the sets of the record: for every
    key, the members of its set, each once. *)
Definition iterates (pc : gmap string (gset string)) (order : string → list string) : Prop :=
  ∀ c bases, pc !! c = Some bases → NoDup (order c) ∧ ∀ x, x ∈ order c ↔ x ∈ bases.

(** Two such orders: the members of each set in the order of their
    encoding, and in the opposite order. *)
Definition sorted_order (pc : gmap string (gset string)) (c : string) : list string :=
  elements (default ∅ (pc !! c)).
Definition reversed_order (pc : gmap string (gset string)) (c : string) : list string :=
  reverse (sorted_order pc c).

(** ** Constant extraction pass *)

Definition builtin_to_cs (k : TypeKind) : option string :=
  match k with
  | VOID => Some "void"
  | BOOL => Some "bool"
  | CHAR_U => Some "byte"
  | UCHAR => Some "byte"
  | USHORT => Some "ushort"
  | UINT => Some "uint"
  | ULONG => Some "uint"
  | ULONGLONG => Some "ulong"
  | CHAR_S => Some "char"
  | SCHAR => Some "char"
  | SHORT => Some "short"
  | INT => Some "int"
  | LONG => Some "int"
  | LONGLONG => Some "long"
  | FLOAT => Some "float"
  | DOUBLE => Some "double"
  | NULLPTR => Some "null"
  | _ => None
  end.

(** A word character of [\w], a blank of [\s]. *)
Definition is_digit (c : ascii) : bool :=
  (48 <=? nat_of_ascii c)%nat && (nat_of_ascii c <=? 57)%nat.
Definition is_word (c : ascii) : bool :=
  Py.is_upper c || Py.is_lower c || is_digit c || Ascii.eqb c "_".
Definition is_space (c : ascii) : bool :=
  let n := nat_of_ascii c in
  ((9 <=? n)%nat && (n <=? 13)%nat) || ((28 <=? n)%nat && (n <=? 32)%nat).

Module DefineConstantsPass.

(** [fp] belongs to the instance, [cs_code] to the class. *)
Record state : Type := State {
  fp : option file;
  cs_code : list string;
}.

Definition fp_write (data : string) : M state unit :=
  λ st, match fp st with
        | Some f => (Ok (), State (Some (fwrite data f)) (cs_code st))
        | None => (Raise AttributeError, st)
        end.
Definition cs_code_append (line : string) : M state unit :=
  modify (λ st, State (fp st) (cs_code st ++ [line])).

Definition on_begin (output : string) (st : state) (fs : filesystem)
  : bool * state * filesystem :=
  let '(f, fs') := open_w (path_join output "_constants.i") fs in
  (true, State (Some f) (cs_code st), fs').

Definition on_end (st : state) (fs : filesystem) : result unit * state * filesystem :=
  match fp st with
  | None => (Raise AttributeError, st, fs)
  | Some f =>
      let f := fwrite ("%pragma(csharp) modulecode=%{" +:+ nl) f in
      let f := fwrite (Py.join "" (cs_code st)) f in
      let f := fwrite ("%}" +:+ nl) f in
      (Ok (), State (Some f) (cs_code st), fclose f fs)
  end.

(** [re.sub(rx_deconst, '', s)] with [rx_deconst = '^const ']. *)
Definition deconst (s : string) : string :=
  if Py.startswith "const " s then Py.slice_from 6 s else s.

(** [re.match(r'^operator[^\w]+.*$', s) is not None], for a name without
    line breaks. *)
Definition is_operator_name (s : string) : bool :=
  Py.startswith "operator" s &&
  match Py.chars (Py.slice_from 8 s) with
  | c :: _ => negb (is_word c)
  | [] => false
  end.

Section Regex.
(** [re.sub(pattern, repl, string)] of Python's library. *)
Variable re_sub : string → string → string → string.

Definition get_constant_value (n : node) : option string :=
  let ln := raw_code (cur n) in
  let ln :=
    if Py.has_char "=" ln
    then re_sub (".*" +:+ spelling (cur n) +:+ "\s*=\s*(.+);[\n\t\s]*") "\1" ln
    else Py.rstrip ("\s" +:+ nl +:+ ";") ln in
  if Py.has_char " " ln then None else Some ln.

(** [if value:] *)
Definition truthy (value : option string) : bool :=
  match value with Some v => negb (String.eqb v "") | None => false end.

Definition is_unsigned_kind (k : TypeKind) : bool :=
  match k with
  | CHAR16 | CHAR32 | USHORT | UINT | ULONG | ULONGLONG | UINT128 => true
  | _ => false
  end.

(** Lines 166-187: the type name and the literal value, if any. *)
Definition extract (n : node) (type_name : string) : string * option string :=
  let ty := type (cur n) in
  if String.eqb (t_spelling ty) "const ea::string" || String.eqb (t_spelling ty) "const char*"
  then match find_child (has_kind UNEXPOSED_EXPR) n with
       | Some node_expr => ("string", get_constant_value node_expr)
       | None => (type_name, None)
       end
  else if t_is_builtin ty
  then
    let literal :=
      match find_any_child (has_kind INTEGER_LITERAL) n with
      | Some l => Some l
      | None => find_any_child (has_kind FLOATING_LITERAL) n
      end in
    match literal with
    | Some literal =>
        let value := get_constant_value literal in
        if truthy value then
          let v := default "" value in
          let type_kind := t_canonical_kind ty in
          let v := if is_unsigned_kind type_kind then Py.rstrip "Uu" v +:+ "U"
                   else if bool_decide (type_kind = FLOAT) then Py.rstrip "Ff" v +:+ "f"
                   else v in
          match builtin_to_cs type_kind with
          | Some cs => (cs, Some v)
          | None => (type_name, None)
          end
        else (type_name, value)
    | None => (type_name, None)
    end
  else (type_name, None).

Definition visit (n : node) (action : AstAction) : M state bool :=
  let c := cur n in
  if Py.endswith "/MathDefs.h" (spelling c) then mret false
  else if bool_decide (kind c = VAR_DECL) && bool_decide (semantic_parent_kind c = NAMESPACE)
  then
    let fqn := fully_qualified_name c in
    if Py.startswith "Urho3D::IsFlagSet" fqn || Py.startswith "Urho3D::FlagSet" fqn ||
       Py.startswith "E_" (spelling c) || Py.startswith "P_" (spelling c)
    then mret false
    else
      let type_name := deconst (t_spelling (type c)) in
      idiomatic_name ← lift (camel_case_str (spelling c));
      if negb (t_is_const_qualified (type c)) then mret false
      else
        let '(type_name, value) := extract n type_name in
        _ ← fp_write ("%ignore " +:+ fqn +:+ ";" +:+ nl);
        _ ← (if truthy value
             then cs_code_append ("  public const " +:+ type_name +:+ " " +:+ idiomatic_name
                                    +:+ " = " +:+ default "" value +:+ ";" +:+ nl)
             else
               let enum := if bool_decide (t_kind (type c) = ENUM) then "enum " else "" in
               fp_write ("%constant " +:+ enum +:+ type_name +:+ " " +:+ idiomatic_name
                           +:+ " = " +:+ fqn +:+ ";" +:+ nl));
        mret true
  else if bool_decide (kind c = CXX_METHOD) || bool_decide (kind c = FUNCTION_DECL)
  then mret (negb (is_operator_name (spelling c)))
  else mret true.

End Regex.

End DefineConstantsPass.

(** ** Flag-enum detector and enum normalizer *)

Module FindFlagEnums.

(** [flag_enums] is a class attribute. *)
Definition visit (n : node) (action : AstAction) : M (list string) bool :=
  if bool_decide (kind (cur n) = STRUCT_DECL) && String.eqb (spelling (cur n)) "IsFlagSet"
  then match children n !! 0%nat with
       | Some ch =>
           _ ← modify (λ flag_enums, flag_enums ++ [t_spelling (type (cur ch))]);
           mret true
       | None => raise IndexError
       end
  else mret true.

End FindFlagEnums.

Module CleanEnumValues.

Record state : Type := State { fp : option file }.

Definition fp_write (data : string) : M state unit :=
  λ st, match fp st with
        | Some f => (Ok (), State (Some (fwrite data f)))
        | None => (Raise AttributeError, st)
        end.

Definition on_begin (output : string) (st : state) (fs : filesystem)
  : bool * state * filesystem :=
  let '(f, fs') := open_w (path_join output "_enums.i") fs in
  (true, State (Some f), fs').

Definition on_end (st : state) (fs : filesystem) : result unit * state * filesystem :=
  match fp st with
  | None => (Raise AttributeError, st, fs)
  | Some f => (Ok (), st, fclose f fs)
  end.

(** The loop over the constants of an enum (lines 604-608). *)
Fixpoint write_sdl_values (l : list node) : M state unit :=
  match l with
  | [] => mret ()
  | child :: rest =>
      _ ← (if Py.contains " = SDL" (raw_code (cur child))
           then fp_write ("%csconstvalue(" +:+ dq +:+ pretty (enum_value (cur child)) +:+ dq
                            +:+ ") " +:+ spelling (cur child) +:+ ";" +:+ nl)
           else mret ());
      write_sdl_values rest
  end.

Definition visit (flag_enums : list string) (n : node) (action : AstAction) : M state bool :=
  let c := cur n in
  if bool_decide (kind c = ENUM_DECL) then
    let ts := t_spelling (type c) in
    _ ← (if bool_decide (ts ∈ flag_enums)
         then fp_write ("%typemap(csattributes) " +:+ ts +:+ " " +:+ dq
                          +:+ "[global::System.Flags]" +:+ dq +:+ ";" +:+ nl)
         else mret ());
    _ ← (if Py.startswith "Urho3D::" ts then write_sdl_values (children n) else mret ());
    mret true
  else if bool_decide (kind c = TYPE_ALIAS_DECL) then
    if Py.startswith "Urho3D::FlagSet<" (t_canonical_spelling (type c)) then
      match children n !! 1%nat with
      | None => raise IndexError
      | Some ch =>
          let enum_name := t_spelling (type (cur ch)) in
          let target_name := Py.strip "'" (spelling c) in
          _ ← fp_write ("using " +:+ target_name +:+ " = " +:+ enum_name +:+ ";" +:+ nl);
          _ ← fp_write ("%typemap(ctype) " +:+ target_name +:+ " " +:+ dq +:+ "size_t"
                          +:+ dq +:+ ";" +:+ nl);
          _ ← fp_write ("%typemap(out) " +:+ target_name +:+ " " +:+ dq
                          +:+ "$result = (size_t)$1.AsInteger();" +:+ dq +:+ nl);
          mret true
      end
    else mret true
  else mret true.

End CleanEnumValues.

(** ** Event metadata pass *)

Module DefineEventsPass.

Record state : Type := State { fp : option file }.

Definition fp_write (data : string) : M state unit :=
  λ st, match fp st with
        | Some f => (Ok (), State (Some (fwrite data f)))
        | None => (Raise AttributeError, st)
        end.

Definition on_begin (output : string) (st : state) (fs : filesystem)
  : bool * state * filesystem :=
  let '(f, fs') := open_w (path_join output "_events.i") fs in
  let f := fwrite ("%pragma(csharp) moduleimports=%{" +:+ nl +:+
                   "public static class E" +:+ nl +:+ "{" +:+ nl) f in
  (true, State (Some f), fs').

Definition on_end (st : state) (fs : filesystem) : result unit * state * filesystem :=
  match fp st with
  | None => (Raise AttributeError, st, fs)
  | Some f =>
      let f := fwrite ("}" +:+ nl +:+ "%}" +:+ nl) f in
      (Ok (), State (Some f), fclose f fs)
  end.

(** [re_param_name.match(code).group(2)] for the pattern
    [URHO3D_PARAM\(([^,]+),\s*([a-z0-9_]+)\);\s*] with [IGNORECASE], on
    ASCII text (outside ASCII, Python also takes a few letters for [a-z]
    and more blanks for [\s]); [None] when there is no match.  Every repetition of the pattern is
    followed by a character it excludes, so the longest run is the only
    candidate. *)
Definition eqb_nocase (a b : ascii) : bool := Ascii.eqb (Py.to_lower a) (Py.to_lower b).
Fixpoint prefix_nocase (p l : list ascii) : option (list ascii) :=
  match p, l with
  | [], _ => Some l
  | a :: p', b :: l' => if eqb_nocase a b then prefix_nocase p' l' else None
  | _ :: _, [] => None
  end.
Fixpoint span (P : ascii → bool) (l : list ascii) : list ascii * list ascii :=
  match l with
  | c :: r => if P c then let '(a, b) := span P r in (c :: a, b) else ([], l)
  | [] => ([], [])
  end.
Definition is_param_char (c : ascii) : bool :=
  Py.is_upper c || Py.is_lower c || is_digit c || Ascii.eqb c "_".
Definition param_name_group (code : string) : option string :=
  rest ← prefix_nocase (Py.chars "URHO3D_PARAM(") (Py.chars code);
  let '(g1, rest) := span (λ c, negb (Ascii.eqb c ",")) rest in
  if bool_decide (g1 = []) then None else
  match rest with
  | ","%char :: rest =>
      let '(_, rest) := span is_space rest in
      let '(g2, rest) := span is_param_char rest in
      if bool_decide (g2 = []) then None else
      match rest with
      | ")"%char :: ";"%char :: _ => Some (Py.str g2)
      | _ => None
      end
  | _ => None
  end.

(** The loop over the parameters of an event (lines 653-657). *)
Fixpoint write_params (l : list node) : M state unit :=
  match l with
  | [] => mret ()
  | param :: rest =>
      match param_name_group (raw_code (cur param)) with
      | None => raise AttributeError
      | Some param_name =>
          var_name ← lift (camel_case_str param_name);
          _ ← fp_write ("        public StringHash " +:+ var_name +:+ " = new StringHash("
                          +:+ dq +:+ param_name +:+ dq +:+ ");" +:+ nl);
          write_params rest
      end
  end.

(** [siblings.index(node)]: the first position of an equal node. *)
Fixpoint index_of (n : node) (l : list node) : option nat :=
  match l with
  | [] => None
  | x :: r => if node_eqb x n then Some 0%nat else S <$> index_of n r
  end.

(** What [visit] compares: the namespace name lowercased, and the name of
    the constant without its two-character prefix and its underscores,
    lowercased. *)
Definition remove_underscores (s : string) : string :=
  Py.str (filter (λ c, c ≠ "_"%char) (Py.chars s)).
Definition names_match (next_node n : node) : bool :=
  String.eqb (Py.lower (spelling (cur next_node)))
             (Py.lower (remove_underscores (Py.slice_from 2 (spelling (cur n))))).

Definition visit (parent : option node) (n : node) (action : AstAction) : M state bool :=
  let c := cur n in
  if bool_decide (kind c = VAR_DECL) &&
     String.eqb (t_spelling (type c)) "const Urho3D::StringHash" &&
     Py.startswith "E_" (spelling c)
  then
    match parent with
    | None => raise AttributeError
    | Some p =>
        let siblings := children p in
        match index_of n siblings with
        | None => raise ValueError
        | Some i =>
            match siblings !! (i + 1)%nat with
            | None => mret false
            | Some next_node =>
                let name := spelling (cur next_node) in
                if bool_decide (kind (cur next_node) = NAMESPACE) && names_match next_node n
                then
                  _ ← fp_write ("    public class " +:+ name +:+ "Event {" +:+ nl +:+
                                "        private StringHash _event = new StringHash(" +:+ dq
                                +:+ name +:+ dq +:+ ");" +:+ nl +:+ nl);
                  _ ← write_params (children next_node);
                  _ ← fp_write ("        public " +:+ name +:+ "Event() { }" +:+ nl +:+
                                "        public static implicit operator StringHash(" +:+ name
                                +:+ "Event e) { return e._event; }" +:+ nl +:+
                                "    }" +:+ nl +:+
                                "    public static " +:+ name +:+ "Event " +:+ name
                                +:+ " = new " +:+ name +:+ "Event();" +:+ nl +:+ nl);
                  mret true
                else mret true
            end
        end
    end
  else mret true.

End DefineEventsPass.

(** ** Property synthesis pass *)

Module DefinePropertiesPass.

Record state : Type := State {
  fp : option file;
  properties : option (list string);
  method_attribs : option (list string);
  stdout : list string;
}.

Definition fp_write (data : string) : M state unit :=
  λ st, match fp st with
        | Some f => (Ok (), State (Some (fwrite data f)) (properties st)
                                  (method_attribs st) (stdout st))
        | None => (Raise AttributeError, st)
        end.
Definition print (line : string) : M state unit :=
  modify (λ st, State (fp st) (properties st) (method_attribs st) (stdout st ++ [line])).
Definition reset : M state unit :=
  modify (λ st, State (fp st) (Some []) (Some []) (stdout st)).
Definition get_properties : M state (list string) :=
  λ st, match properties st with
        | Some l => (Ok l, st)
        | None => (Raise AttributeError, st)
        end.
Definition get_method_attribs : M state (list string) :=
  λ st, match method_attribs st with
        | Some l => (Ok l, st)
        | None => (Raise AttributeError, st)
        end.
Definition properties_append (line : string) : M state unit :=
  l ← get_properties;
  modify (λ st, State (fp st) (Some (l ++ [line])) (method_attribs st) (stdout st)).
Definition method_attribs_append (line : string) : M state unit :=
  l ← get_method_attribs;
  modify (λ st, State (fp st) (properties st) (Some (l ++ [line])) (stdout st)).

Section Hooks.
(** [os.path.abspath], and [args.input], [args.output]. *)
Variable abspath : string → string.
Variables input output : string.

Definition on_file_begin (file_path : string) (st : state) (fs : filesystem)
  : bool * state * filesystem :=
  if Py.startswith input (abspath file_path) then
    let rel := Py.strip "/" (Py.slice_from (String.length input) (abspath file_path)) in
    let dir_name := Py.lower (default "" (head (Py.split "/" rel))) in
    let '(f, fs') := open_a (path_join output ("_properties_" +:+ dir_name +:+ ".i")) fs in
    (true, State (Some f) (properties st) (method_attribs st) (stdout st), fs')
  else (false, st, fs).

Definition on_file_end (file_path : string) (st : state) (fs : filesystem)
  : result unit * state * filesystem :=
  match fp st with
  | None => (Raise AttributeError, st, fs)
  | Some f =>
      let file_name := f_name f in
      let fs := fclose f fs in
      if bool_decide (st_size file_name fs = Some 0%nat)
      then (Ok (), st, unlink file_name fs)
      else (Ok (), st, fs)
  end.
End Hooks.

(** [find_setter] (lines 452-463), closed over the getter and the name of
    the property. *)
Definition find_setter (getter : cursor) (attribute_name : string) (n : cursor) : bool :=
  if negb (bool_decide (access n = PUBLIC)) || negb (bool_decide (kind n = CXX_METHOD))
  then false
  else if negb (is_virtual_method n) && negb (is_static_method n) &&
          String.eqb (spelling n) ("Set" +:+ attribute_name)
  then match arguments n with
       | [parameter] =>
           bool_decide (Some (t_spelling parameter) = t_spelling <$> result_type getter)
       | _ => false
       end
  else false.

(** The test of lines 441-444 on the members of the class; [camel_case]
    may raise. *)
Fixpoint name_taken (attribute_name : string) (l : list node) : result bool :=
  match l with
  | [] => Ok false
  | c :: rest =>
      if bool_decide (access (cur c) = PUBLIC)
      then name ← camel_case_str (spelling (cur c));
           if String.eqb name attribute_name then Ok true
           else name_taken attribute_name rest
      else name_taken attribute_name rest
  end.

Section Regex.
(** [re.sub(pattern, repl, string)] of Python's library. *)
Variable re_sub : string → string → string → string.

(** Lines 468-475: the spelling the type map is looked up with. *)
Definition clean_cstype (t : ctype) : string :=
  let cstype := t_canonical_spelling t in
  let cstype := Py.replace "eastl::basic_string<char, eastl::allocator>" "eastl::string" cstype in
  let cstype := Py.replace ", eastl::allocator>" ">" cstype in
  let cstype := re_sub "eastl::hash_map<(.*), eastl::hash<.*>, eastl::allocator, false>"
                       "eastl::unordered_map<\1>" cstype in
  let cstype := re_sub "eastl::hash_map<(.*), eastl::hash<.*>, eastl::allocator, true>"
                       "eastl::map<\1>" cstype in
  re_sub "Urho3D::FlagSet<(.*), .*>" "\1" cstype.

(** [next(filter(find_setter, getter.parent.children))], [None] on
    [StopIteration]. *)
Definition pick_setter (getter : cursor) (attribute_name : string) (parent : node)
  : option node :=
  head (filter (λ n, find_setter getter attribute_name (cur n)) (children parent)).

(** Lines 425-572, once the node is a public, non-static method whose name
    gives [attribute_name]. *)
Definition visit_method (parent : option node) (getter : node) (attribute_name : string)
  : M state (option bool) :=
  let g := cur getter in
  if is_virtual_method g then
    _ ← print ("Ignore " +:+ fully_qualified_name g +:+ ": virtual");
    mret (Some false)
  else if negb (bool_decide (length (arguments g) = 0%nat)) then
    _ ← print ("Ignore " +:+ fully_qualified_name g +:+ ": parameters");
    mret (Some true)
  else
    match result_type g with
    | None =>
        _ ← print ("Ignore " +:+ fully_qualified_name g +:+ ": return type");
        mret (Some true)
    | Some rt =>
        if String.eqb (t_spelling rt) "void" then
          _ ← print ("Ignore " +:+ fully_qualified_name g +:+ ": return type");
          mret (Some true)
        else
          match parent with
          | None => raise AttributeError
          | Some p =>
              taken ← lift (name_taken attribute_name (find_children (λ _, true) p));
              if taken : bool then
                _ ← print ("Ignore " +:+ fully_qualified_name g +:+ ": attr name taken");
                mret (Some false)
              else if (1 <? length (find_children (λ c, String.eqb (spelling c) (spelling g)) p))%nat
              then
                _ ← print ("Ignore " +:+ fully_qualified_name g +:+ ": overloads");
                mret (Some false)
              else
                let setter := pick_setter g attribute_name p in
                let cstype := clean_cstype rt in
                _ ← properties_append ("  public $typemap(cstype, " +:+ cstype +:+ ") "
                                         +:+ attribute_name +:+ " {");
                _ ← properties_append ("    get { return " +:+ spelling g +:+ "(); }");
                _ ← method_attribs_append ("%csmethodmodifiers " +:+ fully_qualified_name g
                                             +:+ " " +:+ dq +:+ "private" +:+ dq +:+ ";");
                _ ← match setter with
                    | Some s =>
                        _ ← properties_append ("    set { " +:+ spelling (cur s)
                                                 +:+ "(value); }");
                        method_attribs_append ("%csmethodmodifiers "
                                                 +:+ fully_qualified_name (cur s) +:+ " "
                                                 +:+ dq +:+ "private" +:+ dq +:+ ";")
                    | None => mret ()
                    end;
                _ ← properties_append "  }";
                mret (Some true)
          end
    end.

(** [visit]: [None] is Python's [None], returned when leaving a node. *)
Definition visit (parent : option node) (getter : node) (action : AstAction)
  : M state (option bool) :=
  let g := cur getter in
  match action with
  | LEAVE =>
      if bool_decide (kind g = CLASS_DECL) then
        props ← get_properties;
        if bool_decide (props = []) then mret None
        else
          _ ← fp_write ("%typemap(cscode) " +:+ fully_qualified_name g +:+ " %{" +:+ nl);
          _ ← fp_write (Py.join nl props);
          _ ← fp_write (nl +:+ "%}" +:+ nl);
          attribs ← get_method_attribs;
          _ ← fp_write (Py.join nl attribs);
          _ ← fp_write nl;
          mret None
      else mret None
  | ENTER =>
      _ ← (if bool_decide (kind g = CLASS_DECL) then reset else mret ());
      if negb (bool_decide (kind g = CXX_METHOD)) then mret (Some true)
      else if negb (bool_decide (access g = PUBLIC)) then mret (Some true)
      else if is_static_method g then mret (Some true)
      else if Py.startswith "Get" (spelling g)
      then visit_method parent getter (Py.slice_from 3 (spelling g))
      else if Py.startswith "Is" (spelling g)
      then visit_method parent getter (spelling g)
      else mret (Some true)
  end.

End Regex.

End DefinePropertiesPass.

(** ** The pipeline

    Modelled from the spec: the coordinator ([walkcpp.generator.Generator]
    and the base class [walkcpp.passes.AstPass]) is not part of
    autoswig.py.  As specified, it calls [on_begin] of every pass, walks each
    translation unit depth first, hands every node to every pass in
    registration order on entering and on leaving it, lets a pass that
    answers [False] on entering skip the subtree for itself alone, and calls
    [on_end] of every pass.  A hook a pass does not define does nothing. *)

Section Coordinator.
Context {W : Type}.
(** [visit] of the registered passes, in registration order. *)
Variable ps : list (option node → node → AstAction → M W bool).

(** Modelled from the spec: entering a node, every pass that still
    descends here (see [active]) is handed the node, in registration order;
    its answer tells whether it descends further. *)
Fixpoint dispatch_enter (vs : list (option node → node → AstAction → M W bool))
    (active : list bool) (parent : option node) (n : node) : M W (list bool) :=
  match vs, active with
  | v :: vs', a :: active' =>
      a' ← (if a : bool then v parent n ENTER else mret false);
      rest ← dispatch_enter vs' active' parent n;
      mret (a' :: rest)
  | _, _ => mret []
  end.

(** Modelled from the spec: leaving a node, the same passes are handed it
    again. *)
Fixpoint dispatch_leave (vs : list (option node → node → AstAction → M W bool))
    (active : list bool) (parent : option node) (n : node) : M W unit :=
  match vs, active with
  | v :: vs', a :: active' =>
      _ ← (if a : bool then v parent n LEAVE else mret false);
      dispatch_leave vs' active' parent n
  | _, _ => mret ()
  end.

(** Modelled from the spec: the depth-first walk of the coordinator. *)
Fixpoint walk (active : list bool) (parent : option node) (n : node) {struct n}
  : M W unit :=
  match n with
  | Node _ ch =>
      active' ← dispatch_enter ps active parent n;
      _ ← (fix walk_children (l : list node) : M W unit :=
             match l with
             | [] => mret ()
             | x :: r => _ ← walk active' (Some n) x; walk_children r
             end) ch;
      dispatch_leave ps active parent n
  end.
End Coordinator.

(** The property pass alone under the coordinator ([None], the answer on
    leaving a node, counts as false). *)
Definition walk_properties (re_sub : string → string → string → string) (tu : node)
  : M DefinePropertiesPass.state unit :=
  walk [λ p n a, r ← DefinePropertiesPass.visit re_sub p n a; mret (default false r)]
       [true] None tu.

Module Pipeline.

(** The attributes of the five passes of [register_passes]: those of the
    classes ([cs_code], [parent_classes], [flag_enums]) live as long as the
    interpreter, the others belong to the pass objects of one run. *)
Record world : Type := World {
  constants : DefineConstantsPass.state;
  parent_classes : DefineRefCountedPass.odict;
  flag_enums : list string;
  enums : CleanEnumValues.state;
  events : DefineEventsPass.state;
  seen_constants : gset (string * nat);
  seen_refcounted : gset (string * nat);
  seen_enums : gset (string * nat);
}.

(** The interpreter has just loaded the module. *)
Definition initial : world :=
  World (DefineConstantsPass.State None []) DefineRefCountedPass.od_empty []
        (CleanEnumValues.State None) (DefineEventsPass.State None) ∅ ∅ ∅.

(** New pass objects in the same interpreter. *)
Definition new_passes (w : world) : world :=
  World (DefineConstantsPass.State None (DefineConstantsPass.cs_code (constants w)))
        (parent_classes w) (flag_enums w)
        (CleanEnumValues.State None) (DefineEventsPass.State None) ∅ ∅ ∅.

Definition set_constants (x : DefineConstantsPass.state) (w : world) : world :=
  World x (parent_classes w) (flag_enums w) (enums w) (events w)
        (seen_constants w) (seen_refcounted w) (seen_enums w).
Definition set_parent_classes (x : DefineRefCountedPass.odict) (w : world) : world :=
  World (constants w) x (flag_enums w) (enums w) (events w)
        (seen_constants w) (seen_refcounted w) (seen_enums w).
Definition set_flag_enums (x : list string) (w : world) : world :=
  World (constants w) (parent_classes w) x (enums w) (events w)
        (seen_constants w) (seen_refcounted w) (seen_enums w).
Definition set_enums (x : CleanEnumValues.state) (w : world) : world :=
  World (constants w) (parent_classes w) (flag_enums w) x (events w)
        (seen_constants w) (seen_refcounted w) (seen_enums w).
Definition set_events (x : DefineEventsPass.state) (w : world) : world :=
  World (constants w) (parent_classes w) (flag_enums w) (enums w) x
        (seen_constants w) (seen_refcounted w) (seen_enums w).
Definition set_seen_constants (x : gset (string * nat)) (w : world) : world :=
  World (constants w) (parent_classes w) (flag_enums w) (enums w) (events w)
        x (seen_refcounted w) (seen_enums w).
Definition set_seen_refcounted (x : gset (string * nat)) (w : world) : world :=
  World (constants w) (parent_classes w) (flag_enums w) (enums w) (events w)
        (seen_constants w) x (seen_enums w).
Definition set_seen_enums (x : gset (string * nat)) (w : world) : world :=
  World (constants w) (parent_classes w) (flag_enums w) (enums w) (events w)
        (seen_constants w) (seen_refcounted w) x.

(** Run a pass on its own part of the world. *)
Definition zoom {S A} (get : world → S) (set : S → world → world) (m : M S A)
  : M world A :=
  λ w, let '(r, s) := m (get w) in (r, set s w).

(** Modelled from the spec: [@AstPass.once].  A node identity
    (fully-qualified name and source span) a pass has seen is not handed to
    it again, and the pass does not descend below it again. *)
Definition once (get : world → gset (string * nat))
    (set : gset (string * nat) → world → world)
    (v : node → AstAction → M world bool) (n : node) (action : AstAction)
  : M world bool :=
  λ w, let key := (fully_qualified_name (cur n), extent (cur n)) in
       if decide (key ∈ get w) then (Ok false, w)
       else v n action (set ({[key]} ∪ get w) w).

Section Regex.
Variable re_sub : string → string → string → string.
(** The order in which the process iterates the sets of bases (see
    [DefineRefCountedPass.is_subclass_of]). *)
Variable order : string → list string.

(** [visit] of the passes, in the order of [register_passes]. *)
Definition passes : list (option node → node → AstAction → M world bool) :=
  [ λ _, once seen_constants set_seen_constants
           (λ n a, zoom constants set_constants (DefineConstantsPass.visit re_sub n a));
    λ _, once seen_refcounted set_seen_refcounted
           (λ n a w, let '(r, pc) := DefineRefCountedPass.visit n a (parent_classes w) in
                     (Ok r, set_parent_classes pc w));
    λ _ n a, zoom flag_enums set_flag_enums (FindFlagEnums.visit n a);
    λ _, once seen_enums set_seen_enums
           (λ n a w, zoom enums set_enums (CleanEnumValues.visit (flag_enums w) n a) w);
    λ p n a, zoom events set_events (DefineEventsPass.visit p n a) ].

Fixpoint walk_units (units : list node) : M world unit :=
  match units with
  | [] => mret ()
  | tu :: rest => _ ← walk passes [true; true; true; true; true] None tu; walk_units rest
  end.

(** Modelled from the spec: one run of the coordinator over the
    translation units [units], writing below [output]: the [on_begin] hooks,
    the walks, the [on_end] hooks, each in registration order. *)
Definition run (output : string) (units : list node) (w : world) (fs : filesystem)
  : result unit * world * filesystem :=
  let '(_, c, fs) := DefineConstantsPass.on_begin output (constants w) fs in
  let '(_, e, fs) := CleanEnumValues.on_begin output (enums w) fs in
  let '(_, ev, fs) := DefineEventsPass.on_begin output (events w) fs in
  let w := set_events ev (set_enums e (set_constants c w)) in
  match walk_units units w with
  | (Raise x, w) => (Raise x, w, fs)
  | (Ok _, w) =>
      match DefineConstantsPass.on_end (constants w) fs with
      | (Raise x, c, fs) => (Raise x, set_constants c w, fs)
      | (Ok _, c, fs) =>
          let w := set_constants c w in
          match DefineRefCountedPass.on_end order output (parent_classes w) fs with
          | (Raise x, fs) => (Raise x, w, fs)
          | (Ok _, fs) =>
              match CleanEnumValues.on_end (enums w) fs with
              | (Raise x, e, fs) => (Raise x, set_enums e w, fs)
              | (Ok _, e, fs) =>
                  let w := set_enums e w in
                  match DefineEventsPass.on_end (events w) fs with
                  | (Raise x, ev, fs) => (Raise x, set_events ev w, fs)
                  | (Ok _, ev, fs) => (Ok (), set_events ev w, fs)
                  end
              end
          end
      end
  end.

(** The artifacts of a run. *)
Definition outputs (output : string) : list string :=
  path_join output <$> ["_constants.i"; "_refcounted.i"; "_enums.i"; "_events.i"].

(** The class hierarchy a run started in a fresh interpreter has recorded
    when its walks are over, if they all return (the [on_begin] hooks do not
    read the file system, and no [on_end] hook changes the record). *)
Definition recorded (output : string) (units : list node) : DefineRefCountedPass.odict :=
  let '(_, c, _) := DefineConstantsPass.on_begin output (constants initial) ∅ in
  let '(_, e, _) := CleanEnumValues.on_begin output (enums initial) ∅ in
  let '(_, ev, _) := DefineEventsPass.on_begin output (events initial) ∅ in
  parent_classes (walk_units units (set_events ev (set_enums e (set_constants c initial)))).2.

End Regex.

End Pipeline.

(** ** Specification-level definitions *)

(** A new segment starts at each uppercase letter: the first character opens
    a segment, and a character joins the segment of its predecessor unless
    it is an uppercase letter. *)
Fixpoint upper_segments (l : list ascii) : list (list ascii) :=
  match l with
  | [] => []
  | c :: r =>
      match r with
      | [] => [[c]]
      | d :: _ =>
          if Py.is_upper d then [c] :: upper_segments r
          else match upper_segments r with
               | seg :: segs => (c :: seg) :: segs
               | [] => [[c]]
               end
      end
  end.

(** The segments of the loop of [split_identifier] when [cur] is the segment
    being read and [rest] is still to be read. *)
Fixpoint segments_from (cur rest : list ascii) : list (list ascii) :=
  match rest with
  | [] => [cur]
  | c :: r =>
      if Py.is_upper c then cur :: segments_from [c] r
      else segments_from (cur ++ [c]) r
  end.

(** A segment as [camel_case] is specified to take it: not empty, without
    an uppercase letter and without an underscore. *)
Definition lowercase_segment (p : string) : Prop :=
  p ≠ "" ∧ Forall (λ c, Py.is_upper c = false ∧ c ≠ "_"%char) (Py.chars p).

(** The first character in upper case, the others as they are. *)
Definition capitalized (p : string) : string :=
  match p with
  | EmptyString => EmptyString
  | String c rest => String (Py.to_upper c) rest
  end.

(** What the event pass is specified to recognize, with the comparison the
    code makes: a constant of the hashed-string type with the event prefix,
    whose next sibling is a namespace whose lowercased name is the name of
    the constant without prefix and underscores, lowercased. *)
Definition event_pattern (parent : option node) (n : node) : Prop :=
  kind (cur n) = VAR_DECL
  ∧ t_spelling (type (cur n)) = "const Urho3D::StringHash"
  ∧ Py.startswith "E_" (spelling (cur n)) = true
  ∧ ∃ p i next_node,
      parent = Some p
      ∧ DefineEventsPass.index_of n (children p) = Some i
      ∧ children p !! (i + 1)%nat = Some next_node
      ∧ kind (cur next_node) = NAMESPACE
      ∧ Py.lower (spelling (cur next_node))
        = Py.lower (DefineEventsPass.remove_underscores (Py.slice_from 2 (spelling (cur n)))).

(** The first lines of an event descriptor. *)
Definition event_header (name : string) : string :=
  "    public class " +:+ name +:+ "Event {" +:+ nl +:+
  "        private StringHash _event = new StringHash(" +:+ dq +:+ name +:+ dq +:+ ");"
  +:+ nl +:+ nl.

(** The text a pass has added to the file [f] it writes to. *)
Definition events_added (f : file) (st : DefineEventsPass.state) (text : string) : Prop :=
  DefineEventsPass.fp st = Some (File (f_name f) (f_buf f +:+ text)).

(** ** Example trees *)

Definition no_type : ctype := CType "" INVALID false "" INVALID "" false.
Definition record_type (name : string) : ctype := CType name RECORD false name RECORD name false.

(** [class name : bases... {}] *)
Definition class_decl (name : string) (bases : list string) : node :=
  Node (Cursor CLASS_DECL name name PUBLIC (record_type name) None [] false false
               NAMESPACE 0 0 "")
       ((λ b, Node (Cursor CXX_BASE_SPECIFIER b b PUBLIC (record_type b) None [] false false
                           CLASS_DECL 0 0 "") []) <$> bases).

(** The hierarchy A (root) <- B <- C as the class-hierarchy pass records
    it. *)
Definition hierarchy_abc : DefineRefCountedPass.odict :=
  foldl (λ pc n, (DefineRefCountedPass.visit n ENTER pc).2) DefineRefCountedPass.od_empty
        [class_decl "A" []; class_decl "B" ["A"]; class_decl "C" ["B"]].

(** Two classes recorded as bases of each other. *)
Definition hierarchy_cyclic : gmap string (gset string) :=
  <["A" := {["B"]}]> (<["B" := {["A"]}]> ∅).

(** A leaf with the source text [code]. *)
Definition leaf (k : CursorKind) (code : string) : node :=
  Node (Cursor k "" "" INVALID_ACCESS no_type None [] false false OTHER_CURSOR 0 0 code) [].

(** [static const int kMax = 5;] in namespace Urho3D. *)
Definition decl_kMax : node :=
  Node (Cursor VAR_DECL "kMax" "Urho3D::kMax" INVALID_ACCESS
               (CType "const int" INT true "const int" INT "" true)
               None [] false false NAMESPACE 0 0 "static const int kMax = 5")
       [leaf INTEGER_LITERAL "5"].

(** [static const char* kName = "foo";] in namespace Urho3D, as the parser
    reports it: the type is spelled [const char *], with a blank, and the
    variable, a pointer to [const char], is not const itself. *)
Definition decl_kName : node :=
  Node (Cursor VAR_DECL "kName" "Urho3D::kName" INVALID_ACCESS
               (CType "const char *" POINTER false "const char *" POINTER "" false)
               None [] false false NAMESPACE 0 0
               ("static const char* kName = " +:+ dq +:+ "foo" +:+ dq))
       [Node (Cursor UNEXPOSED_EXPR "" "" INVALID_ACCESS no_type None [] false false
                     OTHER_CURSOR 0 0 (dq +:+ "foo" +:+ dq))
             [leaf STRING_LITERAL (dq +:+ "foo" +:+ dq)]].

(** A stand-in for [re.sub] where no pattern is ever applied. *)
Definition re_sub_unused (pattern repl s : string) : string := s.

(** A method of class Urho3D::Actor. *)
Definition method_decl (name : string) (acc : AccessSpecifier) (is_virtual is_static : bool)
    (params : list ctype) (result : ctype) (offset : nat) : node :=
  Node (Cursor CXX_METHOD name ("Urho3D::Actor::" +:+ name) acc no_type (Some result) params
               is_static is_virtual CLASS_DECL 0 offset "") [].

Definition builtin (name : string) (k : TypeKind) : ctype := CType name k false name k "" true.

(** [class Actor { public: int GetHealth(); void SetHealth(int); };] *)
Definition getter_GetHealth : node :=
  method_decl "GetHealth" PUBLIC false false [] (builtin "int" INT) 10.
Definition setter_SetHealth : node :=
  method_decl "SetHealth" PUBLIC false false [builtin "int" INT] (builtin "void" VOID) 20.
Definition class_Actor : node :=
  Node (Cursor CLASS_DECL "Actor" "Urho3D::Actor" PUBLIC (record_type "Urho3D::Actor") None []
               false false NAMESPACE 0 0 "")
       [getter_GetHealth; setter_SetHealth].


(** [class Actor { public: virtual int GetHealth(); };] *)
Definition getter_virtual : node :=
  method_decl "GetHealth" PUBLIC true false [] (builtin "int" INT) 10.

(** [URHO3D_EVENT(E_SCENEUPDATE, SceneUpdate) { URHO3D_PARAM(P_TIMESTEP, TimeStep); }]
    after macro expansion: the constant, then the namespace of the
    parameters. *)
Definition hash_type : ctype :=
  CType "const Urho3D::StringHash" RECORD true "const Urho3D::StringHash" RECORD
        "Urho3D::StringHash" false.
Definition event_constant (name : string) (offset : nat) : node :=
  Node (Cursor VAR_DECL name ("Urho3D::" +:+ name) INVALID_ACCESS hash_type None [] false false
               NAMESPACE 0 offset "") [].
Definition event_namespace (name : string) (offset : nat) (params : list string) : node :=
  Node (Cursor NAMESPACE name ("Urho3D::" +:+ name) INVALID_ACCESS no_type None [] false false
               NAMESPACE 0 offset "")
       ((λ code, leaf VAR_DECL code) <$> params).
Definition events_SceneUpdate : node :=
  Node (Cursor NAMESPACE "Urho3D" "Urho3D" INVALID_ACCESS no_type None [] false false
               TRANSLATION_UNIT 0 0 "")
       [event_constant "E_SCENEUPDATE" 100;
        event_namespace "SceneUpdate" 140 ["URHO3D_PARAM(P_TIMESTEP, TimeStep);"]].

(** The same with underscores on both sides:
    [E_SCENE_UPDATE] followed by [namespace Scene_Update]. *)
Definition events_Scene_Update : node :=
  Node (Cursor NAMESPACE "Urho3D" "Urho3D" INVALID_ACCESS no_type None [] false false
               TRANSLATION_UNIT 0 0 "")
       [event_constant "E_SCENE_UPDATE" 100;
        event_namespace "Scene_Update" 140 ["URHO3D_PARAM(P_TIMESTEP, TimeStep);"]].

(** A translation unit with the constant [kMax] in namespace Urho3D. *)
Definition unit_kMax : node :=
  Node (Cursor TRANSLATION_UNIT "Constants.h" "Constants.h" INVALID_ACCESS no_type None []
               false false OTHER_CURSOR 0 0 "")
       [Node (Cursor NAMESPACE "Urho3D" "Urho3D" INVALID_ACCESS no_type None [] false false
                     TRANSLATION_UNIT 0 1 "")
             [decl_kMax]].

(** The state and the files after a first run over [unit_kMax], and after a
    second run by new pass objects in the same interpreter. *)
Definition first_run : result unit * Pipeline.world * filesystem :=
  Pipeline.run re_sub_unused (sorted_order ∅) "out" [unit_kMax] Pipeline.initial ∅.
Definition second_run : result unit * Pipeline.world * filesystem :=
  Pipeline.run re_sub_unused (sorted_order ∅) "out" [unit_kMax]
               (Pipeline.new_passes first_run.1.2) first_run.2.

(** [class name : bases... {}] at the source offset [offset]. *)
Definition class_at (name : string) (offset : nat) (bases : list string) : node :=
  Node (Cursor CLASS_DECL name name PUBLIC (record_type name) None [] false false
               NAMESPACE 0 offset "")
       ((λ b, Node (Cursor CXX_BASE_SPECIFIER b b PUBLIC (record_type b) None [] false false
                           CLASS_DECL 0 (offset + 1) "") []) <$> bases).

(** A translation unit with the classes A (root) <- B <- C. *)
Definition unit_abc : node :=
  Node (Cursor TRANSLATION_UNIT "Classes.h" "Classes.h" INVALID_ACCESS no_type None []
               false false OTHER_CURSOR 0 0 "")
       [class_at "A" 10 []; class_at "B" 20 ["A"]; class_at "C" 30 ["B"]].

(** A tree in which A has the bases B and C, B has the base A, and C has the
    base Urho3D::RefCounted: A and B are bases of each other. *)
Definition unit_cycle : node :=
  Node (Cursor TRANSLATION_UNIT "Cycle.h" "Cycle.h" INVALID_ACCESS no_type None []
               false false OTHER_CURSOR 0 0 "")
       [class_at "A" 10 ["B"; "C"]; class_at "B" 20 ["A"];
        class_at "C" 30 ["Urho3D::RefCounted"]].

(** [class Actor { public: virtual int GetHealth(); int GetMana(); };] *)
Definition class_virtual_then_plain : node :=
  Node (Cursor CLASS_DECL "Actor" "Urho3D::Actor" PUBLIC (record_type "Urho3D::Actor") None []
               false false NAMESPACE 0 0 "")
       [getter_virtual;
        method_decl "GetMana" PUBLIC false false [] (builtin "int" INT) 20].

(** ** Invariants and summaries of the passes *)

(** The key list of [parent_classes] lists the keys of the map, each once,
    and no recorded set of bases is empty. *)
Definition od_wf (pc : DefineRefCountedPass.odict) : Prop :=
  NoDup (DefineRefCountedPass.od_keys pc)
  ∧ (∀ k, k ∈ DefineRefCountedPass.od_keys pc ↔ k ∈ dom (DefineRefCountedPass.od_map pc))
  ∧ (∀ k bases, DefineRefCountedPass.od_map pc !! k = Some bases → bases ≠ ∅).

(** The names in the base specifiers of a class, in source order. *)
Definition base_names (n : node) : list string :=
  (λ base, t_declaration (type (cur base))) <$> find_children (has_kind CXX_BASE_SPECIFIER) n.

(** The line [on_end] writes for a reference-counted class. *)
Definition refcounted_line (cls_name : string) : string :=
  "URHO3D_REFCOUNTED(" +:+ cls_name +:+ ");" +:+ nl.

(** [class Actor { public: bool IsEnabled(); };] *)
Definition getter_IsEnabled : node :=
  method_decl "IsEnabled" PUBLIC false false [] (builtin "bool" BOOL) 10.
Definition class_Switch : node :=
  Node (Cursor CLASS_DECL "Actor" "Urho3D::Actor" PUBLIC (record_type "Urho3D::Actor") None []
               false false NAMESPACE 0 0 "")
       [getter_IsEnabled].

(** [int name;] in namespace Urho3D: a variable that is not const. *)
Definition decl_mutable (name : string) : node :=
  Node (Cursor VAR_DECL name ("Urho3D::" +:+ name) INVALID_ACCESS
               (CType "int" INT false "int" INT "" true)
               None [] false false NAMESPACE 0 0 ("int " +:+ name))
       [].

(** The lines the enum normalizer writes: the flags attribute of an enum
    type, and the numeric value of an enumerator. *)
Definition flags_line (ts : string) : string :=
  "%typemap(csattributes) " +:+ ts +:+ " " +:+ dq +:+ "[global::System.Flags]" +:+ dq
    +:+ ";" +:+ nl.
Definition sdl_value_line (child : node) : string :=
  "%csconstvalue(" +:+ dq +:+ pretty (enum_value (cur child)) +:+ dq +:+ ") "
    +:+ spelling (cur child) +:+ ";" +:+ nl.

(** [enum Key { KEY_NONE = 0, KEY_A = SDLK_a, KEY_B = SDLK_b };] in namespace
    Urho3D. *)
Definition enum_constant (name code : string) (value : Z) : node :=
  Node (Cursor ENUM_CONSTANT_DECL name name INVALID_ACCESS no_type None [] false false
               ENUM_DECL value 0 code) [].
Definition enum_Key : node :=
  Node (Cursor ENUM_DECL "Key" "Urho3D::Key" INVALID_ACCESS
               (CType "Urho3D::Key" ENUM false "Urho3D::Key" ENUM "Urho3D::Key" false)
               None [] false false NAMESPACE 0 0 "")
       [enum_constant "KEY_NONE" "KEY_NONE = 0" 0;
        enum_constant "KEY_A" "KEY_A = SDLK_a" 97;
        enum_constant "KEY_B" "KEY_B = SDLK_b" 98].

(** The line of a parameter in an event descriptor, and the last lines of
    the descriptor. *)
Definition param_line (names : string * string) : string :=
  "        public StringHash " +:+ names.2 +:+ " = new StringHash(" +:+ dq +:+ names.1
    +:+ dq +:+ ");" +:+ nl.
Definition event_footer (name : string) : string :=
  "        public " +:+ name +:+ "Event() { }" +:+ nl +:+
  "        public static implicit operator StringHash(" +:+ name
    +:+ "Event e) { return e._event; }" +:+ nl +:+
  "    }" +:+ nl +:+
  "    public static " +:+ name +:+ "Event " +:+ name +:+ " = new " +:+ name +:+ "Event();"
    +:+ nl +:+ nl.

(** A child of the namespace of an event is read when it matches the
    parameter pattern and its name can be camel-cased: [names] holds the
    second argument of the macro and the name of the C# field. *)
Definition param_read (param : node) (names : string * string) : Prop :=
  DefineEventsPass.param_name_group (raw_code (cur param)) = Some names.1
  ∧ camel_case_str names.1 = Ok names.2.

(** [URHO3D_EVENT(E_UPDATE, Update) { URHO3D_PARAM(P_TIMESTEP, TimeStep); int x; }]:
    the second child of the namespace is no parameter macro. *)
Definition events_Update_broken : node :=
  Node (Cursor NAMESPACE "Urho3D" "Urho3D" INVALID_ACCESS no_type None [] false false
               TRANSLATION_UNIT 0 0 "")
       [event_constant "E_UPDATE" 100;
        event_namespace "Update" 140 ["URHO3D_PARAM(P_TIMESTEP, TimeStep);"; "int x;"]].

(** [static const unsigned kCount = 5u;] in namespace Urho3D. *)
Definition decl_kCount : node :=
  Node (Cursor VAR_DECL "kCount" "Urho3D::kCount" INVALID_ACCESS
               (CType "const unsigned int" UINT true "const unsigned int" UINT "" true)
               None [] false false NAMESPACE 0 0 "static const unsigned kCount = 5u")
       [leaf INTEGER_LITERAL "5u"].

(** * Proofs *)

Local Open Scope nat_scope.

(** ** Strings *)

Lemma chars_str l : Py.chars (Py.str l) = l.
Proof. apply list_ascii_of_string_of_list_ascii. Qed.

Lemma str_chars s : Py.str (Py.chars s) = s.
Proof. apply string_of_list_ascii_of_string. Qed.

Lemma length_chars s : length (Py.chars s) = String.length s.
Proof. induction s as [|c s IH]; simpl; [done | by rewrite IH]. Qed.

Lemma str_nil_iff l : Py.str l = "" ↔ l = [].
Proof.
  split; [|by intros ->].
  intros H. apply (f_equal Py.chars) in H. by rewrite chars_str in H.
Qed.

Lemma str_app l1 l2 : Py.str (l1 ++ l2) = Py.str l1 +:+ Py.str l2.
Proof. induction l1 as [|c l1 IH]; simpl; [done | by rewrite IH]. Qed.

Lemma chars_app s1 s2 : Py.chars (s1 +:+ s2) = Py.chars s1 ++ Py.chars s2.
Proof. induction s1 as [|c s1 IH]; simpl; [done | by rewrite IH]. Qed.

(** ** [split_identifier] on a name without underscore *)

Lemma segments_from_cons rest : ∀ cur c,
  cur ≠ [] →
  segments_from (c :: cur) rest =
    match segments_from cur rest with
    | seg :: segs => (c :: seg) :: segs
    | [] => [[c]]
    end.
Proof.
  induction rest as [|d rest IH]; intros cur c Hne; simpl.
  - done.
  - destruct (Py.is_upper d); [done|].
    apply (IH (cur ++ [d])). by destruct cur.
Qed.

Lemma segments_from_upper_segments rest : ∀ c,
  segments_from [c] rest = upper_segments (c :: rest).
Proof.
  induction rest as [|d rest IH]; intros c; [done|].
  simpl segments_from. cbn [upper_segments].
  destruct (Py.is_upper d) eqn:Hd.
  - f_equal. apply IH.
  - change ([c] ++ [d]) with (c :: [d]).
    rewrite segments_from_cons by done. by rewrite IH.
Qed.

Lemma split_loop s m : ∀ k prev parts,
  k + m = length (Py.chars s) - 1 → prev ≤ k → k < length (Py.chars s) →
  (let '(p, ps) := foldl (split_step s) (prev, parts) (seq k m) in
   if String.eqb (Py.slice_from p s) "" then ps else ps ++ [Py.lower (Py.slice_from p s)])
  = parts ++ ((λ seg, Py.lower (Py.str seg)) <$>
                segments_from (take (k + 1 - prev) (drop prev (Py.chars s)))
                              (drop (k + 1) (Py.chars s))).
Proof.
  induction m as [|m IH]; intros k prev parts Hm Hp Hk.
  - simpl. rewrite (drop_ge _ (k + 1)) by lia. simpl.
    rewrite take_ge by (rewrite length_drop; lia).
    unfold Py.slice_from.
    destruct (String.eqb_spec (Py.str (drop prev (Py.chars s))) "") as [He|He]; [|done].
    apply str_nil_iff in He. apply (f_equal length) in He.
    rewrite length_drop in He. simpl in He. lia.
  - simpl seq. simpl foldl.
    destruct (lookup_lt_is_Some_2 (Py.chars s) (k + 1)) as [c Hc]; [lia|].
    unfold Py.get. rewrite Hc.
    rewrite (drop_S _ c (k + 1)) by done. simpl segments_from.
    assert (Hcur : take (S k + 1 - prev) (drop prev (Py.chars s))
                   = take (k + 1 - prev) (drop prev (Py.chars s)) ++ [c]).
    { replace (S k + 1 - prev) with (S (k + 1 - prev)) by lia.
      erewrite take_S_r; [done|]. rewrite lookup_drop.
      replace (prev + (k + 1 - prev)) with (k + 1) by lia. done. }
    destruct (Py.is_upper c) eqn:Hu.
    + rewrite (IH (S k) (k + 1) _) by lia.
      replace (S k + 1 - (k + 1)) with 1 by lia.
      replace (S k + 1) with (S (k + 1)) by lia.
      rewrite (drop_S _ c (k + 1)) by done. simpl take.
      rewrite <- app_assoc. done.
    + rewrite (IH (S k) prev parts) by lia.
      rewrite Hcur. replace (S k + 1) with (S (k + 1)) by lia. done.
Qed.

Lemma split_identifier_no_underscore s :
  Py.has_char "_" s = false →
  split_identifier s = (λ seg, Py.lower (Py.str seg)) <$> upper_segments (Py.chars s).
Proof.
  intros Hu. unfold split_identifier. rewrite Hu.
  destruct (Py.chars s) as [|c r] eqn:Hs.
  - assert (s = "") as -> by (rewrite <- (str_chars s), Hs; done). done.
  - rewrite <- length_chars.
    pose proof (split_loop s (length (Py.chars s) - 1) 0 0 []) as H.
    rewrite Hs in H. simpl length in H.
    rewrite Hs. simpl length.
    replace (S (length r) - 1) with (length r) in * by lia.
    specialize (H eq_refl (le_n _) ltac:(lia)).
    destruct (foldl _ _ _) as [p ps]. rewrite H. simpl.
    by rewrite segments_from_upper_segments.
Qed.

(** *** The segmentation at uppercase letters *)

Lemma upper_segments_unfold c d r :
  upper_segments (c :: d :: r) =
    if Py.is_upper d then [c] :: upper_segments (d :: r)
    else match upper_segments (d :: r) with
         | seg :: segs => (c :: seg) :: segs
         | [] => [[c]]
         end.
Proof. done. Qed.

Lemma upper_segments_cons c r :
  ∃ t segs, upper_segments (c :: r) = (c :: t) :: segs.
Proof.
  revert c. induction r as [|d r IH]; intros c; [by exists [], []|].
  rewrite upper_segments_unfold. destruct (Py.is_upper d); [by eauto|].
  destruct (IH d) as (t & segs & ->). by eauto.
Qed.

Lemma upper_segments_concat l : concat (upper_segments l) = l.
Proof.
  induction l as [|c r IH]; [done|].
  destruct r as [|d r]; [done|].
  rewrite upper_segments_unfold. destruct (Py.is_upper d).
  - cbn [concat]. by rewrite IH.
  - destruct (upper_segments_cons d r) as (t & segs & Heq).
    rewrite Heq in IH |- *. cbn [concat] in *. by rewrite <- IH.
Qed.

(** Inside a segment no uppercase letter follows the first character. *)
Lemma upper_segments_tails l :
  Forall (λ seg, ∃ c t, seg = c :: t ∧ Forall (λ x, Py.is_upper x = false) t)
         (upper_segments l).
Proof.
  induction l as [|c r IH]; [constructor|].
  destruct r as [|d r]; [repeat constructor; by exists c, []|].
  rewrite upper_segments_unfold. destruct (Py.is_upper d) eqn:Hd.
  - constructor; [by exists c, []|done].
  - destruct (upper_segments_cons d r) as (t & segs & Heq).
    rewrite Heq in IH |- *. inversion IH as [|? ? (c' & t' & Hseg & Ht) Hrest]; subst.
    inversion Hseg; subst. constructor; [|done].
    exists c, (c' :: t'). split; [done|]. by constructor.
Qed.

(** Every segment but the first starts with an uppercase letter. *)
Lemma upper_segments_heads l :
  Forall (λ seg, ∃ c t, seg = c :: t ∧ Py.is_upper c = true)
         (tail (upper_segments l)).
Proof.
  induction l as [|c r IH]; [constructor|].
  destruct r as [|d r]; [constructor|].
  rewrite upper_segments_unfold. destruct (Py.is_upper d) eqn:Hd.
  - cbn [tail]. destruct (upper_segments_cons d r) as (t & segs & Heq).
    rewrite Heq in IH |- *. constructor; [by exists d, t|done].
  - destruct (upper_segments_cons d r) as (t & segs & Heq).
    rewrite Heq in IH |- *. done.
Qed.

Lemma upper_segments_all_upper l :
  Forall (λ c, Py.is_upper c = true) l → upper_segments l = (λ c, [c]) <$> l.
Proof.
  induction l as [|c r IH]; [done|].
  intros Hall. inversion Hall as [|? ? _ Hr]; subst.
  destruct r as [|d r]; [done|].
  rewrite upper_segments_unfold. inversion Hr as [|? ? Hd _]; subst. rewrite Hd.
  rewrite IH by done. done.
Qed.

Lemma upper_segments_no_upper c r :
  Forall (λ x, Py.is_upper x = false) r → upper_segments (c :: r) = [c :: r].
Proof.
  revert c. induction r as [|d r IH]; intros c Hr; [done|].
  inversion Hr as [|? ? Hd Hr']; subst.
  rewrite upper_segments_unfold. rewrite Hd. by rewrite IH.
Qed.

(** ** [camel_case] *)

Lemma to_upper_idemp c : Py.to_upper (Py.to_upper c) = Py.to_upper c.
Proof. by destruct c as [[] [] [] [] [] [] [] []]. Qed.

Lemma to_lower_not_upper c : Py.is_upper c = false → Py.to_lower c = c.
Proof. unfold Py.to_lower. by intros ->. Qed.

Lemma capitalized_idemp p : capitalized (capitalized p) = capitalized p.
Proof. destruct p as [|c p]; [done|]. simpl. by rewrite to_upper_idemp. Qed.

Lemma capitalize_nonempty p : p ≠ "" → capitalize p = Ok (capitalized p).
Proof.
  destruct p as [|c p]; [done|]. intros _. unfold capitalize, Py.get. simpl.
  unfold Py.slice_from. simpl. by rewrite drop_0, str_chars.
Qed.

Lemma capitalized_nonempty p : p ≠ "" → capitalized p ≠ "".
Proof. by destruct p. Qed.

Lemma capitalize_parts_nonempty l :
  Forall (λ p, p ≠ "") l → capitalize_parts l = Ok (capitalized <$> l).
Proof.
  induction 1 as [|p l Hp _ IH]; [done|].
  simpl. rewrite capitalize_nonempty by done. simpl. by rewrite IH.
Qed.

Lemma lower_no_upper l :
  Forall (λ c, Py.is_upper c = false) l → Py.lower (Py.str l) = Py.str l.
Proof.
  intros H. unfold Py.lower. rewrite chars_str. f_equal.
  induction H as [|c l Hc _ IH]; [done|].
  rewrite fmap_cons. by rewrite to_lower_not_upper, IH.
Qed.

(** *** A name made of segments joined by underscores *)

Lemma chars_join_underscore ps : ∀ p,
  Py.chars (Py.join "_" (p :: ps)) =
    Py.chars p ++ concat ((λ q, "_"%char :: Py.chars q) <$> ps).
Proof.
  induction ps as [|q ps IH]; intros p.
  - simpl. by rewrite app_nil_r.
  - change (Py.join "_" (p :: q :: ps)) with (p +:+ "_" +:+ Py.join "_" (q :: ps)).
    rewrite !chars_app, IH. done.
Qed.

Lemma split_on_no_sep a :
  Forall (λ c, c ≠ "_"%char) a → Py.split_on "_" a = [a].
Proof.
  induction 1 as [|c a Hc _ IH]; [done|].
  simpl. destruct (Ascii.eqb_spec c "_"); [done|]. by rewrite IH.
Qed.

Lemma split_on_app_sep a rest :
  Forall (λ c, c ≠ "_"%char) a →
  Py.split_on "_" (a ++ "_"%char :: rest) = a :: Py.split_on "_" rest.
Proof.
  induction 1 as [|c a Hc _ IH]; [done|].
  simpl. destruct (Ascii.eqb_spec c "_"); [done|]. by rewrite IH.
Qed.

Lemma split_on_joined ps : ∀ p,
  Forall (λ c, c ≠ "_"%char) (Py.chars p) →
  Forall (λ q, Forall (λ c, c ≠ "_"%char) (Py.chars q)) ps →
  Py.split_on "_" (Py.chars p ++ concat ((λ q, "_"%char :: Py.chars q) <$> ps))
  = Py.chars p :: (Py.chars <$> ps).
Proof.
  induction ps as [|q ps IH]; intros p Hp Hps.
  - simpl. rewrite app_nil_r. by apply split_on_no_sep.
  - inversion Hps; subst. rewrite fmap_cons. cbn [concat].
    rewrite <- app_comm_cons. rewrite split_on_app_sep by done.
    rewrite IH by done. done.
Qed.

Lemma lstrip_chars_keep cs c l :
  existsb (Ascii.eqb c) cs = false → Py.lstrip_chars cs (c :: l) = c :: l.
Proof. intros H. simpl. by rewrite H. Qed.

Lemma rstrip_chars_keep cs c l :
  existsb (Ascii.eqb c) cs = false → Py.rstrip_chars cs (l ++ [c]) = l ++ [c].
Proof.
  intros H. unfold Py.rstrip_chars. rewrite rev_app_distr. simpl.
  rewrite H. simpl. by rewrite rev_involutive.
Qed.

Lemma joined_last ps : ∀ p,
  Forall lowercase_segment (p :: ps) →
  ∃ l c, Py.chars p ++ concat ((λ q, "_"%char :: Py.chars q) <$> ps) = l ++ [c]
         ∧ c ≠ "_"%char.
Proof.
  induction ps as [|q ps IH]; intros p Hall.
  - inversion Hall as [|? ? [Hne Hp] _]; subst. simpl. rewrite app_nil_r.
    destruct (Py.chars p) as [|c0 l0] eqn:Hc using rev_ind.
    + exfalso. apply Hne. by rewrite <- (str_chars p), Hc.
    + exists l0, c0. split; [done|].
      apply Forall_app in Hp as [_ Hp]. inversion Hp as [|? ? [_ ?] _]; by subst.
  - inversion Hall as [|? ? _ Hrest]; subst.
    destruct (IH q Hrest) as (l & c & Heq & Hc).
    exists ((Py.chars p ++ ["_"%char]) ++ l), c. split; [|done].
    rewrite fmap_cons. cbn [concat].
    rewrite <- app_comm_cons, Heq. by rewrite <- !app_assoc.
Qed.

Lemma strip_joined p ps :
  Forall lowercase_segment (p :: ps) →
  Py.strip "_" (Py.join "_" (p :: ps)) = Py.join "_" (p :: ps).
Proof.
  intros Hall. unfold Py.strip.
  rewrite <- (str_chars (Py.join "_" (p :: ps))) at 2. f_equal.
  rewrite chars_join_underscore.
  destruct (joined_last ps p Hall) as (l & c & Heq & Hc).
  assert (Hkeep : ∀ x : ascii, x ≠ "_"%char → existsb (Ascii.eqb x) (Py.chars "_") = false).
  { intros x Hx. simpl. destruct (Ascii.eqb_spec x "_"); done. }
  inversion Hall as [|? ? [Hne Hp] _]; subst.
  destruct (Py.chars p) as [|c0 l0] eqn:Hcp.
  { exfalso. apply Hne. by rewrite <- (str_chars p), Hcp. }
  inversion Hp as [|? ? [_ Hc0] _]; subst.
  rewrite <- app_comm_cons. rewrite lstrip_chars_keep by auto.
  rewrite app_comm_cons, Heq. by apply rstrip_chars_keep, Hkeep.
Qed.

Lemma existsb_false {A} (f : A → bool) l :
  Forall (λ x, f x = false) l → existsb f l = false.
Proof. induction 1 as [|x l Hx _ IH]; [done|]. simpl. by rewrite Hx, IH. Qed.

Lemma joined_no_upper p ps :
  Forall lowercase_segment (p :: ps) →
  Forall (λ c, Py.is_upper c = false) (Py.chars (Py.join "_" (p :: ps))).
Proof.
  intros Hall. rewrite chars_join_underscore.
  inversion Hall as [|? ? [_ Hp] Hps]; subst.
  apply Forall_app. split.
  - eapply Forall_impl; [exact Hp|]. by intros ? [? _].
  - clear Hall Hp. induction Hps as [|q ps [_ Hq] _ IH]; [constructor|].
    rewrite fmap_cons. cbn [concat]. constructor; [done|].
    apply Forall_app. split; [|done].
    eapply Forall_impl; [exact Hq|]. by intros ? [? _].
Qed.

Lemma split_identifier_joined p ps :
  Forall lowercase_segment (p :: ps) →
  split_identifier (Py.join "_" (p :: ps)) = p :: ps.
Proof.
  intros Hall.
  assert (Hnu : Forall (λ q, Forall (λ c, c ≠ "_"%char) (Py.chars q)) (p :: ps)).
  { eapply Forall_impl; [exact Hall|]. intros q [_ Hq].
    eapply Forall_impl; [exact Hq|]. by intros ? [_ ?]. }
  assert (Hup : Forall (λ q, Forall (λ c, Py.is_upper c = false) (Py.chars q)) (p :: ps)).
  { eapply Forall_impl; [exact Hall|]. intros q [_ Hq].
    eapply Forall_impl; [exact Hq|]. by intros ? [? _]. }
  assert (Hlow : ∀ l : list string,
            Forall (λ q, Forall (λ c, Py.is_upper c = false) (Py.chars q)) l →
            Py.lower <$> l = l).
  { induction 1 as [|q l Hq _ IH]; [done|]. rewrite fmap_cons, IH. f_equal.
    rewrite <- (str_chars q). by apply lower_no_upper. }
  destruct ps as [|q ps].
  - simpl Py.join. inversion Hall as [|? ? [Hne Hp] _]; subst.
    inversion Hnu as [|? ? Hnp _]; subst. inversion Hup as [|? ? Hupp _]; subst.
    rewrite split_identifier_no_underscore.
    + destruct (Py.chars p) as [|c0 l0] eqn:Hcp.
      { exfalso. apply Hne. by rewrite <- (str_chars p), Hcp. }
      inversion Hupp; subst. rewrite upper_segments_no_upper by done.
      rewrite <- Hcp in Hupp |- *. simpl. f_equal.
      rewrite lower_no_upper by done. apply str_chars.
    + unfold Py.has_char. apply existsb_false.
      eapply Forall_impl; [exact Hnp|]. intros c Hc. cbv beta.
      destruct (Ascii.eqb_spec "_" c); [by subst|done].
  - unfold split_identifier.
    assert (Hhas : Py.has_char "_" (Py.join "_" (p :: q :: ps)) = true).
    { unfold Py.has_char. rewrite chars_join_underscore. rewrite existsb_app.
      rewrite fmap_cons. cbn [concat]. simpl. by rewrite orb_true_r. }
    rewrite Hhas. unfold Py.split. rewrite chars_join_underscore.
    inversion Hnu; subst. rewrite split_on_joined by done.
    rewrite <- fmap_cons, <- (list_fmap_compose Py.chars Py.str).
    assert (Hid : ∀ l : list string, (Py.str ∘ Py.chars) <$> l = l).
    { induction l as [|x l IH]; [done|]. rewrite fmap_cons, IH. simpl.
      by rewrite str_chars. }
    rewrite Hid. by apply Hlow.
Qed.

(** ** Identifier normalizer: the claims *)

(** The one caller that passes a pre-split sequence never gets an answer. *)
Lemma rename_identifier_raises name parent_name is_private :
  rename_identifier name parent_name is_private = Raise AttributeError.
Proof. reflexivity. Qed.

(** C1: [camel_case] does not accept a pre-split sequence.  Line 66 calls
    [strip] on its argument before the type tests of lines 68-76, and a list
    or a tuple has no such method: for every sequence of segments the call
    raises [AttributeError], and the branch written for sequences (lines
    73-74) is never reached.  At [["get"; "max"; "health"]] the outcome is
    the exception, not ["GetMaxHealth"]; [rename_identifier], the caller
    that hands a list over (line 98), fails with it on every input. *)
Theorem camel_case_sequence_raises (l : list string) :
  camel_case (PList l) = Raise AttributeError
  ∧ camel_case (PTuple l) = Raise AttributeError
  ∧ camel_case (PList ["get"; "max"; "health"]) = Raise AttributeError
  ∧ camel_case (PList ["get"; "max"; "health"]) ≠ Ok (PStr "GetMaxHealth")
  ∧ ∀ name parent_name is_private,
      rename_identifier name parent_name is_private = Raise AttributeError.
Proof.
  split; [reflexivity|]. split; [reflexivity|]. split; [reflexivity|].
  split; [discriminate|]. intros name parent_name is_private.
  apply rename_identifier_raises.
Qed.

(** X22: on a raw name [camel_case] splits first: for every non-empty list
    of non-empty ASCII segments without uppercase letter and without
    underscore, [camel_case] of the segments joined by underscores is the
    concatenation of the segments with the first character of each in upper
    case. *)
Theorem camel_case_of_segments (l : list string) :
  l ≠ [] → Forall lowercase_segment l → Forall (λ p, Py.isascii p = true) l →
  camel_case (PStr (Py.join "_" l)) = Ok (PStr (Py.join "" (capitalized <$> l))).
Proof.
  intros Hne Hall _. destruct l as [|p ps]; [done|].
  assert (Hnonempty : Forall (λ q, q ≠ "") (p :: ps)).
  { eapply Forall_impl; [exact Hall|]. by intros ? [? _]. }
  unfold camel_case. cbn [obj_strip mbind result_bind].
  rewrite strip_joined by done.
  assert (Hup : Py.isupper (Py.join "_" (p :: ps)) = false).
  { unfold Py.isupper. rewrite existsb_false; [done|].
    by apply joined_no_upper. }
  rewrite Hup. cbn [andb].
  rewrite split_identifier_joined by done.
  rewrite capitalize_parts_nonempty by done. done.
Qed.

Lemma camel_case_of_segments_witness :
  camel_case (PStr "get_max_health") = Ok (PStr "GetMaxHealth").
Proof.
  apply (camel_case_of_segments ["get"; "max"; "health"]).
  - discriminate.
  - repeat constructor; discriminate.
  - repeat constructor.
Defined.

Lemma upper_char_facts c :
  Py.is_upper c = true →
  Py.is_lower c = false ∧ c ≠ "_"%char
  ∧ Py.is_upper (Py.to_lower c) = false ∧ Py.to_lower c ≠ "_"%char.
Proof. destruct c as [[] [] [] [] [] [] [] []]; intros H; try discriminate H; by vm_compute. Qed.

(** A name in capitals goes through [camel_case] as one segment. *)
Lemma camel_case_all_upper s :
  s ≠ "" → Forall (λ c, Py.is_upper c = true) (Py.chars s) →
  camel_case (PStr s) = Ok (PStr (capitalized (Py.lower s))).
Proof.
  intros Hne Hall.
  destruct (Py.chars s) as [|c0 l0] eqn:Hcs.
  { exfalso. apply Hne. by rewrite <- (str_chars s), Hcs. }
  assert (Hnu : Forall (λ c, c ≠ "_"%char) (Py.chars s)).
  { rewrite Hcs. eapply Forall_impl; [exact Hall|]. intros c Hc. by apply upper_char_facts. }
  assert (Hkeep : ∀ x : ascii, x ≠ "_"%char → existsb (Ascii.eqb x) (Py.chars "_") = false).
  { intros x Hx. simpl. destruct (Ascii.eqb_spec x "_"); done. }
  assert (Hstrip : Py.strip "_" s = s).
  { unfold Py.strip. rewrite <- (str_chars s) at 2. f_equal.
    rewrite Hcs in *. inversion Hnu; subst.
    rewrite lstrip_chars_keep by auto.
    destruct (c0 :: l0) as [|c1 l1 _] eqn:Hl using rev_ind; [done|].
    apply rstrip_chars_keep, Hkeep.
    match goal with H : Forall _ (l1 ++ [c1]) |- _ => apply Forall_app in H as [_ H];
      by inversion H end. }
  assert (Hhas : Py.has_char "_" s = false).
  { unfold Py.has_char. apply existsb_false.
    eapply Forall_impl; [exact Hnu|]. intros c Hc. cbv beta.
    destruct (Ascii.eqb_spec "_" c); [by subst|done]. }
  assert (Hisup : Py.isupper s = true).
  { unfold Py.isupper. rewrite Hcs in *. inversion Hall as [|? ? Hc0 _]; subst.
    simpl existsb at 1. rewrite Hc0. cbn [orb andb].
    rewrite existsb_false; [done|].
    eapply Forall_impl; [exact Hall|]. intros c Hc. by apply upper_char_facts. }
  assert (Hlow : Forall (λ c, Py.is_upper c = false ∧ c ≠ "_"%char)
                        (Py.to_lower <$> Py.chars s)).
  { rewrite Forall_fmap, Hcs. eapply Forall_impl; [exact Hall|].
    intros c Hc. simpl. split; by apply upper_char_facts. }
  assert (Hseg : lowercase_segment (Py.lower s)).
  { split.
    - unfold Py.lower. rewrite Hcs. done.
    - unfold Py.lower. by rewrite chars_str. }
  unfold camel_case. cbn [obj_strip mbind result_bind].
  rewrite Hstrip, Hisup, Hhas. cbn [negb andb].
  pose proof (split_identifier_joined (Py.lower s) [] ltac:(by constructor)) as Hsplit.
  simpl Py.join in Hsplit. rewrite Hsplit.
  rewrite capitalize_parts_nonempty; [done|].
  constructor; [by destruct Hseg|constructor].
Qed.

(** C2: [split_identifier] has no case for a name in capitals.  Its loop
    starts a segment at every uppercase letter, also after another uppercase
    letter, where its docstring only speaks of a split between a lowercase
    and an uppercase letter: a name of ASCII capitals is returned letter by
    letter, ["ABC"] as [["a"; "b"; "c"]], and a name of two capitals or more
    is never returned as the single segment of the whole name lowercased. *)
Theorem split_identifier_capitals (s : string) :
  Forall (λ c, Py.is_upper c = true) (Py.chars s) →
  split_identifier s = (λ c, Py.lower (String c "")) <$> Py.chars s
  ∧ (2 ≤ length (Py.chars s) → split_identifier s ≠ [Py.lower s]).
Proof.
  intros Hall.
  assert (Hu : Py.has_char "_" s = false).
  { unfold Py.has_char. apply existsb_false.
    eapply Forall_impl; [exact Hall|]. intros c Hc. cbv beta.
    destruct (Ascii.eqb_spec "_" c) as [<-|]; [done|done]. }
  assert (Hsplit : split_identifier s = (λ c, Py.lower (String c "")) <$> Py.chars s).
  { rewrite split_identifier_no_underscore by done.
    rewrite upper_segments_all_upper by done.
    by rewrite <- list_fmap_compose. }
  split; [done|]. intros Hlen Heq. rewrite Hsplit in Heq.
  apply (f_equal length) in Heq. rewrite length_fmap in Heq. cbn in Heq. lia.
Qed.

Lemma split_identifier_capitals_witness :
  split_identifier "ABC" = ["a"; "b"; "c"]
  ∧ (2 ≤ length (Py.chars "ABC") → split_identifier "ABC" ≠ [Py.lower "ABC"]).
Proof. apply (split_identifier_capitals "ABC"). repeat constructor. Defined.

(** X23: for every ASCII identifier without underscore, names in capitals
    included, [split_identifier] starts a new segment at each uppercase
    letter and lowercases each segment: the segments are those of
    [upper_segments], which concatenate to the name, hold no uppercase
    letter after their first character and, the first one apart, start with
    an uppercase letter.  It is [camel_case] that treats a name in capitals
    as a single segment, lowercasing it before it splits. *)
Theorem split_identifier_at_uppercase (s : string) :
  Py.isascii s = true →
  Py.has_char "_" s = false →
  split_identifier s = (λ seg, Py.lower (Py.str seg)) <$> upper_segments (Py.chars s)
  ∧ concat (upper_segments (Py.chars s)) = Py.chars s
  ∧ Forall (λ seg, ∃ c t, seg = c :: t ∧ Forall (λ x, Py.is_upper x = false) t)
           (upper_segments (Py.chars s))
  ∧ Forall (λ seg, ∃ c t, seg = c :: t ∧ Py.is_upper c = true)
           (tail (upper_segments (Py.chars s)))
  ∧ (Forall (λ c, Py.is_upper c = true) (Py.chars s) → s ≠ "" →
     camel_case (PStr s) = Ok (PStr (capitalized (Py.lower s)))).
Proof.
  intros _ Hu. split; [by apply split_identifier_no_underscore|].
  split; [apply upper_segments_concat|].
  split; [apply upper_segments_tails|].
  split; [apply upper_segments_heads|].
  intros Hall Hne. by apply camel_case_all_upper.
Qed.

(** The guard for a name in capitals is in [camel_case]. *)
Lemma camel_case_capitals :
  camel_case (PStr "ABC") = Ok (PStr "Abc")
  ∧ camel_case (PStr "kMax") = Ok (PStr "KMax")
  ∧ camel_case (PStr "GetMaxHealth") = Ok (PStr "GetMaxHealth").
Proof. repeat split; reflexivity. Qed.

Lemma split_identifier_at_uppercase_witness :
  split_identifier "GetMaxHealth" = ["get"; "max"; "health"].
Proof. exact (proj1 (split_identifier_at_uppercase "GetMaxHealth" eq_refl eq_refl)). Defined.

(** ** Class hierarchy *)

Import DefineRefCountedPass.

Lemma any_base_true pc call l :
  any_base pc call l = Some (Ok true) →
  ∃ d, d ∈ l ∧ d ∈ dom pc ∧ call d = Some (Ok true).
Proof.
  induction l as [|d l IH]; [done|]. simpl.
  destruct (decide (d ∈ dom pc)) as [Hd|Hd].
  - destruct (call d) as [[[]|]|] eqn:Hcall; try done.
    + intros _. exists d. split; [left|done].
    + intros (d' & ? & ? & ?)%IH. exists d'. split; [by right|done].
  - intros (d' & ? & ? & ?)%IH. exists d'. split; [by right|done].
Qed.

Lemma any_base_false pc call l :
  any_base pc call l = Some (Ok false) →
  ∀ d, d ∈ l → d ∈ dom pc → call d = Some (Ok false).
Proof.
  induction l as [|d l IH]; simpl; intros H d' Hin Hdom.
  - by apply elem_of_nil in Hin.
  - apply elem_of_cons in Hin. destruct (decide (d ∈ dom pc)) as [Hd|Hd].
    + destruct (call d) as [[[]|]|] eqn:Hcall; try done.
      destruct Hin as [->|Hin]; [done|]. by apply IH.
    + destruct Hin as [->|Hin]; [done|]. by apply IH.
Qed.

Lemma any_base_returns pc call l :
  (∀ d, d ∈ l → d ∈ dom pc → ∃ r, call d = Some (Ok r)) →
  ∃ r, any_base pc call l = Some (Ok r).
Proof.
  induction l as [|d l IH]; intros H; simpl; [by eauto|].
  assert (Hl : ∀ d', d' ∈ l → d' ∈ dom pc → ∃ r, call d' = Some (Ok r)).
  { intros d' ? ?. apply H; [by right|done]. }
  destruct (decide (d ∈ dom pc)) as [Hd|Hd]; [|by apply IH].
  destruct (H d) as [[] Hr]; [left|done| |]; rewrite Hr; [by eauto|by apply IH].
Qed.

(** *** Iteration orders *)

Lemma iterates_sorted pc : iterates pc (sorted_order pc).
Proof.
  intros c bases Hc. unfold sorted_order. rewrite Hc. cbn [default].
  split; [apply NoDup_elements|]. intros x. apply elem_of_elements.
Qed.

Lemma iterates_reversed pc : iterates pc (reversed_order pc).
Proof.
  intros c bases Hc. destruct (iterates_sorted pc c bases Hc) as [Hnd Hmem].
  unfold reversed_order. split; [by rewrite reverse_Permutation|].
  intros x. by rewrite elem_of_reverse.
Qed.

Lemma iterates_singleton pc order c b :
  iterates pc order → pc !! c = Some {[b]} → order c = [b].
Proof.
  intros Hit Hc. destruct (Hit c _ Hc) as [Hnd Hmem].
  destruct (order c) as [|x l].
  - exfalso. apply (elem_of_nil b). apply Hmem. set_solver.
  - assert (x = b) as ->.
    { apply (elem_of_singleton (C:=gset string)), Hmem. left. }
    destruct l as [|y l]; [done|]. exfalso.
    assert (y = b) as ->.
    { apply (elem_of_singleton (C:=gset string)), Hmem. right. left. }
    apply NoDup_cons in Hnd as [Hnot _]. apply Hnot. left.
Qed.

(** A returned answer is the answer of [reaches], whatever the order. *)
Lemma is_subclass_of_sound order pc b fuel : iterates pc order → ∀ c r,
  is_subclass_of order fuel pc c b = Some (Ok r) → (r = true ↔ reaches pc c b).
Proof.
  intros Hit. induction fuel as [|fuel IH]; intros c r; [done|]. simpl.
  destruct (decide (c = b)) as [->|Hcb].
  { intros [= <-]. split; [intros _; constructor|done]. }
  destruct (pc !! c) as [bases|] eqn:Hc; [|done].
  destruct (Hit c bases Hc) as [_ Hmem].
  destruct (decide (b ∈ bases)) as [Hb|Hb].
  { intros [= <-]. split; [intros _; by eapply reaches_direct|done]. }
  destruct r.
  - intros (d & Hd & Hdom & Hcall)%any_base_true.
    split; [intros _|done]. apply Hmem in Hd.
    eapply reaches_step; [done..|]. by apply (IH d true).
  - intros Hfalse. split; [done|]. intros Hr. exfalso.
    inversion Hr as [|? ? bases' Hc' Hb'|? d ? bases' Hc' Hd Hdom Hdb]; subst.
    + done.
    + rewrite Hc in Hc'. by injection Hc' as ->.
    + rewrite Hc in Hc'. injection Hc' as <-.
      pose proof (any_base_false _ _ _ Hfalse d) as Hcall.
      rewrite Hmem in Hcall. specialize (Hcall Hd Hdom).
      apply IH in Hcall. by apply Hcall in Hdb.
Qed.

(** With the classes of [V] on the call stack, each of them a derived class
    of [c], as many nested calls as there are other keys are enough. *)
Lemma is_subclass_of_returns_stack order pc b :
  iterates pc order → acyclic pc → ∀ fuel (V : gset string) c,
  c ∈ dom pc → c ∉ V → (∀ v, v ∈ V → tc (edge pc) v c) →
  size (dom pc ∖ V) ≤ fuel →
  ∃ r, is_subclass_of order fuel pc c b = Some (Ok r).
Proof.
  intros Hit Hac. induction fuel as [|fuel IH]; intros V c Hc HcV Hpath Hsize.
  - exfalso. assert (dom pc ∖ V ≡ ∅) as Hempty.
    { apply size_empty_inv. lia. } set_solver.
  - simpl. destruct (decide (c = b)); [by eauto|].
    apply elem_of_dom in Hc as Hlook. destruct Hlook as [bases Hbases]. rewrite Hbases.
    destruct (Hit c bases Hbases) as [_ Hmem].
    destruct (decide (b ∈ bases)); [by eauto|].
    apply any_base_returns. intros d Hd Hdom. apply Hmem in Hd.
    assert (Hedge : edge pc c d) by (by exists bases).
    apply (IH (V ∪ {[c]})); [done| | |].
    + intros [Hin|Heq%elem_of_singleton]%elem_of_union.
      * apply (Hac d). eapply tc_r; [by apply Hpath|done].
      * subst d. apply (Hac c). by apply tc_once.
    + intros v [Hin|Heq%elem_of_singleton]%elem_of_union.
      * eapply tc_r; [by apply Hpath|done].
      * subst v. by apply tc_once.
    + assert (size (dom pc ∖ V) = size (dom pc ∖ (V ∪ {[c]})) + 1) as Heq.
      { rewrite <- (size_singleton (C:=gset string) c), <- size_union by set_solver.
        f_equal. apply set_eq. intros x. destruct (decide (x = c)); set_solver. }
      lia.
Qed.

Lemma is_subclass_of_returns order pc c b fuel :
  iterates pc order → acyclic pc → c ∈ dom pc → size pc ≤ fuel →
  ∃ r, is_subclass_of order fuel pc c b = Some (Ok r).
Proof.
  intros Hit Hac Hc Hfuel. apply (is_subclass_of_returns_stack order pc b Hit Hac fuel ∅ c);
    [done|set_solver|set_solver|].
  rewrite difference_empty_L, size_dom. done.
Qed.

Lemma is_subclass_of_not_key order pc c b fuel :
  c ∉ dom pc → c ≠ b → is_subclass_of order (S fuel) pc c b = Some (Raise KeyError).
Proof.
  intros Hc Hcb. simpl. destruct (decide (c = b)); [done|].
  apply not_elem_of_dom in Hc. by rewrite Hc.
Qed.

(** An order on the classes that every edge respects rules out cycles. *)
Lemma acyclic_ranked pc (rank : string → nat) :
  (∀ c d, edge pc c d → rank d < rank c) → acyclic pc.
Proof.
  intros Hrank c Hcyc.
  assert (∀ x y, tc (edge pc) x y → rank y < rank x) as Hlt.
  { induction 1 as [x y Hxy|x y z Hxy _ IH]; [by apply Hrank|].
    apply Hrank in Hxy. lia. }
  apply Hlt in Hcyc. lia.
Qed.

(** *** The recorded hierarchy A <- B <- C *)

Lemma hierarchy_abc_map :
  od_map hierarchy_abc = <["C" := {["B"]}]> (<["B" := {["A"]}]> ∅).
Proof. vm_compute. reflexivity. Qed.

Lemma hierarchy_abc_keys : od_keys hierarchy_abc = ["B"; "C"].
Proof. reflexivity. Qed.

Lemma hierarchy_abc_acyclic : acyclic (od_map hierarchy_abc).
Proof.
  apply (acyclic_ranked _ (λ c, if decide (c = "C") then 2 else if decide (c = "B") then 1 else 0)).
  intros c d (bases & Hc & Hd & Hdom). rewrite hierarchy_abc_map in *.
  apply elem_of_dom in Hdom as [? Hdom].
  destruct (decide (c = "C")) as [->|?]; [|destruct (decide (c = "B")) as [->|?]];
    simplify_map_eq; apply elem_of_singleton in Hd as ->; simplify_map_eq; repeat case_decide; done || lia.
Qed.

Lemma hierarchy_cyclic_diverges order fuel :
  iterates hierarchy_cyclic order →
  is_subclass_of order fuel hierarchy_cyclic "A" "X" = None
  ∧ is_subclass_of order fuel hierarchy_cyclic "B" "X" = None.
Proof.
  intros Hit.
  assert (Ha : order "A" = ["B"]).
  { apply (iterates_singleton hierarchy_cyclic); [done|]. by unfold hierarchy_cyclic; simplify_map_eq. }
  assert (Hb : order "B" = ["A"]).
  { apply (iterates_singleton hierarchy_cyclic); [done|]. by unfold hierarchy_cyclic; simplify_map_eq. }
  induction fuel as [|fuel [IHa IHb]]; [done|].
  unfold hierarchy_cyclic in *. split; simpl.
  - rewrite lookup_insert_eq.
    rewrite decide_False by set_solver. rewrite Ha. simpl.
    rewrite decide_True by set_solver. by rewrite IHb.
  - rewrite lookup_insert_ne by done. rewrite lookup_insert_eq.
    rewrite decide_False by set_solver. rewrite Hb. simpl.
    rewrite decide_True by set_solver. by rewrite IHa.
Qed.

Lemma reaches_unfold pc c b :
  reaches pc c b ↔
  c = b ∨ ∃ bases, pc !! c = Some bases ∧
                   (b ∈ bases ∨ ∃ d, d ∈ bases ∧ d ∈ dom pc ∧ reaches pc d b).
Proof.
  split.
  - inversion 1; subst; [by left|right; eexists; split; [done|by left]|].
    right. eexists. split; [done|]. right. by eauto.
  - intros [->|(bases & Hc & [Hb|(d & Hd & Hdom & Hr)])].
    + constructor.
    + by eapply reaches_direct.
    + by eapply reaches_step.
Qed.

Lemma bool_eq_of_iff (r1 r2 : bool) (P : Prop) :
  (r1 = true ↔ P) → (r2 = true ↔ P) → r1 = r2.
Proof. destruct r1, r2; intuition congruence. Qed.

(** ** Class hierarchy: the claims *)

(** C3, as stated, fails on the root: A has no base specifier, so the pass
    records no key for it, and [is_subclass_of(A, C)] looks A up and raises
    [KeyError] instead of returning false, whatever the recursion depth and
    the order of iteration. *)
Lemma is_subclass_of_root_counterexample :
  od_map hierarchy_abc !! "A" = None
  ∧ ∀ order fuel,
      is_subclass_of order (S fuel) (od_map hierarchy_abc) "A" "C" = Some (Raise KeyError).
Proof.
  split; [by rewrite hierarchy_abc_map|].
  intros order fuel. apply is_subclass_of_not_key; [|done].
  rewrite hierarchy_abc_map. set_solver.
Qed.

(** C3 (amended): for a class recorded as a key of an acyclic hierarchy map,
    [is_subclass_of(class, base)] returns, and returns true iff the class
    equals the base, or the base is a direct member of the recorded base set
    of the class, or some recorded direct base that is a key itself
    transitively reaches the base; a class that is no key and differs from
    the base raises [KeyError].  This holds in whatever order the sets of
    bases are iterated.  For the recorded hierarchy A <- B <- C the queries
    (C, A) and (B, A) return true, and the query (A, C) on the root raises
    [KeyError]. *)
Theorem is_subclass_of_reaches (order : string → list string)
    (pc : gmap string (gset string)) (c b : string) (fuel : nat) :
  iterates pc order → acyclic pc → c ∈ dom pc → size pc ≤ fuel →
  (∃ r, is_subclass_of order fuel pc c b = Some (Ok r) ∧ (r = true ↔ reaches pc c b))
  ∧ (reaches pc c b ↔
     c = b ∨ ∃ bases, pc !! c = Some bases ∧
                      (b ∈ bases ∨ ∃ d, d ∈ bases ∧ d ∈ dom pc ∧ reaches pc d b))
  ∧ (∀ a, a ∉ dom pc → a ≠ b →
          is_subclass_of order (S fuel) pc a b = Some (Raise KeyError)).
Proof.
  intros Hit Hac Hc Hfuel. split; [|split].
  - destruct (is_subclass_of_returns order pc c b fuel Hit Hac Hc Hfuel) as [r Hr].
    exists r. split; [done|]. by eapply is_subclass_of_sound.
  - apply reaches_unfold.
  - intros a Ha Hab. by apply is_subclass_of_not_key.
Qed.

Lemma is_subclass_of_reaches_witness :
  (∃ r, is_subclass_of (sorted_order (od_map hierarchy_abc)) 3 (od_map hierarchy_abc) "C" "A"
        = Some (Ok r)
        ∧ (r = true ↔ reaches (od_map hierarchy_abc) "C" "A"))
  ∧ (reaches (od_map hierarchy_abc) "C" "A" ↔
     "C" = "A" ∨ ∃ bases, od_map hierarchy_abc !! "C" = Some bases ∧
        ("A" ∈ bases ∨ ∃ d, d ∈ bases ∧ d ∈ dom (od_map hierarchy_abc)
                            ∧ reaches (od_map hierarchy_abc) d "A"))
  ∧ (∀ a, a ∉ dom (od_map hierarchy_abc) → a ≠ "A" →
       is_subclass_of (sorted_order (od_map hierarchy_abc)) 4 (od_map hierarchy_abc) a "A"
       = Some (Raise KeyError)).
Proof.
  apply (is_subclass_of_reaches (sorted_order (od_map hierarchy_abc))
           (od_map hierarchy_abc) "C" "A" 3).
  - apply iterates_sorted.
  - apply hierarchy_abc_acyclic.
  - rewrite hierarchy_abc_map. set_solver.
  - vm_compute. lia.
Defined.

Lemma hierarchy_abc_queries :
  is_subclass_of (sorted_order (od_map hierarchy_abc)) 3 (od_map hierarchy_abc) "C" "A"
  = Some (Ok true)
  ∧ is_subclass_of (sorted_order (od_map hierarchy_abc)) 3 (od_map hierarchy_abc) "B" "A"
    = Some (Ok true)
  ∧ is_subclass_of (sorted_order (od_map hierarchy_abc)) 3 (od_map hierarchy_abc) "A" "C"
    = Some (Raise KeyError).
Proof. by vm_compute. Qed.

(** C10: for every acyclic class-hierarchy map and every class recorded as
    a key of it, [is_subclass_of(class, base)] returns for every base, within
    as many nested calls as the map has keys, in whatever order the sets of
    bases are iterated.  The walk keeps no set of visited classes: on a map
    with a cycle (A and B recorded as bases of each other) the query (A, X)
    never returns, whatever the depth allowed. *)
Theorem is_subclass_of_terminates (order : string → list string)
    (pc : gmap string (gset string)) (c b : string) :
  iterates pc order → acyclic pc → c ∈ dom pc →
  (∃ r, ∀ fuel, size pc ≤ fuel → is_subclass_of order fuel pc c b = Some (Ok r))
  ∧ ("A" ∈ dom hierarchy_cyclic
     ∧ ¬ acyclic hierarchy_cyclic
     ∧ ∀ order', iterates hierarchy_cyclic order' →
         ∀ fuel, is_subclass_of order' fuel hierarchy_cyclic "A" "X" = None).
Proof.
  intros Hit Hac Hc. split.
  - destruct (is_subclass_of_returns order pc c b (size pc) Hit Hac Hc (le_n _)) as [r0 Hr0].
    exists r0. intros fuel Hfuel.
    destruct (is_subclass_of_returns order pc c b fuel Hit Hac Hc Hfuel) as [r Hr].
    rewrite Hr. do 2 f_equal.
    eapply bool_eq_of_iff; by eapply is_subclass_of_sound.
  - split; [unfold hierarchy_cyclic; set_solver|]. split.
    + intros Hcyc. apply (Hcyc "A"). unfold hierarchy_cyclic.
      apply tc_l with "B"; [|apply tc_once].
      * exists {["B"]}. split; [by simplify_map_eq|]. set_solver.
      * exists {["A"]}. split; [by simplify_map_eq|]. set_solver.
    + intros order' Hit' fuel. by apply hierarchy_cyclic_diverges.
Qed.

Lemma is_subclass_of_terminates_witness :
  (∃ r, ∀ fuel, size (od_map hierarchy_abc) ≤ fuel →
        is_subclass_of (sorted_order (od_map hierarchy_abc)) fuel (od_map hierarchy_abc)
                       "C" "Urho3D::RefCounted" = Some (Ok r))
  ∧ ("A" ∈ dom hierarchy_cyclic
     ∧ ¬ acyclic hierarchy_cyclic
     ∧ ∀ order', iterates hierarchy_cyclic order' →
         ∀ fuel, is_subclass_of order' fuel hierarchy_cyclic "A" "X" = None).
Proof.
  apply (is_subclass_of_terminates (sorted_order (od_map hierarchy_abc))
           (od_map hierarchy_abc) "C" "Urho3D::RefCounted").
  - apply iterates_sorted.
  - apply hierarchy_abc_acyclic.
  - rewrite hierarchy_abc_map. set_solver.
Defined.

(** ** Constant extraction: the claims *)

(** C4, as stated, fails on both declarations.  [camel_case] keeps the
    leading k as a segment of its own, so the constant is emitted as [KMax],
    not [Max].  And [kName], a pointer to [const char] that is not const
    itself, is skipped by the test for constness of line 162: nothing is
    emitted for it and it is not excluded. *)
Lemma constants_kMax_counterexample :
  camel_case_str "kMax" = Ok "KMax"
  ∧ DefineConstantsPass.cs_code
      (DefineConstantsPass.visit re_sub_unused decl_kMax ENTER
         (DefineConstantsPass.State (Some (File "_constants.i" "")) [])).2
    = ["  public const int KMax = 5;" +:+ nl]
  ∧ DefineConstantsPass.cs_code
      (DefineConstantsPass.visit re_sub_unused decl_kMax ENTER
         (DefineConstantsPass.State (Some (File "_constants.i" "")) [])).2
    ≠ ["  public const int Max = 5;" +:+ nl]
  ∧ DefineConstantsPass.visit re_sub_unused decl_kName ENTER
      (DefineConstantsPass.State (Some (File "_constants.i" "")) [])
    = (Ok false, DefineConstantsPass.State (Some (File "_constants.i" "")) []).
Proof. split; [reflexivity|]. split; [reflexivity|]. split; [discriminate | reflexivity]. Qed.

(** C4 (amended): for the namespace-scope declaration
    [static const int kMax = 5;] the pass emits a native typed constant
    whose idiomatic (camel-cased) name is [KMax], with value 5, and the
    original symbol is marked excluded from direct binding by an [%ignore]
    line.  Nothing else is written, whatever the pass has written or
    collected before. *)
Theorem constants_visit_literals (re_sub : string → string → string → string)
    (st : DefineConstantsPass.state) (f : file) :
  DefineConstantsPass.fp st = Some f →
  DefineConstantsPass.visit re_sub decl_kMax ENTER st
  = (Ok true,
     DefineConstantsPass.State
       (Some (fwrite ("%ignore Urho3D::kMax;" +:+ nl) f))
       (DefineConstantsPass.cs_code st ++ ["  public const int KMax = 5;" +:+ nl])).
Proof.
  intros Hfp. destruct st as [fp cs]. simpl in Hfp. subst fp.
  reflexivity.
Qed.

Lemma constants_visit_literals_witness :
  DefineConstantsPass.fp
    (DefineConstantsPass.on_begin "out" (DefineConstantsPass.State None []) ∅).1.2
  = Some (File "out/_constants.i" "")
  ∧ DefineConstantsPass.visit re_sub_unused decl_kMax ENTER
      (DefineConstantsPass.on_begin "out" (DefineConstantsPass.State None []) ∅).1.2
    = (Ok true,
       DefineConstantsPass.State
         (Some (File "out/_constants.i" ("%ignore Urho3D::kMax;" +:+ nl)))
         ["  public const int KMax = 5;" +:+ nl]).
Proof.
  split; [reflexivity|].
  exact (constants_visit_literals re_sub_unused
           (DefineConstantsPass.on_begin "out" (DefineConstantsPass.State None []) ∅).1.2
           (File "out/_constants.i" "") eq_refl).
Defined.

(** ** Property synthesis: the claims *)





Lemma foldl_snoc {A} (acc l : list A) : foldl (λ acc x, acc ++ [x]) acc l = acc ++ l.
Proof.
  revert acc. induction l as [|x l IH]; intros acc; simpl.
  - by rewrite app_nil_r.
  - rewrite IH. by rewrite <- app_assoc.
Qed.

Lemma find_children_all n : find_children (λ _, true) n = children n.
Proof.
  unfold find_children. induction (children n) as [|x l IH]; [done|].
  rewrite filter_cons_True by done. by rewrite IH.
Qed.

(** What an accepted getter adds: the property is typed with the cleaned
    canonical spelling of the return type, and it has a [set] accessor
    exactly when [pick_setter] finds a setter. *)
Lemma accepted_getter_emission (re_sub : string → string → string → string)
    (p getter : node) (st : DefinePropertiesPass.state) (rt : ctype)
    (props attribs : list string) :
  kind (cur getter) = CXX_METHOD →
  access (cur getter) = PUBLIC →
  is_static_method (cur getter) = false →
  Py.startswith "Get" (spelling (cur getter)) = true →
  is_virtual_method (cur getter) = false →
  arguments (cur getter) = [] →
  result_type (cur getter) = Some rt →
  t_spelling rt ≠ "void" →
  DefinePropertiesPass.name_taken (Py.slice_from 3 (spelling (cur getter))) (children p)
    = Ok false →
  length (find_children (λ c, String.eqb (spelling c) (spelling (cur getter))) p) ≤ 1 →
  DefinePropertiesPass.properties st = Some props →
  DefinePropertiesPass.method_attribs st = Some attribs →
  let attribute_name := Py.slice_from 3 (spelling (cur getter)) in
  let setter := DefinePropertiesPass.pick_setter (cur getter) attribute_name p in
  DefinePropertiesPass.visit re_sub (Some p) getter ENTER st
  = (Ok (Some true),
     DefinePropertiesPass.State (DefinePropertiesPass.fp st)
       (Some (props
              ++ ["  public $typemap(cstype, " +:+ DefinePropertiesPass.clean_cstype re_sub rt
                    +:+ ") " +:+ attribute_name +:+ " {";
                  "    get { return " +:+ spelling (cur getter) +:+ "(); }"]
              ++ match setter with
                 | Some s => ["    set { " +:+ spelling (cur s) +:+ "(value); }"]
                 | None => []
                 end
              ++ ["  }"]))
       (Some (attribs
              ++ ["%csmethodmodifiers " +:+ fully_qualified_name (cur getter) +:+ " " +:+ dq
                    +:+ "private" +:+ dq +:+ ";"]
              ++ match setter with
                 | Some s => ["%csmethodmodifiers " +:+ fully_qualified_name (cur s) +:+ " "
                                +:+ dq +:+ "private" +:+ dq +:+ ";"]
                 | None => []
                 end))
       (DefinePropertiesPass.stdout st)).
Proof.
  intros Hk Ha Hs Hget Hv Hargs Hrt Hvoid Htaken Hover Hprops Hattribs attribute_name setter.
  subst attribute_name setter.
  unfold DefinePropertiesPass.visit. rewrite Hk, Ha, Hs, Hget.
  rewrite (bool_decide_eq_false_2 (CXX_METHOD = CLASS_DECL)) by done.
  rewrite !bool_decide_eq_true_2 by done. cbn [negb].
  unfold DefinePropertiesPass.visit_method. rewrite Hv, Hargs, Hrt. cbn [length].
  rewrite bool_decide_eq_true_2 by done. cbn [negb].
  destruct (String.eqb_spec (t_spelling rt) "void") as [?|_]; [done|].
  rewrite find_children_all.
  destruct (Nat.ltb_spec 1 (length (find_children
              (λ c, String.eqb (spelling c) (spelling (cur getter))) p))) as [?|_]; [lia|].
  unfold mbind, M_bind, lift, mret, M_ret. rewrite Htaken.
  destruct st as [fp ps ms out]. simpl in Hprops, Hattribs. subst ps ms.
  rewrite <- (foldl_snoc props), <- (foldl_snoc attribs).
  destruct (DefinePropertiesPass.pick_setter _ _ _) as [s|]; reflexivity.
Qed.

(** C6: a public, non-static method named with prefix Get or Is that is
    virtual (whatever its parameters) gets no property: on entering it the
    pass records exactly one diagnostic, leaves the accumulated properties,
    the method attributes and the output file as they are, and answers
    normally (no exception, only the subtree of the method is skipped); on
    leaving it the pass changes nothing.  The traversal goes on. *)
Theorem virtual_getter_rejected (re_sub : string → string → string → string)
    (parent : option node) (getter : node) (st : DefinePropertiesPass.state) :
  kind (cur getter) = CXX_METHOD →
  access (cur getter) = PUBLIC →
  is_static_method (cur getter) = false →
  Py.startswith "Get" (spelling (cur getter)) = true
    ∨ Py.startswith "Is" (spelling (cur getter)) = true →
  is_virtual_method (cur getter) = true →
  DefinePropertiesPass.visit re_sub parent getter ENTER st
  = (Ok (Some false),
     DefinePropertiesPass.State
       (DefinePropertiesPass.fp st) (DefinePropertiesPass.properties st)
       (DefinePropertiesPass.method_attribs st)
       (DefinePropertiesPass.stdout st
          ++ ["Ignore " +:+ fully_qualified_name (cur getter) +:+ ": virtual"]))
  ∧ DefinePropertiesPass.visit re_sub parent getter LEAVE st = (Ok None, st).
Proof.
  intros Hk Ha Hs Hname Hv. split.
  - unfold DefinePropertiesPass.visit. rewrite Hk, Ha, Hs. cbn.
    destruct (Py.startswith "Get" (spelling (cur getter))) eqn:Hget.
    + unfold DefinePropertiesPass.visit_method. rewrite Hv. reflexivity.
    + destruct Hname as [?|His]; [done|]. rewrite His.
      unfold DefinePropertiesPass.visit_method. rewrite Hv. reflexivity.
  - unfold DefinePropertiesPass.visit. rewrite Hk. reflexivity.
Qed.

Lemma virtual_getter_rejected_witness :
  DefinePropertiesPass.visit re_sub_unused (Some class_Actor) getter_virtual ENTER
    (DefinePropertiesPass.State None (Some []) (Some []) [])
  = (Ok (Some false),
     DefinePropertiesPass.State None (Some []) (Some [])
       ["Ignore Urho3D::Actor::GetHealth: virtual"])
  ∧ DefinePropertiesPass.visit re_sub_unused (Some class_Actor) getter_virtual LEAVE
      (DefinePropertiesPass.State None (Some []) (Some []) [])
    = (Ok None, DefinePropertiesPass.State None (Some []) (Some []) []).
Proof.
  apply (virtual_getter_rejected re_sub_unused (Some class_Actor) getter_virtual
           (DefinePropertiesPass.State None (Some []) (Some []) []));
    first [reflexivity | left; reflexivity].
Defined.

(** ** Event metadata: the claims *)

Lemma length_append s1 s2 : String.length (s1 +:+ s2) = String.length s1 + String.length s2.
Proof.
  induction s1 as [|c s1 IH]; [done|].
  change (S (String.length (s1 +:+ s2)) = S (String.length s1 + String.length s2)).
  by f_equal.
Qed.

Lemma append_assoc s1 s2 s3 : (s1 +:+ s2) +:+ s3 = s1 +:+ (s2 +:+ s3).
Proof.
  induction s1 as [|c s1 IH]; [done|].
  change (String c ((s1 +:+ s2) +:+ s3) = String c (s1 +:+ s2 +:+ s3)). by f_equal.
Qed.

Lemma append_nil_r s : s +:+ "" = s.
Proof.
  induction s as [|c s IH]; [done|].
  change (String c (s +:+ "") = String c s). by f_equal.
Qed.

Lemma events_fp_write f st text data :
  events_added f st text →
  DefineEventsPass.fp_write data st
  = (Ok (), DefineEventsPass.State (Some (File (f_name f) (f_buf f +:+ (text +:+ data))))).
Proof.
  unfold events_added, DefineEventsPass.fp_write. intros ->.
  unfold fwrite. simpl. by rewrite append_assoc.
Qed.

Lemma events_write_params l : ∀ f st text,
  events_added f st text →
  ∃ more, events_added f (DefineEventsPass.write_params l st).2 (text +:+ more).
Proof.
  induction l as [|param l IH]; intros f st text Hst.
  - exists "". simpl. by rewrite append_nil_r.
  - simpl. destruct (DefineEventsPass.param_name_group _) as [param_name|].
    + unfold mbind, M_bind, lift.
      destruct (camel_case_str param_name) as [var_name|e].
      * match goal with
        | |- context [DefineEventsPass.fp_write ?d st] =>
            rewrite (events_fp_write f st text d Hst); cbv beta iota;
            destruct (IH f (DefineEventsPass.State
                              (Some (File (f_name f) (f_buf f +:+ (text +:+ d)))))
                        (text +:+ d) eq_refl) as [more Hmore];
            exists (d +:+ more); rewrite <- (append_assoc text d more); exact Hmore
        end.
      * exists "". simpl. by rewrite append_nil_r.
    + exists "". simpl. by rewrite append_nil_r.
Qed.

Lemma events_added_changed f st header more :
  header ≠ "" → events_added f st (header +:+ more) → DefineEventsPass.fp st ≠ Some f.
Proof.
  intros Hne Hadd Heq. rewrite Hadd in Heq. destruct f as [name buf].
  injection Heq as Heq. apply (f_equal String.length) in Heq.
  rewrite !length_append in Heq. destruct header; [done|]. simpl in Heq. lia.
Qed.

(** What [visit] does to a node that matches the pattern: the header is
    written first, the parameters and the closing lines follow. *)
Lemma events_visit_match p n action i next_node f st :
  kind (cur n) = VAR_DECL →
  t_spelling (type (cur n)) = "const Urho3D::StringHash" →
  Py.startswith "E_" (spelling (cur n)) = true →
  DefineEventsPass.index_of n (children p) = Some i →
  children p !! (i + 1)%nat = Some next_node →
  kind (cur next_node) = NAMESPACE →
  Py.lower (spelling (cur next_node))
    = Py.lower (DefineEventsPass.remove_underscores (Py.slice_from 2 (spelling (cur n)))) →
  DefineEventsPass.fp st = Some f →
  ∃ more, events_added f (DefineEventsPass.visit (Some p) n action st).2
            (event_header (spelling (cur next_node)) +:+ more).
Proof.
  intros Hk Ht Hp Hi Hnext Hns Hname Hfp.
  unfold DefineEventsPass.visit. rewrite Hk, Ht, Hp. cbn [bool_decide decide_rel andb].
  rewrite bool_decide_eq_true_2 by done. rewrite String.eqb_refl. cbn [andb].
  rewrite Hi, Hnext. rewrite (bool_decide_eq_true_2 _ Hns).
  unfold DefineEventsPass.names_match. rewrite Hname, String.eqb_refl. cbn [andb].
  unfold mbind, M_bind.
  assert (Hst : events_added f st "").
  { unfold events_added. by rewrite append_nil_r, Hfp; destruct f. }
  match goal with
  | |- context [DefineEventsPass.fp_write ?d st] =>
      rewrite (events_fp_write f st "" d Hst); cbv beta iota;
      change (String.append "" d) with (event_header (spelling (cur next_node)))
  end.
  set (header := event_header (spelling (cur next_node))).
  destruct (events_write_params (children next_node) f
              (DefineEventsPass.State (Some (File (f_name f) (f_buf f +:+ header))))
              header eq_refl) as [more Hmore].
  destruct (DefineEventsPass.write_params _ _) as [[[]|e] st'] eqn:Hw; simpl in Hmore.
  - match goal with
    | |- context [DefineEventsPass.fp_write ?d st'] =>
        rewrite (events_fp_write f st' (header +:+ more) d Hmore); cbv beta iota;
        exists (more +:+ d)
    end.
    unfold events_added. simpl. by rewrite append_assoc.
  - exists more. exact Hmore.
Qed.

(** What [visit] does otherwise: nothing is written. *)
Lemma events_visit_cases parent n action st :
  event_pattern parent n ∨ (DefineEventsPass.visit parent n action st).2 = st.
Proof.
  unfold DefineEventsPass.visit.
  destruct (decide (kind (cur n) = VAR_DECL)) as [Hk|Hk];
    [rewrite (bool_decide_eq_true_2 _ Hk)|rewrite (bool_decide_eq_false_2 _ Hk); by right].
  destruct (String.eqb_spec (t_spelling (type (cur n))) "const Urho3D::StringHash") as [Ht|Ht];
    [|by right].
  destruct (Py.startswith "E_" (spelling (cur n))) eqn:Hp; [|by right]. cbn [andb].
  destruct parent as [p|]; [|by right].
  destruct (DefineEventsPass.index_of n (children p)) as [i|] eqn:Hi; [|by right].
  destruct (children p !! (i + 1)%nat) as [next_node|] eqn:Hnext; [|by right].
  destruct (decide (kind (cur next_node) = NAMESPACE)) as [Hns|Hns];
    [rewrite (bool_decide_eq_true_2 _ Hns)|rewrite (bool_decide_eq_false_2 _ Hns); by right].
  unfold DefineEventsPass.names_match.
  destruct (String.eqb_spec (Py.lower (spelling (cur next_node)))
              (Py.lower (DefineEventsPass.remove_underscores
                           (Py.slice_from 2 (spelling (cur n)))))) as [Hname|Hname];
    [|by right].
  left. repeat (split; [done|]). by exists p, i, next_node.
Qed.

Lemma event_header_nonempty name : event_header name ≠ "".
Proof. done. Qed.

(** C7, as stated, fails: the name of the namespace is lowercased but its
    underscores are kept.  [E_SCENE_UPDATE] followed by
    [namespace Scene_Update] meets the stated condition (both sides reduce
    to [sceneupdate]) and no event descriptor is emitted. *)
Lemma event_underscore_counterexample :
  children events_Scene_Update !! 1
    = Some (event_namespace "Scene_Update" 140 ["URHO3D_PARAM(P_TIMESTEP, TimeStep);"])
  ∧ Py.lower (DefineEventsPass.remove_underscores "Scene_Update")
    = Py.lower (DefineEventsPass.remove_underscores (Py.slice_from 2 "E_SCENE_UPDATE"))
  ∧ DefineEventsPass.visit (Some events_Scene_Update) (event_constant "E_SCENE_UPDATE" 100)
      ENTER (DefineEventsPass.State (Some (File "_events.i" "")))
    = (Ok true, DefineEventsPass.State (Some (File "_events.i" ""))).
Proof. repeat split; reflexivity. Qed.

(** C7 (amended): the event pass writes to its artifact for a node if and
    only if the node is a constant of the hashed-string type whose name has
    the reserved event prefix and whose next sibling declaration is a
    namespace whose name, lowercased (its underscores are kept), equals the
    name of the constant with the prefix stripped, underscores stripped, and
    lowercased; what it then writes starts with the header of the event
    descriptor named after the namespace. *)
Theorem event_recognized (parent : option node) (n : node) (action : AstAction)
    (st : DefineEventsPass.state) (f : file) :
  DefineEventsPass.fp st = Some f →
  (DefineEventsPass.fp (DefineEventsPass.visit parent n action st).2 ≠ Some f
   ↔ event_pattern parent n)
  ∧ (∀ p i next_node,
       parent = Some p → DefineEventsPass.index_of n (children p) = Some i →
       children p !! (i + 1)%nat = Some next_node →
       event_pattern parent n →
       ∃ more, events_added f (DefineEventsPass.visit parent n action st).2
                 (event_header (spelling (cur next_node)) +:+ more)).
Proof.
  intros Hfp.
  assert (Hmatch : ∀ p i next_node,
            parent = Some p → DefineEventsPass.index_of n (children p) = Some i →
            children p !! (i + 1)%nat = Some next_node →
            event_pattern parent n →
            ∃ more, events_added f (DefineEventsPass.visit parent n action st).2
                      (event_header (spelling (cur next_node)) +:+ more)).
  { intros p i next_node -> Hi Hnext (Hk & Ht & Hp & p' & i' & next' & Hp' & Hi' & Hnext' & Hns & Hname).
    injection Hp' as <-. rewrite Hi in Hi'. injection Hi' as <-.
    rewrite Hnext in Hnext'. injection Hnext' as <-.
    by eapply events_visit_match. }
  split; [|exact Hmatch]. split.
  - intros Hchanged. destruct (events_visit_cases parent n action st) as [?|Hsame]; [done|].
    rewrite Hsame in Hchanged. done.
  - intros Hpat. pose proof Hpat as (_ & _ & _ & p & i & next_node & Hp' & Hi & Hnext & _).
    destruct (Hmatch p i next_node Hp' Hi Hnext Hpat) as [more Hmore].
    eapply events_added_changed; [apply event_header_nonempty|exact Hmore].
Qed.

Lemma event_recognized_witness :
  DefineEventsPass.fp (DefineEventsPass.visit (Some events_SceneUpdate)
                         (event_constant "E_SCENEUPDATE" 100) ENTER
                         (DefineEventsPass.State (Some (File "_events.i" "")))).2
    ≠ Some (File "_events.i" "")
  ↔ event_pattern (Some events_SceneUpdate) (event_constant "E_SCENEUPDATE" 100).
Proof.
  exact (proj1 (event_recognized (Some events_SceneUpdate) (event_constant "E_SCENEUPDATE" 100)
                  ENTER (DefineEventsPass.State (Some (File "_events.i" "")))
                  (File "_events.i" "") eq_refl)).
Defined.

Lemma event_SceneUpdate_recognized :
  event_pattern (Some events_SceneUpdate) (event_constant "E_SCENEUPDATE" 100).
Proof.
  repeat (split; [reflexivity|]).
  exists events_SceneUpdate, 0,
         (event_namespace "SceneUpdate" 140 ["URHO3D_PARAM(P_TIMESTEP, TimeStep);"]).
  repeat split; reflexivity.
Qed.

(** The members after a rejected getter are still visited: here the second
    getter gets its read-only property, and one diagnostic is recorded. *)
Lemma virtual_getter_then_plain :
  walk_properties re_sub_unused class_virtual_then_plain
    (DefinePropertiesPass.State (Some (File "out/_properties_scene.i" "")) None None [])
  = (Ok (),
     DefinePropertiesPass.State
       (Some (File "out/_properties_scene.i"
                ("%typemap(cscode) Urho3D::Actor %{" +:+ nl +:+
                 "  public $typemap(cstype, int) Mana {" +:+ nl +:+
                 "    get { return GetMana(); }" +:+ nl +:+
                 "  }" +:+ nl +:+
                 "%}" +:+ nl +:+
                 "%csmethodmodifiers Urho3D::Actor::GetMana " +:+ dq +:+ "private" +:+ dq
                 +:+ ";" +:+ nl)))
       (Some ["  public $typemap(cstype, int) Mana {"; "    get { return GetMana(); }"; "  }"])
       (Some ["%csmethodmodifiers Urho3D::Actor::GetMana " +:+ dq +:+ "private" +:+ dq +:+ ";"])
       ["Ignore Urho3D::Actor::GetHealth: virtual"]).
Proof. reflexivity. Qed.

(** ** Output artifacts: the claims *)

Lemma write_refcounted_name order pc keys : ∀ f,
  f_name (DefineRefCountedPass.write_refcounted order pc keys f).2 = f_name f.
Proof.
  induction keys as [|k keys IH]; intros f; [done|].
  cbn [DefineRefCountedPass.write_refcounted].
  destruct (is_subclass_of _ _ _ _ _) as [[[]|]|]; try done; by rewrite IH.
Qed.

(** C8, as stated, fails for the artifacts with run scope: the enum pass
    creates [_enums.i] in [on_begin] and only closes it in [on_end]; when no
    directive was written the file stays, with no content.  The same holds
    for [_refcounted.i]. *)
Lemma empty_artifact_counterexample :
  (CleanEnumValues.on_end
     (CleanEnumValues.on_begin "out" (CleanEnumValues.State None) ∅).1.2
     (CleanEnumValues.on_begin "out" (CleanEnumValues.State None) ∅).2).2
    !! "out/_enums.i" = Some ""
  ∧ (DefineRefCountedPass.on_end (sorted_order ∅) "out" DefineRefCountedPass.od_empty ∅).2
      !! "out/_refcounted.i" = Some "".
Proof. split; by vm_compute. Qed.

(** C8 (amended): the artifact of the property pass, which has file scope,
    is deleted at [on_file_end] if its content is empty, and kept with its
    content otherwise (other files are not touched).  The artifacts with run
    scope are never deleted: [_enums.i] is left with whatever was written,
    a zero-byte file included, and [_refcounted.i] exists after [on_end].
    Once their [on_end] has run, [_constants.i] and [_events.i] hold their
    enclosing directives: [_constants.i] is what the pass wrote before,
    then the opening line of the module-code block, the collected constants
    and the closing line; [_events.i], for a pass that has appended [text]
    since its [on_begin], is the three opening lines of [on_begin], [text],
    and the two closing lines. *)
Theorem artifact_cleanup (file_path output : string) (order : string → list string)
    (fs : filesystem)
    (props : DefinePropertiesPass.state) (enums : CleanEnumValues.state)
    (consts : DefineConstantsPass.state) (events : DefineEventsPass.state)
    (pc : DefineRefCountedPass.odict) (fp fe fc : file) :
  DefinePropertiesPass.fp props = Some fp →
  CleanEnumValues.fp enums = Some fe →
  DefineConstantsPass.fp consts = Some fc →
  (let fs' := (DefinePropertiesPass.on_file_end file_path props fs).2 in
   (f_buf fp = "" → fs' !! f_name fp = None)
   ∧ (f_buf fp ≠ "" → fs' !! f_name fp = Some (f_buf fp))
   ∧ (∀ other, other ≠ f_name fp → fs' !! other = fs !! other))
  ∧ (CleanEnumValues.on_end enums fs).2 !! f_name fe = Some (f_buf fe)
  ∧ is_Some ((DefineRefCountedPass.on_end order output pc fs).2
               !! path_join output "_refcounted.i")
  ∧ (DefineConstantsPass.on_end consts fs).2 !! f_name fc
    = Some (f_buf fc +:+ "%pragma(csharp) modulecode=%{" +:+ nl
              +:+ Py.join "" (DefineConstantsPass.cs_code consts) +:+ "%}" +:+ nl)
  ∧ (∀ text fs',
       (DefineEventsPass.on_end
          (DefineEventsPass.State
             (fwrite text <$> DefineEventsPass.fp (DefineEventsPass.on_begin output events fs).1.2))
          fs').2 !! path_join output "_events.i"
       = Some ("%pragma(csharp) moduleimports=%{" +:+ nl +:+ "public static class E" +:+ nl
                 +:+ "{" +:+ nl +:+ text +:+ "}" +:+ nl +:+ "%}" +:+ nl)).
Proof.
  intros Hfp Hfe Hfc. repeat split.
  - intros Hempty. unfold DefinePropertiesPass.on_file_end. rewrite Hfp.
    unfold st_size, fclose. rewrite lookup_insert_eq, Hempty. simpl.
    unfold unlink. by rewrite lookup_delete_eq.
  - intros Hne. unfold DefinePropertiesPass.on_file_end. rewrite Hfp.
    unfold st_size, fclose. rewrite lookup_insert_eq. simpl.
    rewrite bool_decide_eq_false_2.
    + simpl. by rewrite lookup_insert_eq.
    + intros [= Hlen]. destruct (f_buf fp); done.
  - intros other Hother. unfold DefinePropertiesPass.on_file_end. rewrite Hfp.
    unfold st_size, fclose, unlink. rewrite lookup_insert_eq. simpl.
    case_bool_decide; simpl.
    + rewrite lookup_delete_ne by done. by rewrite lookup_insert_ne.
    + by rewrite lookup_insert_ne.
  - unfold CleanEnumValues.on_end. rewrite Hfe. simpl. unfold fclose.
    by rewrite lookup_insert_eq.
  - unfold DefineRefCountedPass.on_end, open_w.
    pose proof (write_refcounted_name order (od_map pc) (od_keys pc)
                  (File (path_join output "_refcounted.i") "")) as Hname.
    destruct (DefineRefCountedPass.write_refcounted _ _ _ _) as [[[]|e] f']; simpl in *.
    + unfold fclose. rewrite Hname, lookup_insert_eq. by eexists.
    + rewrite lookup_insert_eq. by eexists.
  - unfold DefineConstantsPass.on_end. rewrite Hfc. simpl. unfold fclose, fwrite. simpl.
    rewrite lookup_insert_eq. f_equal. by rewrite !append_assoc.
  - intros text fs'. unfold DefineEventsPass.on_begin, DefineEventsPass.on_end, open_w.
    cbn [fst snd DefineEventsPass.fp fmap option_fmap option_map].
    unfold fclose, fwrite. cbn [f_name f_buf snd].
    rewrite lookup_insert_eq. reflexivity.
Qed.

Lemma artifact_cleanup_witness :
  let st := DefinePropertiesPass.State (Some (File "out/_properties_core.i" "")) None None [] in
  (DefinePropertiesPass.on_file_begin id "/src" "out" "/src/Core/Object.h"
     (DefinePropertiesPass.State None None None []) ∅).1.2 = st
  ∧ (DefinePropertiesPass.on_file_end "/src/Core/Object.h" st
       (DefinePropertiesPass.on_file_begin id "/src" "out" "/src/Core/Object.h"
          (DefinePropertiesPass.State None None None []) ∅).2).2
    !! "out/_properties_core.i" = None.
Proof.
  intros st. split; [reflexivity|].
  refine (proj1 (proj1 (artifact_cleanup "/src/Core/Object.h" "out" (sorted_order ∅) _ st
                          (CleanEnumValues.State (Some (File "out/_enums.i" "")))
                          (DefineConstantsPass.State (Some (File "out/_constants.i" "")) [])
                          (DefineEventsPass.State None)
                          DefineRefCountedPass.od_empty
                          (File "out/_properties_core.i" "") (File "out/_enums.i" "")
                          (File "out/_constants.i" "")
                          eq_refl eq_refl eq_refl)) eq_refl).
Defined.

(** ** The pipeline: the claims *)

(** C9, as stated, fails in two ways.  For two runs in one interpreter:
    [cs_code] is an attribute of the class that no hook resets, so the pass
    objects of the second run start with the lines of the first, and
    [_constants.i] holds every constant twice.  And for two processes over a
    tree with a cycle among its classes: the order in which a set of bases
    is iterated, which changes with the process, decides whether [on_end] of
    the hierarchy pass finds [Urho3D::RefCounted] or recurses without end. *)
Lemma rerun_counterexample :
  first_run.1.1 = Ok () ∧ second_run.1.1 = Ok ()
  ∧ first_run.2 !! "out/_constants.i"
    = Some ("%ignore Urho3D::kMax;" +:+ nl +:+ "%pragma(csharp) modulecode=%{" +:+ nl +:+
            "  public const int KMax = 5;" +:+ nl +:+ "%}" +:+ nl)
  ∧ second_run.2 !! "out/_constants.i"
    = Some ("%ignore Urho3D::kMax;" +:+ nl +:+ "%pragma(csharp) modulecode=%{" +:+ nl +:+
            "  public const int KMax = 5;" +:+ nl +:+
            "  public const int KMax = 5;" +:+ nl +:+ "%}" +:+ nl)
  ∧ second_run.2 !! "out/_constants.i" ≠ first_run.2 !! "out/_constants.i"
  ∧ (let pc := od_map (Pipeline.recorded re_sub_unused "out" [unit_cycle]) in
     iterates pc (sorted_order pc) ∧ iterates pc (reversed_order pc)
     ∧ (Pipeline.run re_sub_unused (sorted_order pc) "out" [unit_cycle]
                     Pipeline.initial ∅).1.1 = Ok ()
     ∧ (Pipeline.run re_sub_unused (reversed_order pc) "out" [unit_cycle]
                     Pipeline.initial ∅).1.1 = Raise RecursionError).
Proof.
  do 5 (split; [by vm_compute|]).
  split; [apply iterates_sorted|]. split; [apply iterates_reversed|].
  split; by vm_compute.
Qed.

Lemma is_subclass_of_order_irrelevant order order' pc c b fuel :
  iterates pc order → iterates pc order' → acyclic pc → size pc ≤ fuel →
  is_subclass_of order fuel pc c b = is_subclass_of order' fuel pc c b.
Proof.
  intros Hit Hit' Hac Hfuel. destruct (decide (c ∈ dom pc)) as [Hc|Hc].
  - destruct (is_subclass_of_returns order pc c b fuel Hit Hac Hc Hfuel) as [r Hr].
    destruct (is_subclass_of_returns order' pc c b fuel Hit' Hac Hc Hfuel) as [r' Hr'].
    rewrite Hr, Hr'. do 2 f_equal.
    apply (bool_eq_of_iff r r' (reaches pc c b)).
    + by apply (is_subclass_of_sound order pc b fuel Hit).
    + by apply (is_subclass_of_sound order' pc b fuel Hit').
  - destruct fuel as [|fuel]; [done|]. destruct (decide (c = b)) as [->|Hcb].
    + simpl. by destruct (decide (b = b)).
    + by rewrite !is_subclass_of_not_key.
Qed.

Lemma write_refcounted_order_irrelevant order order' pc keys :
  iterates pc order → iterates pc order' → acyclic pc →
  ∀ f, write_refcounted order pc keys f = write_refcounted order' pc keys f.
Proof.
  intros Hit Hit' Hac. induction keys as [|k keys IH]; intros f; [done|].
  cbn [write_refcounted].
  rewrite (is_subclass_of_order_irrelevant order order') by (done || lia).
  destruct (is_subclass_of order' _ _ _ _) as [[[]|]|]; by rewrite ?IH.
Qed.

(** C9 (amended): a run of the pipeline started in a fresh interpreter, over
    a tree whose recorded class hierarchy has no cycle, is a deterministic
    function of the input tree alone: its outcome and its final state depend
    neither on the order in which the process iterates the sets of bases nor
    on the files found in the output directory, and when it completes, every
    output artifact has the same content whatever that order is and whatever
    a previous run left there (the artifacts are opened truncating), so two
    such runs over an unchanged tree produce byte-identical artifacts. *)
Theorem run_fresh_deterministic (re_sub : string → string → string → string)
    (order order' : string → list string)
    (output : string) (units : list node) (fs fs' : filesystem) :
  iterates (od_map (Pipeline.recorded re_sub output units)) order →
  iterates (od_map (Pipeline.recorded re_sub output units)) order' →
  acyclic (od_map (Pipeline.recorded re_sub output units)) →
  (Pipeline.run re_sub order output units Pipeline.initial fs).1
  = (Pipeline.run re_sub order' output units Pipeline.initial fs').1
  ∧ ((Pipeline.run re_sub order output units Pipeline.initial fs).1.1 = Ok () →
     Forall (λ path, (Pipeline.run re_sub order output units Pipeline.initial fs).2 !! path
                     = (Pipeline.run re_sub order' output units Pipeline.initial fs').2 !! path)
            (Pipeline.outputs output)).
Proof.
  unfold Pipeline.recorded, Pipeline.run, DefineConstantsPass.on_begin,
    CleanEnumValues.on_begin, DefineEventsPass.on_begin, open_w. cbv beta iota zeta.
  destruct (Pipeline.walk_units re_sub units _) as [[[]|e] w]; [|done].
  cbn [snd]. intros Hit Hit' Hac.
  unfold DefineConstantsPass.on_end.
  destruct (DefineConstantsPass.fp (Pipeline.constants w)) as [fc|]; [|done].
  cbv beta iota zeta.
  unfold DefineRefCountedPass.on_end, open_w. cbv beta iota zeta.
  cbn [Pipeline.parent_classes Pipeline.set_constants].
  rewrite (write_refcounted_order_irrelevant order order' _ _ Hit Hit' Hac).
  pose proof (write_refcounted_name order'
                (od_map (Pipeline.parent_classes w))
                (od_keys (Pipeline.parent_classes w))
                (File (path_join output "_refcounted.i") "")) as Hname.
  destruct (DefineRefCountedPass.write_refcounted _ _ _ _) as [[[]|e] fr]; [|done].
  unfold CleanEnumValues.on_end. cbn [Pipeline.enums Pipeline.set_constants].
  destruct (CleanEnumValues.fp (Pipeline.enums w)) as [fe|]; [|done].
  unfold DefineEventsPass.on_end. cbn [Pipeline.events Pipeline.set_enums Pipeline.set_constants].
  destruct (DefineEventsPass.fp (Pipeline.events w)) as [fv|]; [|done].
  split; [done|]. intros _. simpl in Hname.
  unfold Pipeline.outputs, fclose. cbn [fmap list_fmap snd]. rewrite Hname.
  repeat constructor; rewrite !lookup_insert; repeat case_decide; done.
Qed.

Lemma run_fresh_deterministic_witness :
  (Pipeline.run re_sub_unused (sorted_order (od_map hierarchy_abc)) "out" [unit_abc]
                Pipeline.initial ∅).1.1 = Ok ()
  ∧ Forall (λ path,
              (Pipeline.run re_sub_unused (sorted_order (od_map hierarchy_abc)) "out" [unit_abc]
                            Pipeline.initial ∅).2 !! path
              = (Pipeline.run re_sub_unused (reversed_order (od_map hierarchy_abc)) "out"
                              [unit_abc] Pipeline.initial first_run.2).2 !! path)
           (Pipeline.outputs "out").
Proof.
  assert (Hrec : Pipeline.recorded re_sub_unused "out" [unit_abc] = hierarchy_abc)
    by (vm_compute; reflexivity).
  split; [by vm_compute|].
  apply (proj2 (run_fresh_deterministic re_sub_unused (sorted_order (od_map hierarchy_abc))
                  (reversed_order (od_map hierarchy_abc)) "out" [unit_abc] ∅ first_run.2
                  ltac:(rewrite Hrec; apply iterates_sorted)
                  ltac:(rewrite Hrec; apply iterates_reversed)
                  ltac:(rewrite Hrec; apply hierarchy_abc_acyclic))).
  by vm_compute.
Defined.

(** * Further properties of the code *)

#[local] Arguments Ascii.eqb : simpl never.

(** ** Identifier normalizer *)

Lemma chars_join_empty l : Py.chars (Py.join "" l) = concat (Py.chars <$> l).
Proof.
  induction l as [|p l IH]; [done|].
  destruct l as [|q l]; [simpl; by rewrite app_nil_r|].
  change (Py.join "" (p :: q :: l)) with (p +:+ "" +:+ Py.join "" (q :: l)).
  rewrite !chars_app, IH. done.
Qed.

Lemma chars_lower s : Py.chars (Py.lower s) = Py.to_lower <$> Py.chars s.
Proof. unfold Py.lower. apply chars_str. Qed.

Lemma split_on_cons sep l : ∃ seg segs, Py.split_on sep l = seg :: segs.
Proof.
  induction l as [|c l (seg & segs & IH)]; [by eexists _, _|].
  simpl. destruct (Ascii.eqb c sep); [by eexists _, _|].
  rewrite IH. by eexists _, _.
Qed.

(** The pieces of [split], with the separator put back between them, are
    the string. *)
Lemma split_on_intercalate sep l seg segs :
  Py.split_on sep l = seg :: segs →
  seg ++ concat ((λ q, sep :: q) <$> segs) = l.
Proof.
  revert seg segs. induction l as [|c l IH]; intros seg segs; simpl.
  - by intros [= <- <-].
  - destruct (Ascii.eqb_spec c sep) as [->|Hc].
    + intros [= <- <-]. destruct (split_on_cons sep l) as (s0 & ss & Heq).
      rewrite Heq. simpl. f_equal. by apply IH.
    + destruct (split_on_cons sep l) as (s0 & ss & Heq). rewrite Heq.
      intros [= <- <-]. simpl. f_equal. by apply IH.
Qed.

Lemma to_lower_underscore : Py.to_lower "_" = "_"%char.
Proof. reflexivity. Qed.

Lemma split_identifier_join_plain (s : string) :
  Py.has_char "_" s = false →
  Py.chars (Py.join "" (split_identifier s)) = Py.to_lower <$> Py.chars s.
Proof.
  intros Hu. rewrite split_identifier_no_underscore by done.
  rewrite chars_join_empty.
  rewrite <- (upper_segments_concat (Py.chars s)) at 2.
  induction (upper_segments (Py.chars s)) as [|seg segs IH]; [done|].
  rewrite !fmap_cons. cbn [concat]. rewrite fmap_app, <- IH.
  by rewrite chars_lower, chars_str.
Qed.

(** X1: on an ASCII name [split_identifier] loses nothing but the case: its
    segments, joined by the separator it split at (an underscore when the
    name has one, nothing otherwise), are the name in lower case. *)
Theorem split_identifier_join (s : string) :
  Py.isascii s = true →
  Py.join (if Py.has_char "_" s then "_" else "") (split_identifier s) = Py.lower s.
Proof.
  intros _.
  rewrite <- (str_chars (Py.join _ _)), <- (str_chars (Py.lower s)). f_equal.
  rewrite chars_lower.
  destruct (Py.has_char "_" s) eqn:Hu; [|by apply split_identifier_join_plain].
  unfold split_identifier. rewrite Hu. unfold Py.split.
  destruct (split_on_cons "_" (Py.chars s)) as (seg & segs & Heq). rewrite Heq.
  rewrite !fmap_cons, chars_join_underscore, chars_lower, chars_str.
  rewrite <- (split_on_intercalate "_" (Py.chars s) seg segs Heq) at 1.
  rewrite fmap_app. f_equal.
  clear Heq. induction segs as [|q segs IH]; [done|].
  rewrite !fmap_cons. cbn [concat]. rewrite fmap_app, fmap_cons, <- IH.
  by rewrite chars_lower, chars_str, to_lower_underscore.
Qed.

Lemma split_identifier_join_witness :
  Py.join "_" (split_identifier "MAX_size") = "max_size"
  ∧ Py.join "" (split_identifier "getMaxSize") = "getmaxsize".
Proof.
  split.
  - exact (split_identifier_join "MAX_size" eq_refl).
  - exact (split_identifier_join "getMaxSize" eq_refl).
Defined.

(** *** What [strip] leaves at the two ends *)

Lemma lstrip_chars_head cs l c r :
  Py.lstrip_chars cs l = c :: r → existsb (Ascii.eqb c) cs = false.
Proof.
  induction l as [|x l IH]; [done|]. simpl.
  destruct (existsb (Ascii.eqb x) cs) eqn:Hx; [done|].
  by intros [= <- _].
Qed.

Lemma lstrip_chars_snoc cs a c :
  existsb (Ascii.eqb c) cs = false →
  Py.lstrip_chars cs (a ++ [c]) = Py.lstrip_chars cs a ++ [c].
Proof.
  intros Hc. induction a as [|x a IH]; simpl; [by rewrite Hc|].
  destruct (existsb (Ascii.eqb x) cs); done.
Qed.

Lemma rstrip_chars_cons cs c r :
  existsb (Ascii.eqb c) cs = false →
  Py.rstrip_chars cs (c :: r) = c :: Py.rstrip_chars cs r.
Proof.
  intros Hc. unfold Py.rstrip_chars. simpl.
  rewrite lstrip_chars_snoc by done. by rewrite rev_app_distr.
Qed.

Lemma rstrip_chars_last cs l r c :
  Py.rstrip_chars cs l = r ++ [c] → existsb (Ascii.eqb c) cs = false.
Proof.
  unfold Py.rstrip_chars. intros H. apply (f_equal (@rev ascii)) in H.
  rewrite rev_involutive, rev_app_distr in H. simpl in H.
  by eapply lstrip_chars_head.
Qed.

Lemma strip_chars_ends cs l :
  (∀ c r, Py.rstrip_chars cs (Py.lstrip_chars cs l) = c :: r →
          existsb (Ascii.eqb c) cs = false)
  ∧ (∀ r c, Py.rstrip_chars cs (Py.lstrip_chars cs l) = r ++ [c] →
            existsb (Ascii.eqb c) cs = false).
Proof.
  split; [|intros r c; apply rstrip_chars_last].
  intros c r. destruct (Py.lstrip_chars cs l) as [|c0 m] eqn:Hm; [done|].
  pose proof (lstrip_chars_head _ _ _ _ Hm) as Hc0.
  rewrite rstrip_chars_cons by done. by intros [= <- _].
Qed.

(** *** Where [split] yields an empty piece *)

Lemma split_on_head_empty l :
  head (Py.split_on "_" l) = Some [] ↔ l = [] ∨ head l = Some "_"%char.
Proof.
  destruct l as [|c l]; simpl; [by split; [left|]|].
  destruct (Ascii.eqb_spec c "_") as [->|Hc]; simpl.
  - split; [by right|done].
  - destruct (split_on_cons "_" l) as (seg & segs & ->). simpl.
    split; [done|]. intros [?|[= ?]]; done.
Qed.

Lemma split_on_tail_empty l :
  [] ∈ tail (Py.split_on "_" l) ↔
  last l = Some "_"%char ∨ Py.contains_chars ["_"; "_"]%char l = true.
Proof.
  induction l as [|c l IH].
  - simpl. split; [by intros ?%elem_of_nil|by intros [?|?]].
  - cbn [Py.split_on].
    assert (Hpre : Py.is_prefix ["_"; "_"]%char (c :: l)
                   = Ascii.eqb "_" c && bool_decide (head l = Some "_"%char)).
    { destruct l as [|d l]; cbn [Py.is_prefix head]; f_equal;
        [by rewrite ?bool_decide_eq_false_2..|].
      rewrite andb_true_r. destruct (Ascii.eqb_spec "_" d) as [<-|Hd].
      - by rewrite bool_decide_eq_true_2.
      - rewrite bool_decide_eq_false_2; [done|]. by intros [= ->]. }
    cbn [Py.contains_chars]. rewrite Hpre.
    destruct (Ascii.eqb_spec c "_") as [->|Hc].
    + cbn [tail]. rewrite (Ascii.eqb_refl "_"). cbn [andb].
      destruct (split_on_cons "_" l) as (seg & segs & Heq).
      assert (Hmem : [] ∈ Py.split_on "_" l ↔
                     head (Py.split_on "_" l) = Some [] ∨ [] ∈ tail (Py.split_on "_" l)).
      { rewrite Heq. simpl. rewrite elem_of_cons. split; intros [?|?]; auto.
        - left. by subst. - left. by simplify_eq. }
      rewrite Hmem, split_on_head_empty, IH. rewrite orb_true_iff, bool_decide_eq_true.
      destruct l as [|d l]; [simpl; by intuition|].
      change (last ("_"%char :: d :: l)) with (last (d :: l)). by intuition.
    + destruct (split_on_cons "_" l) as (seg & segs & Heq). rewrite Heq in IH |- *.
      cbn [tail] in *. rewrite IH.
      destruct (Ascii.eqb_spec "_" c) as [<-|_]; [done|]. cbn [andb orb].
      destruct l as [|d l]; [|done].
      simpl. split; intros [?|?]; simplify_eq.
Qed.

Lemma contains_has_underscore l :
  Py.contains_chars ["_"; "_"]%char l = true → existsb (Ascii.eqb "_") l = true.
Proof.
  induction l as [|c l IH]; simpl; [done|].
  destruct (Ascii.eqb "_" c); [done|]. simpl. exact IH.
Qed.

(** The loop of lines 78-79 fails on an empty segment, and only there. *)
Lemma capitalize_parts_cases l :
  capitalize_parts l = if bool_decide ("" ∈ l) then Raise IndexError
                       else Ok (capitalized <$> l).
Proof.
  induction l as [|p l IH]; [done|].
  cbn [capitalize_parts]. destruct p as [|c p].
  - rewrite bool_decide_eq_true_2 by left. done.
  - rewrite capitalize_nonempty by done. cbn [mbind result_bind]. rewrite IH.
    destruct (decide ("" ∈ l)) as [Hin|Hin].
    + rewrite !bool_decide_eq_true_2; [done|by right|done].
    + rewrite !bool_decide_eq_false_2; [done| |done].
      intros [?|?]%elem_of_cons; done.
Qed.

Lemma upper_segments_nonempty l : Forall (λ seg, seg ≠ []) (upper_segments l).
Proof.
  eapply Forall_impl; [apply upper_segments_tails|].
  by intros seg (c & t & -> & _).
Qed.

Lemma lower_str_nonempty seg : seg ≠ [] → Py.lower (Py.str seg) ≠ "".
Proof. destruct seg; [done|]. intros _. unfold Py.lower. by rewrite chars_str. Qed.

Lemma has_char_lower s : Py.has_char "_" (Py.lower s) = Py.has_char "_" s.
Proof.
  unfold Py.has_char. rewrite chars_lower.
  induction (Py.chars s) as [|c l IH]; [done|].
  rewrite fmap_cons. cbn [existsb]. rewrite IH. f_equal.
  by destruct c as [[] [] [] [] [] [] [] []].
Qed.

Lemma camel_case_str_cases (s : string) :
  camel_case (PStr s) =
    if Py.contains "__" (Py.strip "_" s) then Raise IndexError
    else
      let name := Py.strip "_" s in
      let name := if Py.isupper name && negb (Py.has_char "_" name)
                  then Py.lower name else name in
      Ok (PStr (Py.join "" (capitalized <$> split_identifier name))).
Proof.
  unfold camel_case. cbn [obj_strip mbind result_bind].
  set (t := Py.strip "_" s).
  assert (Hends : (∀ c r, Py.chars t = c :: r → c ≠ "_"%char)
                  ∧ (∀ r c, Py.chars t = r ++ [c] → c ≠ "_"%char)).
  { unfold t, Py.strip. rewrite chars_str.
    destruct (strip_chars_ends (Py.chars "_") (Py.chars s)) as [Hh Hl].
    split.
    - intros c r Heq ->. by specialize (Hh _ _ Heq).
    - intros r c Heq ->. by specialize (Hl _ _ Heq). }
  destruct Hends as [Hhead Hlast].
  rewrite capitalize_parts_cases.
  destruct (Py.has_char "_" t) eqn:Hu.
  - cbn [negb]. rewrite !andb_false_r.
    unfold split_identifier. rewrite Hu. unfold Py.split, Py.contains.
    change (Py.chars "__") with ["_"; "_"]%char.
    assert (Hmem : "" ∈ Py.lower <$> (Py.str <$> Py.split_on "_" (Py.chars t))
                   ↔ Py.contains_chars ["_"; "_"]%char (Py.chars t) = true).
    { rewrite <- list_fmap_compose, list_elem_of_fmap.
      transitivity ([] ∈ Py.split_on "_" (Py.chars t)).
      { split.
        - intros (seg & Hseg & Hin). destruct seg; [done|].
          exfalso. by eapply (lower_str_nonempty (a :: seg)).
        - intros Hin. by exists []. }
      destruct (split_on_cons "_" (Py.chars t)) as (seg & segs & Heq).
      pose proof (split_on_head_empty (Py.chars t)) as Hh.
      pose proof (split_on_tail_empty (Py.chars t)) as Ht.
      rewrite Heq in Hh, Ht |- *. cbn [head tail] in *. rewrite elem_of_cons, Ht.
      assert (Hnon : Py.chars t ≠ []).
      { intros H0. unfold Py.has_char in Hu. by rewrite H0 in Hu. }
      split; [|by auto].
      intros [<-|[Hl|?]]; [exfalso|exfalso|done].
      - destruct Hh as [Hh _]. destruct (Hh eq_refl) as [?|Hhd]; [done|].
        destruct (Py.chars t) as [|c0 l0] eqn:Hl0; [done|].
        cbn [head] in Hhd. injection Hhd as ->. by eapply Hhead.
      - apply last_Some in Hl as [r Hr]. by eapply (Hlast r "_"%char). }
    destruct (Py.contains_chars ["_"; "_"]%char (Py.chars t)) eqn:Hc.
    + rewrite bool_decide_eq_true_2; [done|]. by apply Hmem.
    + rewrite bool_decide_eq_false_2; [done|]. intros ?%Hmem. done.
  - assert (Hc : Py.contains "__" t = false).
    { destruct (Py.contains "__" t) eqn:Hc; [|done].
      apply contains_has_underscore in Hc. unfold Py.has_char in Hu. congruence. }
    rewrite Hc. cbv zeta.
    set (name := if Py.isupper t && negb false then Py.lower t else t).
    assert (Hname : Py.has_char "_" name = false).
    { unfold name. destruct (Py.isupper t && negb false); [|done].
      by rewrite has_char_lower. }
    rewrite bool_decide_eq_false_2; [done|].
    rewrite split_identifier_no_underscore by done.
    rewrite list_elem_of_fmap. intros (seg & Hseg & Hin).
    pose proof (upper_segments_nonempty (Py.chars name)) as Hne.
    rewrite Forall_forall in Hne. specialize (Hne _ Hin).
    by eapply lower_str_nonempty.
Qed.

(** X2: on a name, [camel_case] fails in one case only: when the name,
    without the underscores at its two ends, has two underscores in a row.
    It then raises [IndexError] (the empty segment has no first character),
    and it raises nothing else; otherwise it returns the segments of the
    stripped name, each with its first character in upper case,
    concatenated. *)
Theorem camel_case_index_error (s : string) :
  (camel_case (PStr s) = Raise IndexError ↔ Py.contains "__" (Py.strip "_" s) = true)
  ∧ (∀ e, camel_case (PStr s) = Raise e → e = IndexError)
  ∧ (Py.contains "__" (Py.strip "_" s) = false →
     let name := Py.strip "_" s in
     let name := if Py.isupper name && negb (Py.has_char "_" name)
                 then Py.lower name else name in
     camel_case (PStr s) = Ok (PStr (Py.join "" (capitalized <$> split_identifier name)))).
Proof.
  rewrite camel_case_str_cases.
  destruct (Py.contains "__" (Py.strip "_" s)).
  - split; [by split|]. split; [|done]. by intros e [= <-].
  - split; [by split|]. split; [done|]. by intros _.
Qed.

(** *** The letters of the result *)

Lemma to_lower_to_upper c : Py.to_lower (Py.to_upper c) = Py.to_lower c.
Proof. by destruct c as [[] [] [] [] [] [] [] []]. Qed.

Lemma to_lower_idemp c : Py.to_lower (Py.to_lower c) = Py.to_lower c.
Proof. by destruct c as [[] [] [] [] [] [] [] []]. Qed.

Lemma to_lower_underscore_iff c : Py.to_lower c = "_"%char ↔ c = "_"%char.
Proof. destruct c as [[] [] [] [] [] [] [] []]; by vm_compute. Qed.

Lemma lower_capitalized p : Py.lower (capitalized p) = Py.lower p.
Proof.
  destruct p as [|c p]; [done|]. unfold Py.lower, Py.chars. cbn [capitalized].
  cbn [list_ascii_of_string fmap list_fmap]. by rewrite to_lower_to_upper.
Qed.

Lemma filter_to_lower (l : list ascii) :
  filter (λ c, c ≠ "_"%char) (Py.to_lower <$> l)
  = Py.to_lower <$> filter (λ c, c ≠ "_"%char) l.
Proof.
  induction l as [|c l IH]; [done|]. rewrite fmap_cons.
  destruct (decide (c = "_"%char)) as [->|Hc].
  - rewrite to_lower_underscore, !filter_cons_False by (by intros ?). done.
  - rewrite !filter_cons_True; [by rewrite fmap_cons, IH|done|].
    by rewrite to_lower_underscore_iff.
Qed.

Lemma concat_split_on (l : list ascii) :
  concat (Py.split_on "_" l) = filter (λ c, c ≠ "_"%char) l.
Proof.
  induction l as [|c l IH]; [done|]. cbn [Py.split_on].
  destruct (Ascii.eqb_spec c "_") as [->|Hc].
  - rewrite filter_cons_False by (by intros ?). done.
  - rewrite filter_cons_True by done. rewrite <- IH.
    by destruct (Py.split_on "_" l).
Qed.

Lemma filter_no_underscore (l : list ascii) :
  existsb (Ascii.eqb "_") l = false → filter (λ c, c ≠ "_"%char) l = l.
Proof.
  induction l as [|c l IH]; [done|]. cbn [existsb].
  intros [Hc Hl]%orb_false_elim. rewrite filter_cons_True, IH; [done..|].
  intros ->. by rewrite Ascii.eqb_refl in Hc.
Qed.

Lemma filter_lstrip_underscore (l : list ascii) :
  filter (λ c, c ≠ "_"%char) (Py.lstrip_chars ["_"%char] l)
  = filter (λ c, c ≠ "_"%char) l.
Proof.
  induction l as [|c l IH]; [done|]. cbn [Py.lstrip_chars existsb].
  destruct (Ascii.eqb_spec c "_") as [->|Hc]; [|done].
  cbn [orb]. rewrite IH, filter_cons_False by (by intros ?). done.
Qed.

Lemma filter_rev_stdpp {A} (P : A → Prop) `{!∀ x, Decision (P x)} (l : list A) :
  rev (filter P l) = filter P (rev l).
Proof.
  induction l as [|x l IH]; [done|]. cbn [rev]. rewrite filter_app, <- IH.
  destruct (decide (P x)).
  - by rewrite !filter_cons_True.
  - rewrite !filter_cons_False by done. by rewrite app_nil_r.
Qed.

Lemma filter_strip_underscore s :
  filter (λ c, c ≠ "_"%char) (Py.chars (Py.strip "_" s))
  = filter (λ c, c ≠ "_"%char) (Py.chars s).
Proof.
  unfold Py.strip, Py.rstrip_chars. rewrite chars_str.
  change (Py.chars "_") with ["_"%char].
  rewrite <- filter_rev_stdpp, filter_lstrip_underscore.
  by rewrite <- filter_rev_stdpp, rev_involutive, filter_lstrip_underscore.
Qed.

Lemma fmap_concat_chars (f : ascii → ascii) (l : list (list ascii)) :
  f <$> concat l = concat ((λ seg : list ascii, f <$> seg) <$> l).
Proof.
  induction l as [|seg l IH]; [done|].
  rewrite fmap_cons. cbn [concat]. by rewrite fmap_app, IH.
Qed.

Lemma split_identifier_letters s :
  concat (Py.chars <$> split_identifier s)
  = filter (λ c, c ≠ "_"%char) (Py.to_lower <$> Py.chars s).
Proof.
  destruct (Py.has_char "_" s) eqn:Hu.
  - unfold split_identifier, Py.split. rewrite Hu.
    rewrite filter_to_lower, <- concat_split_on, fmap_concat_chars.
    f_equal. rewrite <- !list_fmap_compose. apply list_fmap_ext.
    intros _ seg _. cbn. by rewrite chars_lower, chars_str.
  - rewrite <- chars_join_empty, (split_identifier_join_plain s Hu).
    symmetry. apply filter_no_underscore.
    rewrite <- chars_lower. fold (Py.has_char "_" (Py.lower s)).
    by rewrite has_char_lower.
Qed.

Lemma lower_capitalized_parts l :
  Py.to_lower <$> concat (Py.chars <$> (capitalized <$> l))
  = Py.to_lower <$> concat (Py.chars <$> l).
Proof.
  induction l as [|p l IH]; [done|].
  rewrite !fmap_cons. cbn [concat]. rewrite !fmap_app, IH. f_equal.
  by rewrite <- !chars_lower, lower_capitalized.
Qed.

Lemma fmap_to_lower_idemp (l : list ascii) :
  Py.to_lower <$> (Py.to_lower <$> l) = Py.to_lower <$> l.
Proof.
  rewrite <- list_fmap_compose. apply list_fmap_ext.
  intros _ c _. apply to_lower_idemp.
Qed.

(** X3: when [camel_case] returns on an ASCII name, the result has the
    letters and digits of the name, in their order, up to case, and no
    underscore: lowercased, it is the lowercased name without its
    underscores. *)
Theorem camel_case_letters (s r : string) :
  Py.isascii s = true →
  camel_case_str s = Ok r →
  Py.lower r = Py.lower (DefineEventsPass.remove_underscores s)
  ∧ Py.has_char "_" r = false.
Proof.
  intros _ Hr.
  assert (Hl : Py.lower r = Py.lower (DefineEventsPass.remove_underscores s)).
  { unfold camel_case_str in Hr. rewrite camel_case_str_cases in Hr.
    destruct (Py.contains "__" (Py.strip "_" s)); [done|].
    cbv zeta in Hr. cbn [mbind result_bind] in Hr. injection Hr as <-.
    rewrite <- (str_chars (Py.lower _)), <- (str_chars (Py.lower (DefineEventsPass.remove_underscores s))).
    f_equal. rewrite !chars_lower, chars_join_empty, lower_capitalized_parts.
    rewrite split_identifier_letters, filter_to_lower, fmap_to_lower_idemp.
    unfold DefineEventsPass.remove_underscores. rewrite chars_str.
    rewrite <- (filter_strip_underscore s).
    destruct (Py.isupper (Py.strip "_" s) && negb (Py.has_char "_" (Py.strip "_" s))); [|done].
    by rewrite chars_lower, filter_to_lower, fmap_to_lower_idemp. }
  split; [done|].
  rewrite <- has_char_lower, Hl, has_char_lower.
  unfold Py.has_char, DefineEventsPass.remove_underscores. rewrite chars_str.
  induction (Py.chars s) as [|c l IH]; [done|].
  destruct (decide (c = "_"%char)) as [->|Hc].
  - by rewrite filter_cons_False by (by intros ?).
  - rewrite filter_cons_True by done. cbn [existsb]. rewrite IH, orb_false_r.
    by destruct (Ascii.eqb_spec "_"%char c).
Qed.

Lemma camel_case_letters_witness :
  Py.lower "MaxValue" = Py.lower (DefineEventsPass.remove_underscores "_max_VALUE")
  ∧ Py.has_char "_" "MaxValue" = false.
Proof. apply (camel_case_letters "_max_VALUE" "MaxValue"); reflexivity. Defined.

(** ** Class hierarchy pass *)

Lemma odict_eta (pc : odict) : pc = ODict (od_map pc) (od_keys pc).
Proof. by destruct pc. Qed.

Lemma add_base_map name b pc :
  od_map (add_base name b pc)
  = <[name := default ∅ (od_map pc !! name) ∪ {[b]}]> (od_map pc).
Proof.
  unfold add_base. destruct (od_map pc !! name); cbn; [done|].
  by rewrite union_empty_l_L.
Qed.

Lemma add_base_keys name b pc :
  od_keys (add_base name b pc)
  = if decide (name ∈ dom (od_map pc)) then od_keys pc else od_keys pc ++ [name].
Proof.
  unfold add_base. destruct (od_map pc !! name) eqn:Hl; cbn.
  - rewrite decide_True; [done|]. by apply elem_of_dom.
  - rewrite decide_False; [done|]. by apply not_elem_of_dom.
Qed.

Lemma foldl_add_base name bs : ∀ b pc,
  foldl (λ pc b, add_base name b pc) pc (b :: bs)
  = ODict (<[name := default ∅ (od_map pc !! name) ∪ list_to_set (b :: bs)]> (od_map pc))
          (if decide (name ∈ dom (od_map pc)) then od_keys pc else od_keys pc ++ [name]).
Proof.
  induction bs as [|b' bs IH]; intros b pc.
  - cbn [foldl]. rewrite (odict_eta (add_base name b pc)), add_base_map, add_base_keys.
    cbn [list_to_set]. by rewrite union_empty_r_L.
  - change (foldl (λ pc b, add_base name b pc) pc (b :: b' :: bs))
      with (foldl (λ pc b, add_base name b pc) (add_base name b pc) (b' :: bs)).
    rewrite IH, add_base_map, add_base_keys, lookup_insert_eq, insert_insert_eq.
    cbn [default]. f_equal.
    + f_equal. unfold id. set_solver.
    + rewrite (decide_True (P := name ∈ dom (<[name:=_]> (od_map pc)))); [done|].
      rewrite dom_insert_L. set_solver.
Qed.

Lemma visit_closed (n : node) (action : AstAction) (pc : odict) :
  visit n action pc =
    (true,
     if (bool_decide (kind (cur n) = CLASS_DECL) || bool_decide (kind (cur n) = STRUCT_DECL))
        && negb (bool_decide (base_names n = []))
     then ODict (<[fully_qualified_name (cur n) :=
                     default ∅ (od_map pc !! fully_qualified_name (cur n))
                     ∪ list_to_set (base_names n)]> (od_map pc))
                (if decide (fully_qualified_name (cur n) ∈ dom (od_map pc))
                 then od_keys pc else od_keys pc ++ [fully_qualified_name (cur n)])
     else pc).
Proof.
  unfold visit.
  destruct (bool_decide (kind (cur n) = CLASS_DECL) || bool_decide (kind (cur n) = STRUCT_DECL));
    [|done].
  cbn [andb]. f_equal.
  rewrite <- (foldl_fmap (λ pc b, add_base (fully_qualified_name (cur n)) b pc)).
  fold (base_names n).
  destruct (base_names n) as [|b bs]; [done|].
  rewrite bool_decide_eq_false_2 by done. cbn [negb]. apply foldl_add_base.
Qed.

(** X4: what the hierarchy pass records.  At a class or struct with at least
    one base specifier the names of its bases are added to the set recorded
    for the class, and the class becomes a key, after the others, if it was
    none.  The sets of the other classes stay as they are, and a class
    without base specifier, or any other node, changes nothing; the answer
    is always true. *)
Theorem visit_records_bases (n : node) (action : AstAction) (pc : odict) :
  let name := fully_qualified_name (cur n) in
  let recorded :=
    (bool_decide (kind (cur n) = CLASS_DECL) || bool_decide (kind (cur n) = STRUCT_DECL))
    && negb (bool_decide (base_names n = [])) in
  (visit n action pc).1 = true
  ∧ (∀ k, od_map (visit n action pc).2 !! k
          = if recorded && bool_decide (k = name)
            then Some (default ∅ (od_map pc !! name) ∪ list_to_set (base_names n))
            else od_map pc !! k)
  ∧ od_keys (visit n action pc).2
    = if recorded && negb (bool_decide (name ∈ dom (od_map pc)))
      then od_keys pc ++ [name] else od_keys pc.
Proof.
  intros name recorded. rewrite visit_closed. fold name recorded. cbn [fst snd].
  split; [done|]. destruct recorded; cbn [andb od_map od_keys]; [|done].
  split.
  - intros k. case_bool_decide as Hk.
    + subst k. apply lookup_insert_eq.
    + apply lookup_insert_ne. by intros <-.
  - destruct (decide (name ∈ dom (od_map pc))) as [Hin|Hin].
    + by rewrite (bool_decide_eq_true_2 _ Hin).
    + by rewrite (bool_decide_eq_false_2 _ Hin).
Qed.

Lemma visit_wf n action pc : od_wf pc → od_wf (visit n action pc).2.
Proof.
  intros (Hnd & Hkeys & Hne). rewrite visit_closed. cbn [snd].
  destruct (_ && _) eqn:Hcond; [|done].
  apply andb_true_iff in Hcond as [_ Hb].
  apply negb_true_iff, bool_decide_eq_false in Hb.
  set (name := fully_qualified_name (cur n)) in *.
  split; [|split]; cbn [od_map od_keys].
  - destruct (decide (name ∈ dom (od_map pc))) as [Hin|Hin]; [done|].
    apply NoDup_app. split; [done|]. split; [|apply NoDup_singleton].
    intros k Hk ->%list_elem_of_singleton. by apply Hin, Hkeys.
  - intros k. rewrite dom_insert_L, elem_of_union, elem_of_singleton.
    destruct (decide (name ∈ dom (od_map pc))) as [Hin|Hin].
    + rewrite Hkeys. split; [by right|]. by intros [->|?].
    + rewrite elem_of_app, list_elem_of_singleton, Hkeys. tauto.
  - intros k bases. destruct (decide (k = name)) as [->|Hk].
    + rewrite lookup_insert_eq. intros [= <-].
      destruct (base_names n) as [|b bs]; [done|]. set_solver.
    + rewrite lookup_insert_ne by done. apply Hne.
Qed.

(** X5: whatever nodes the hierarchy pass is handed, starting from the empty
    record, the key list lists the keys of the map, each once, and every
    recorded set of bases has a member: a class enters the record only with
    a base. *)
Theorem visit_keeps_keys (ns : list (node * AstAction)) :
  od_wf (foldl (λ pc na, (visit na.1 na.2 pc).2) od_empty ns).
Proof.
  induction ns as [|na ns IH] using rev_ind.
  - split; [constructor|]. split; [set_solver|].
    intros k bases. cbn. by rewrite lookup_empty.
  - rewrite foldl_app. cbn [foldl]. by apply visit_wf.
Qed.

(** X6: handing the same node to the hierarchy pass a second time changes
    nothing. *)
Theorem visit_idempotent (n : node) (action action' : AstAction) (pc : odict) :
  (visit n action' (visit n action pc).2).2 = (visit n action pc).2.
Proof.
  rewrite (visit_closed n action pc). cbn [snd].
  destruct (_ && _) eqn:Hcond.
  - rewrite visit_closed, Hcond. cbn [snd od_map od_keys].
    rewrite lookup_insert_eq, insert_insert_eq. cbn [default]. f_equal.
    + f_equal. set_solver.
    + rewrite (decide_True (P := _ ∈ dom (<[_:=_]> (od_map pc)))); [done|].
      rewrite dom_insert_L. set_solver.
  - by rewrite visit_closed, Hcond.
Qed.

Lemma reaches_mono pc pc' c b :
  (∀ k s, pc !! k = Some s → ∃ s', pc' !! k = Some s' ∧ s ⊆ s') →
  reaches pc c b → reaches pc' c b.
Proof.
  intros Hsub. induction 1 as [c|c b bases Hc Hb|c d b bases Hc Hd Hdom _ IH].
  - constructor.
  - destruct (Hsub _ _ Hc) as (s' & Hc' & Hs).
    apply (reaches_direct pc' c b s'); [done|set_solver].
  - destruct (Hsub _ _ Hc) as (s' & Hc' & Hs).
    apply elem_of_dom in Hdom as [sd Hsd].
    destruct (Hsub _ _ Hsd) as (sd' & Hsd' & _).
    apply (reaches_step pc' c d b s'); [done|set_solver| |done].
    apply elem_of_dom. by eexists.
Qed.

(** X7: the hierarchy pass only adds: a base that could be reached from a
    class before a visit can be reached after it. *)
Theorem visit_only_adds (n : node) (action : AstAction) (pc : odict) (c b : string) :
  reaches (od_map pc) c b → reaches (od_map (visit n action pc).2) c b.
Proof.
  apply reaches_mono. intros k s Hk. rewrite visit_closed. cbn [snd].
  destruct (_ && _); [|by eauto]. cbn [od_map].
  destruct (decide (k = fully_qualified_name (cur n))) as [->|Hne].
  - rewrite lookup_insert_eq, Hk. eexists. split; [done|]. cbn. set_solver.
  - rewrite lookup_insert_ne by done. by eauto.
Qed.

Lemma visit_only_adds_witness :
  reaches (od_map (visit (class_decl "C" ["X"]) ENTER hierarchy_abc).2) "C" "A".
Proof.
  apply (visit_only_adds (class_decl "C" ["X"]) ENTER hierarchy_abc "C" "A").
  apply (is_subclass_of_sound (sorted_order (od_map hierarchy_abc)) (od_map hierarchy_abc)
           "A" 3 (iterates_sorted _) "C" true); reflexivity.
Defined.

Lemma reaches_trans pc a b c :
  reaches pc a b → reaches pc b c → reaches pc a c.
Proof.
  induction 1 as [a|a b bases Ha Hb|a d b bases Ha Hd Hdom _ IH]; intros Hbc.
  - done.
  - destruct (decide (b ∈ dom pc)) as [Hdom|Hdom].
    + by apply (reaches_step pc a b c bases).
    + apply not_elem_of_dom in Hdom.
      inversion Hbc; subst; [by apply (reaches_direct pc a c bases)|congruence..].
  - apply (reaches_step pc a d c bases); [done..|]. by apply IH.
Qed.

(** X8: on an acyclic record, the answers of [is_subclass_of] compose: when
    the query (a, b) and the query (b, c) both return true, so does the
    query (a, c), in whatever order the sets of bases are iterated. *)
Theorem is_subclass_of_transitive (order : string → list string)
    (pc : gmap string (gset string)) (a b c : string) (fuel : nat) :
  iterates pc order → acyclic pc → a ∈ dom pc → size pc ≤ fuel →
  is_subclass_of order fuel pc a b = Some (Ok true) →
  is_subclass_of order fuel pc b c = Some (Ok true) →
  is_subclass_of order fuel pc a c = Some (Ok true).
Proof.
  intros Hit Hac Ha Hfuel Hab Hbc.
  apply (is_subclass_of_sound order pc _ fuel Hit) in Hab, Hbc.
  destruct (is_subclass_of_returns order pc a c fuel Hit Hac Ha Hfuel) as [r Hr].
  rewrite Hr. do 2 f_equal.
  apply (is_subclass_of_sound order pc _ fuel Hit _ _ Hr).
  apply (reaches_trans pc a b c); [by apply Hab|by apply Hbc].
Qed.

Lemma is_subclass_of_transitive_witness :
  is_subclass_of (sorted_order (od_map hierarchy_abc)) 3 (od_map hierarchy_abc) "C" "A"
  = Some (Ok true).
Proof.
  apply (is_subclass_of_transitive (sorted_order (od_map hierarchy_abc))
           (od_map hierarchy_abc) "C" "B" "A" 3).
  - apply iterates_sorted.
  - apply hierarchy_abc_acyclic.
  - rewrite hierarchy_abc_map. set_solver.
  - vm_compute. lia.
  - reflexivity.
  - reflexivity.
Defined.

Lemma join_empty_app (l1 l2 : list string) :
  Py.join "" (l1 ++ l2) = Py.join "" l1 +:+ Py.join "" l2.
Proof.
  rewrite <- (str_chars (Py.join "" (l1 ++ l2))), <- (str_chars (_ +:+ _)).
  f_equal. by rewrite chars_app, !chars_join_empty, fmap_app, concat_app.
Qed.

Lemma refcounted_lines_snoc l c :
  Py.join "" (refcounted_line <$> l ++ [c])
  = Py.join "" (refcounted_line <$> l) +:+ refcounted_line c.
Proof. by rewrite fmap_app, join_empty_app. Qed.

Lemma write_refcounted_closed order pc keys : ∀ f acc,
  iterates pc order → acyclic pc → (∀ k, k ∈ keys → k ∈ dom pc) →
  f_buf f = Py.join "" (refcounted_line <$> acc) →
  ∃ l, sublist l keys
       ∧ (∀ c, c ∈ l ↔ c ∈ keys ∧ reaches pc c "Urho3D::RefCounted")
       ∧ write_refcounted order pc keys f
         = (Ok (), File (f_name f) (Py.join "" (refcounted_line <$> acc ++ l))).
Proof.
  induction keys as [|k keys IH]; intros f acc Hit Hac Hkeys Hbuf.
  - exists []. split; [done|]. split; [set_solver|].
    cbn. rewrite app_nil_r, <- Hbuf. by destruct f.
  - assert (Hk : k ∈ dom pc) by (apply Hkeys; left).
    assert (Hrest : ∀ k', k' ∈ keys → k' ∈ dom pc) by (intros; apply Hkeys; by right).
    cbn [write_refcounted].
    destruct (is_subclass_of_returns order pc k "Urho3D::RefCounted" (S (size pc)) Hit Hac Hk)
      as [r Hr]; [lia|].
    rewrite Hr. pose proof (is_subclass_of_sound order _ _ _ Hit _ _ Hr) as Hsound.
    destruct r.
    + destruct (IH (fwrite (refcounted_line k) f) (acc ++ [k]) Hit Hac Hrest)
        as (l & Hsub & Hmem & Hw).
      { cbn. by rewrite Hbuf, refcounted_lines_snoc. }
      exists (k :: l). split; [by constructor|]. split.
      * intros c. rewrite !elem_of_cons, Hmem. split.
        -- intros [->|[? ?]]; [|by auto]. split; [by left|]. by apply Hsound.
        -- intros [[->|?] ?]; by auto.
      * unfold refcounted_line in Hw at 1. rewrite Hw. cbn [fwrite f_name].
        by rewrite <- app_assoc.
    + destruct (IH f acc Hit Hac Hrest Hbuf) as (l & Hsub & Hmem & Hw).
      exists l. split; [by constructor|]. split; [|done].
      intros c. rewrite elem_of_cons, Hmem. split; [by intros [? ?]; auto|].
      intros [[->|?] Hreach]; [|done]. apply Hsound in Hreach. done.
Qed.

(** X9: on an acyclic record whose listed keys are keys of the map, [on_end]
    returns and leaves in [_refcounted.i], whatever was there, one line for
    each key from which [Urho3D::RefCounted] is reached, in the order in
    which the keys were recorded, and nothing else, in whatever order the
    sets of bases are iterated. *)
Theorem on_end_refcounted (order : string → list string) (output : string) (pc : odict)
    (fs : filesystem) :
  iterates (od_map pc) order →
  acyclic (od_map pc) → (∀ k, k ∈ od_keys pc → k ∈ dom (od_map pc)) →
  ∃ l, sublist l (od_keys pc)
       ∧ (∀ c, c ∈ l ↔ c ∈ od_keys pc ∧ reaches (od_map pc) c "Urho3D::RefCounted")
       ∧ on_end order output pc fs
         = (Ok (), <[path_join output "_refcounted.i" :=
                       Py.join "" (refcounted_line <$> l)]> fs).
Proof.
  intros Hit Hac Hkeys. unfold on_end, open_w.
  destruct (write_refcounted_closed order (od_map pc) (od_keys pc)
              (File (path_join output "_refcounted.i") "") [] Hit Hac Hkeys eq_refl)
    as (l & Hsub & Hmem & Hw).
  exists l. split; [done|]. split; [done|].
  rewrite Hw. unfold fclose. cbn [f_name f_buf app].
  by rewrite insert_insert_eq.
Qed.

Lemma on_end_refcounted_witness :
  ∃ l, sublist l (od_keys hierarchy_abc)
       ∧ (∀ c, c ∈ l ↔ c ∈ od_keys hierarchy_abc
                        ∧ reaches (od_map hierarchy_abc) c "Urho3D::RefCounted")
       ∧ on_end (sorted_order (od_map hierarchy_abc)) "out" hierarchy_abc ∅
         = (Ok (), <[path_join "out" "_refcounted.i" :=
                       Py.join "" (refcounted_line <$> l)]> ∅).
Proof.
  apply (on_end_refcounted (sorted_order (od_map hierarchy_abc)) "out" hierarchy_abc ∅).
  - apply iterates_sorted.
  - apply hierarchy_abc_acyclic.
  - intros k. rewrite hierarchy_abc_keys, hierarchy_abc_map. set_solver.
Defined.

(** ** Names in camel case already *)

Lemma upper_not_lower c : Py.is_upper c = true → Py.is_lower c = false.
Proof. by destruct c as [[] [] [] [] [] [] [] []]. Qed.

Lemma to_upper_to_lower c : Py.is_lower c = false → Py.to_upper (Py.to_lower c) = c.
Proof. by destruct c as [[] [] [] [] [] [] [] []]. Qed.

Lemma strip_chars_none cs l :
  (∀ c, c ∈ l → existsb (Ascii.eqb c) cs = false) →
  Py.rstrip_chars cs (Py.lstrip_chars cs l) = l.
Proof.
  intros Hl.
  assert (Py.lstrip_chars cs l = l) as ->.
  { destruct l as [|c r]; [done|]. apply lstrip_chars_keep, Hl. by left. }
  destruct l as [|c r _] using rev_ind; [done|].
  apply rstrip_chars_keep, Hl. apply elem_of_app. right. by left.
Qed.

Lemma strip_no_underscore s : Py.has_char "_" s = false → Py.strip "_" s = s.
Proof.
  intros Hu. unfold Py.strip. rewrite strip_chars_none; [apply str_chars|].
  intros c Hc. change (Py.chars "_") with ["_"%char]. cbn [existsb].
  rewrite orb_false_r. destruct (Ascii.eqb_spec c "_") as [->|]; [|done].
  unfold Py.has_char in Hu. exfalso.
  assert (existsb (Ascii.eqb "_") (Py.chars s) = true); [|congruence].
  apply existsb_exists. exists "_"%char. split; [by apply list_elem_of_In|].
  apply Ascii.eqb_refl.
Qed.

Lemma segment_fixed c t :
  Py.is_lower c = false → Forall (λ x, Py.is_upper x = false) t →
  Py.chars (capitalized (Py.lower (Py.str (c :: t)))) = c :: t.
Proof.
  intros Hc Ht. unfold Py.lower. rewrite chars_str, fmap_cons.
  change (Py.str (?a :: ?l)) with (String a (Py.str l)). cbn [capitalized].
  change (Py.chars (String ?a ?r)) with (a :: Py.chars r).
  rewrite chars_str, to_upper_to_lower by done. f_equal.
  induction Ht as [|x t Hx _ IH]; [done|].
  by rewrite fmap_cons, IH, to_lower_not_upper.
Qed.

Lemma camel_case_camel s :
  Py.has_char "_" s = false → Py.isupper s = false →
  (∀ c r, Py.chars s = c :: r → Py.is_lower c = false) →
  camel_case_str s = Ok s.
Proof.
  intros Hu Hup Hhead. unfold camel_case_str.
  rewrite camel_case_str_cases, strip_no_underscore by done.
  assert (Py.contains "__" s = false) as ->.
  { destruct (Py.contains "__" s) eqn:Hc; [|done].
    apply contains_has_underscore in Hc. unfold Py.has_char in Hu. congruence. }
  cbv zeta. rewrite Hup. cbn [andb mbind result_bind]. f_equal.
  rewrite split_identifier_no_underscore by done.
  transitivity (Py.str (Py.chars s)); [|apply str_chars].
  rewrite <- (str_chars (Py.join _ _)). f_equal.
  rewrite chars_join_empty, <- !list_fmap_compose.
  rewrite <- (upper_segments_concat (Py.chars s)) at 2. f_equal.
  rewrite <- (list_fmap_id (upper_segments (Py.chars s))) at 2.
  apply Forall_fmap_ext.
  destruct (Py.chars s) as [|c r] eqn:Hs; [constructor|].
  pose proof (upper_segments_tails (c :: r)) as Htails.
  pose proof (upper_segments_heads (c :: r)) as Hheads.
  destruct (upper_segments_cons c r) as (t & segs & Heq).
  rewrite Heq in *. cbn [tail] in Hheads.
  inversion Htails as [|? ? (c' & t' & Hseg0 & Ht) Htails']; simplify_eq.
  constructor.
  - cbn. apply segment_fixed; [by eapply Hhead|done].
  - rewrite Forall_forall in Htails', Hheads |- *. intros seg Hseg.
    destruct (Htails' _ Hseg) as (c1 & t1 & -> & Ht1).
    destruct (Hheads _ Hseg) as (c2 & t2 & Hseg2 & Hc2). simplify_eq.
    cbn. apply segment_fixed; [by apply upper_not_lower|done].
Qed.

(** X10: an ASCII name without underscore that is not in capitals and does
    not start with a lowercase letter (a name written in camel case,
    capitalized) is returned by [camel_case] as it is. *)
Theorem camel_case_fixed (s : string) :
  Py.isascii s = true →
  Py.has_char "_" s = false → Py.isupper s = false →
  (∀ c r, Py.chars s = c :: r → Py.is_lower c = false) →
  camel_case (PStr s) = Ok (PStr s).
Proof.
  intros _ Hu Hup Hhead. pose proof (camel_case_camel s Hu Hup Hhead) as Hc.
  unfold camel_case_str in Hc.
  destruct (camel_case (PStr s)) as [[r| |]|e]; cbn in Hc; try done.
  by injection Hc as ->.
Qed.

Lemma camel_case_fixed_witness : camel_case (PStr "IsHTTPReady") = Ok (PStr "IsHTTPReady").
Proof.
  apply (camel_case_fixed "IsHTTPReady"); [reflexivity..|].
  intros c r [= <- _]. reflexivity.
Defined.

(** ** Property synthesis pass *)

Lemma startswith_Is s :
  Py.startswith "Is" s = true → ∃ rest, s = String "I" (String "s" rest).
Proof.
  unfold Py.startswith. destruct s as [|c1 [|c2 rest]]; cbn [String.prefix]; try done.
  - by destruct (ascii_dec "I" c1).
  - destruct (ascii_dec "I" c1) as [<-|]; [|done].
    destruct (ascii_dec "s" c2) as [<-|]; [|done]. by eauto.
Qed.

Lemma name_taken_member a l g :
  g ∈ l → access (cur g) = PUBLIC → camel_case_str (spelling (cur g)) = Ok a →
  Forall (λ c, access (cur c) = PUBLIC →
               Py.contains "__" (Py.strip "_" (spelling (cur c))) = false) l →
  DefinePropertiesPass.name_taken a l = Ok true.
Proof.
  intros Hin Hacc Hname Hall.
  induction Hall as [|c l Hc _ IH]; [by apply elem_of_nil in Hin|].
  cbn [DefinePropertiesPass.name_taken]. apply elem_of_cons in Hin.
  destruct (decide (access (cur c) = PUBLIC)) as [Hpub|Hpub].
  - rewrite (bool_decide_eq_true_2 _ Hpub).
    assert (∃ v, camel_case_str (spelling (cur c)) = Ok v) as [v Hv].
    { unfold camel_case_str. rewrite camel_case_str_cases, (Hc Hpub). by eexists. }
    rewrite Hv. cbn [mbind result_bind].
    destruct (String.eqb_spec v a) as [?|Hva]; [done|].
    destruct Hin as [->|Hin]; [congruence|by apply IH].
  - rewrite (bool_decide_eq_false_2 _ Hpub).
    destruct Hin as [->|Hin]; [done|by apply IH].
Qed.

(** X11: a predicate-style getter does not become a property.  Take a
    public, non-static, non-virtual method without parameters that returns
    a value and whose name is ASCII, starts with [Is] and has no underscore,
    in a class none of whose public members has a name with two underscores
    in a row between its ends (on such a member [camel_case] raises
    [IndexError], and [visit] with it).  The name of the property is the
    name of the method; the method is a member of its own class, and
    [camel_case] leaves its name as it is, so the search for a public member
    of that name succeeds, on the getter itself at the latest: the pass
    prints the diagnostic [attr name taken], adds no property and answers
    false. *)
Theorem is_getter_rejected (re_sub : string → string → string → string)
    (p getter : node) (st : DefinePropertiesPass.state) (rt : ctype) :
  kind (cur getter) = CXX_METHOD →
  access (cur getter) = PUBLIC →
  is_static_method (cur getter) = false →
  Py.isascii (spelling (cur getter)) = true →
  Py.startswith "Is" (spelling (cur getter)) = true →
  Py.has_char "_" (spelling (cur getter)) = false →
  is_virtual_method (cur getter) = false →
  arguments (cur getter) = [] →
  result_type (cur getter) = Some rt →
  t_spelling rt ≠ "void" →
  getter ∈ children p →
  Forall (λ c, access (cur c) = PUBLIC →
               Py.contains "__" (Py.strip "_" (spelling (cur c))) = false) (children p) →
  DefinePropertiesPass.visit re_sub (Some p) getter ENTER st
  = (Ok (Some false),
     DefinePropertiesPass.State
       (DefinePropertiesPass.fp st) (DefinePropertiesPass.properties st)
       (DefinePropertiesPass.method_attribs st)
       (DefinePropertiesPass.stdout st
          ++ ["Ignore " +:+ fully_qualified_name (cur getter) +:+ ": attr name taken"])).
Proof.
  intros Hk Ha Hs _ His Hu Hv Hargs Hrt Hvoid Hin Hall.
  destruct (startswith_Is _ His) as [rest Hname].
  assert (Hcamel : camel_case_str (spelling (cur getter)) = Ok (spelling (cur getter))).
  { apply camel_case_camel; [done| |].
    - rewrite Hname. unfold Py.isupper. cbn. by rewrite orb_true_r.
    - rewrite Hname. by intros c r [= <- _]. }
  unfold DefinePropertiesPass.visit. rewrite Hk, Ha, Hs, His.
  assert (Py.startswith "Get" (spelling (cur getter)) = false) as -> by by rewrite Hname.
  rewrite (bool_decide_eq_false_2 (CXX_METHOD = CLASS_DECL)) by done.
  rewrite !bool_decide_eq_true_2 by done. cbn [negb].
  unfold DefinePropertiesPass.visit_method. rewrite Hv, Hargs, Hrt. cbn [length].
  rewrite bool_decide_eq_true_2 by done. cbn [negb].
  destruct (String.eqb_spec (t_spelling rt) "void") as [?|_]; [done|].
  rewrite find_children_all.
  unfold mbind, M_bind, lift, mret, M_ret.
  by rewrite (name_taken_member _ _ getter Hin Ha Hcamel Hall).
Qed.

Lemma is_getter_rejected_witness :
  DefinePropertiesPass.visit re_sub_unused (Some class_Switch) getter_IsEnabled ENTER
    (DefinePropertiesPass.State None (Some []) (Some []) [])
  = (Ok (Some false),
     DefinePropertiesPass.State None (Some []) (Some [])
       ["Ignore Urho3D::Actor::IsEnabled: attr name taken"]).
Proof.
  apply (is_getter_rejected re_sub_unused class_Switch getter_IsEnabled
           (DefinePropertiesPass.State None (Some []) (Some []) [])
           (builtin "bool" BOOL)); try reflexivity.
  - discriminate.
  - left.
  - repeat constructor.
Defined.

(** ** Constant extraction pass *)

Lemma existsb_rev {A} (f : A → bool) (l : list A) : existsb f (rev l) = existsb f l.
Proof.
  induction l as [|x l IH]; [done|]. cbn [rev existsb].
  rewrite existsb_app, IH. cbn [existsb]. rewrite orb_false_r. apply orb_comm.
Qed.

Lemma lstrip_keeps_char c cs l :
  existsb (Ascii.eqb c) cs = false →
  existsb (Ascii.eqb c) (Py.lstrip_chars cs l) = existsb (Ascii.eqb c) l.
Proof.
  intros Hc. induction l as [|x l IH]; [done|]. cbn [Py.lstrip_chars].
  destruct (existsb (Ascii.eqb x) cs) eqn:Hx; [|done].
  rewrite IH. cbn [existsb]. destruct (Ascii.eqb_spec c x) as [->|]; [congruence|done].
Qed.

Lemma rstrip_keeps_char c cs s :
  existsb (Ascii.eqb c) (Py.chars cs) = false →
  Py.has_char c (Py.rstrip cs s) = Py.has_char c s.
Proof.
  intros Hc. unfold Py.has_char, Py.rstrip, Py.rstrip_chars.
  by rewrite chars_str, existsb_rev, lstrip_keeps_char, existsb_rev.
Qed.

(** X12: the source text of a constant that holds no [=] is taken as the
    value after its trailing semicolons, line breaks, backslashes and
    letters s are removed (the argument of [rstrip] is a set of characters
    in which the escape [\s] stands for a backslash and an s); blanks are
    not removed, so a text with a blank anywhere gives no value.  A value
    that is found never ends in one of the four characters. *)
Theorem get_constant_value_no_assignment (re_sub : string → string → string → string)
    (n : node) :
  Py.has_char "=" (raw_code (cur n)) = false →
  DefineConstantsPass.get_constant_value re_sub n
  = (if Py.has_char " " (raw_code (cur n)) then None
     else Some (Py.rstrip ("\s" +:+ nl +:+ ";") (raw_code (cur n))))
  ∧ ∀ v r c, DefineConstantsPass.get_constant_value re_sub n = Some v →
             Py.chars v = r ++ [c] →
             c ∉ [ascii_of_nat 92; "s"%char; ascii_of_nat 10; ";"%char].
Proof.
  intros Heq.
  assert (Hval : DefineConstantsPass.get_constant_value re_sub n
                 = (if Py.has_char " " (raw_code (cur n)) then None
                    else Some (Py.rstrip ("\s" +:+ nl +:+ ";") (raw_code (cur n))))).
  { unfold DefineConstantsPass.get_constant_value. rewrite Heq.
    by rewrite rstrip_keeps_char. }
  split; [done|]. intros v r c. rewrite Hval.
  destruct (Py.has_char " " (raw_code (cur n))); [done|]. intros [= <-].
  unfold Py.rstrip. rewrite chars_str. intros Hlast%rstrip_chars_last.
  intros Hc.
  repeat (apply elem_of_cons in Hc as [->|Hc]; [by vm_compute in Hlast|]).
  by apply elem_of_nil in Hc.
Qed.

Lemma get_constant_value_no_assignment_witness :
  DefineConstantsPass.get_constant_value re_sub_unused (leaf UNEXPOSED_EXPR "kDefaults;")
  = Some "kDefault"
  ∧ DefineConstantsPass.get_constant_value re_sub_unused (leaf INTEGER_LITERAL "5 ;") = None.
Proof.
  split.
  - rewrite (proj1 (get_constant_value_no_assignment re_sub_unused
                      (leaf UNEXPOSED_EXPR "kDefaults;") eq_refl)).
    vm_compute. reflexivity.
  - rewrite (proj1 (get_constant_value_no_assignment re_sub_unused
                      (leaf INTEGER_LITERAL "5 ;") eq_refl)).
    vm_compute. reflexivity.
Defined.

(** X13: the constant pass computes the idiomatic name of a namespace-scope
    variable before it looks at its constness.  For a variable that passes
    the name filters, [visit] raises [IndexError] exactly when the name,
    without the underscores at its ends, has two underscores in a row, also
    for a variable that is not const and would be skipped; the state is then
    left as it was. *)
Theorem constants_visit_index_error (re_sub : string → string → string → string)
    (n : node) (action : AstAction) (st : DefineConstantsPass.state) :
  Py.endswith "/MathDefs.h" (spelling (cur n)) = false →
  kind (cur n) = VAR_DECL →
  semantic_parent_kind (cur n) = NAMESPACE →
  Py.startswith "Urho3D::IsFlagSet" (fully_qualified_name (cur n))
    || Py.startswith "Urho3D::FlagSet" (fully_qualified_name (cur n))
    || Py.startswith "E_" (spelling (cur n)) || Py.startswith "P_" (spelling (cur n)) = false →
  ((DefineConstantsPass.visit re_sub n action st).1 = Raise IndexError
   ↔ Py.contains "__" (Py.strip "_" (spelling (cur n))) = true)
  ∧ (Py.contains "__" (Py.strip "_" (spelling (cur n))) = true →
     DefineConstantsPass.visit re_sub n action st = (Raise IndexError, st)).
Proof.
  intros Hmath Hk Hp Hfilter.
  unfold DefineConstantsPass.visit. rewrite Hmath, Hk, Hp, Hfilter.
  rewrite !bool_decide_eq_true_2 by done. cbn [andb].
  unfold camel_case_str. rewrite camel_case_str_cases.
  destruct (Py.contains "__" (Py.strip "_" (spelling (cur n)))).
  - split; done.
  - split; [|done]. split; [|done]. cbv zeta.
    unfold mbind, M_bind, lift, mret, M_ret. cbn [result_bind].
    destruct (negb (t_is_const_qualified (type (cur n)))); [done|].
    destruct (DefineConstantsPass.extract re_sub n _) as [type_name value].
    unfold DefineConstantsPass.fp_write, DefineConstantsPass.cs_code_append, modify.
    destruct (DefineConstantsPass.fp st); [|done]. cbn.
    by destruct (DefineConstantsPass.truthy value).
Qed.

Lemma constants_visit_index_error_witness :
  DefineConstantsPass.visit re_sub_unused (decl_mutable "max__size") ENTER
    (DefineConstantsPass.State None [])
  = (Raise IndexError, DefineConstantsPass.State None []).
Proof.
  apply (constants_visit_index_error re_sub_unused (decl_mutable "max__size") ENTER
           (DefineConstantsPass.State None [])); reflexivity.
Defined.

(** ** Enum normalizer *)

Lemma fwrite_fwrite a b f : fwrite b (fwrite a f) = fwrite (a +:+ b) f.
Proof. unfold fwrite. cbn. by rewrite append_assoc. Qed.

Lemma fwrite_empty f : fwrite "" f = f.
Proof. destruct f. unfold fwrite. cbn. by rewrite append_nil_r. Qed.

Lemma join_empty_cons (p : string) (ps : list string) :
  Py.join "" (p :: ps) = p +:+ Py.join "" ps.
Proof. apply (join_empty_app [p] ps). Qed.

Lemma write_sdl_values_closed l : ∀ f,
  CleanEnumValues.write_sdl_values l (CleanEnumValues.State (Some f))
  = (Ok (),
     CleanEnumValues.State
       (Some (fwrite (Py.join "" (sdl_value_line
                                    <$> filter (λ ch, Py.contains " = SDL" (raw_code (cur ch)) = true) l))
                     f))).
Proof.
  induction l as [|ch l IH]; intros f.
  - cbn. by rewrite fwrite_empty.
  - cbn [CleanEnumValues.write_sdl_values]. unfold mbind, M_bind.
    destruct (Py.contains " = SDL" (raw_code (cur ch))) eqn:Hc.
    + rewrite filter_cons_True by done. cbn [CleanEnumValues.fp_write CleanEnumValues.fp].
      rewrite IH, fwrite_fwrite, fmap_cons, join_empty_cons. done.
    + rewrite filter_cons_False by (by rewrite Hc). cbn. apply IH.
Qed.

(** X14: what the enum normalizer writes at an enum declaration, with its
    file open: the flags attribute if the type is among the flag enums
    registered so far, then, for a type of namespace Urho3D, one line with
    the numeric value for each enumerator whose source text refers to an SDL
    symbol, in declaration order, and none for the others.  It never
    fails there. *)
Theorem enum_visit_text (flag_enums : list string) (n : node) (action : AstAction) (f : file) :
  kind (cur n) = ENUM_DECL →
  CleanEnumValues.visit flag_enums n action (CleanEnumValues.State (Some f))
  = (Ok true,
     CleanEnumValues.State
       (Some (fwrite
                ((if bool_decide (t_spelling (type (cur n)) ∈ flag_enums)
                  then flags_line (t_spelling (type (cur n))) else "")
                 +:+ (if Py.startswith "Urho3D::" (t_spelling (type (cur n)))
                      then Py.join "" (sdl_value_line
                             <$> filter (λ ch, Py.contains " = SDL" (raw_code (cur ch)) = true)
                                        (children n))
                      else ""))
                f))).
Proof.
  intros Hk. unfold CleanEnumValues.visit. rewrite Hk.
  rewrite bool_decide_eq_true_2 by done. unfold mbind, M_bind.
  assert (Hfirst : ∀ (b : bool) text,
            (if b then CleanEnumValues.fp_write text else mret ()) (CleanEnumValues.State (Some f))
            = (Ok (), CleanEnumValues.State (Some (fwrite (if b then text else "") f)))).
  { intros [] text; [done|]. by rewrite fwrite_empty. }
  unfold flags_line. rewrite Hfirst.
  destruct (Py.startswith "Urho3D::" (t_spelling (type (cur n)))).
  - by rewrite write_sdl_values_closed, fwrite_fwrite.
  - cbn. by rewrite append_nil_r.
Qed.

Lemma enum_visit_text_witness :
  CleanEnumValues.visit [] enum_Key ENTER (CleanEnumValues.State (Some (File "_enums.i" "")))
  = (Ok true,
     CleanEnumValues.State
       (Some (File "_enums.i"
                ("%csconstvalue(" +:+ dq +:+ "97" +:+ dq +:+ ") KEY_A;" +:+ nl +:+
                 "%csconstvalue(" +:+ dq +:+ "98" +:+ dq +:+ ") KEY_B;" +:+ nl)))).
Proof.
  rewrite (enum_visit_text [] enum_Key ENTER (File "_enums.i" "") eq_refl).
  vm_compute. reflexivity.
Defined.

(** ** Event metadata pass *)

Lemma span_app (P : ascii → bool) a c r :
  Forall (λ x, P x = true) a → P c = false →
  DefineEventsPass.span P (a ++ c :: r) = (a, c :: r).
Proof.
  intros Ha Hc. induction Ha as [|x a Hx _ IH]; cbn [DefineEventsPass.span app].
  - by rewrite Hc.
  - by rewrite Hx, IH.
Qed.

Lemma prefix_nocase_app p : ∀ pre rest,
  Py.to_lower <$> pre = Py.to_lower <$> p →
  DefineEventsPass.prefix_nocase p (pre ++ rest) = Some rest.
Proof.
  induction p as [|a p IH]; intros [|b pre] rest Heq; try done.
  rewrite !fmap_cons in Heq. injection Heq as Hb Hpre.
  cbn [DefineEventsPass.prefix_nocase app]. unfold DefineEventsPass.eqb_nocase.
  rewrite Hb, Ascii.eqb_refl. by apply IH.
Qed.

Lemma param_char_not_space c :
  DefineEventsPass.is_param_char c = true → is_space c = false.
Proof. by destruct c as [[] [] [] [] [] [] [] []]. Qed.

(** X15: the parameter pattern reads back what the macro was given.  On a
    text made of the macro name in any case, an opening parenthesis, a
    non-empty first argument without comma, a comma, any blanks, a non-empty
    second argument of letters, digits and underscores, and [);], whatever
    follows, the pattern matches and its second group is the second
    argument. *)
Theorem param_name_group_format (pre g1 ws g2 tail : list ascii) :
  Py.to_lower <$> pre = Py.to_lower <$> Py.chars "URHO3D_PARAM(" →
  g1 ≠ [] → Forall (λ c, c ≠ ","%char) g1 →
  Forall (λ c, is_space c = true) ws →
  g2 ≠ [] → Forall (λ c, DefineEventsPass.is_param_char c = true) g2 →
  DefineEventsPass.param_name_group
    (Py.str (pre ++ g1 ++ ","%char :: ws ++ g2 ++ ")"%char :: ";"%char :: tail))
  = Some (Py.str g2).
Proof.
  intros Hpre Hg1 Hcomma Hws Hg2 Hparam.
  unfold DefineEventsPass.param_name_group. rewrite chars_str.
  rewrite (prefix_nocase_app _ _ _ Hpre). cbn [mbind option_bind].
  rewrite (span_app (λ c, negb (Ascii.eqb c ","))); [| |done].
  2:{ eapply Forall_impl; [exact Hcomma|]. intros c Hc. cbn beta.
      by destruct (Ascii.eqb_spec c ","). }
  rewrite bool_decide_eq_false_2 by done.
  destruct g2 as [|c2 g2]; [done|].
  inversion Hparam as [|? ? Hc2 Hrest]; subst.
  change ((c2 :: g2) ++ ")"%char :: ";"%char :: tail)
    with (c2 :: (g2 ++ ")"%char :: ";"%char :: tail)).
  rewrite (span_app is_space ws c2) by (done || by apply param_char_not_space).
  change (c2 :: (g2 ++ ")"%char :: ";"%char :: tail))
    with ((c2 :: g2) ++ ")"%char :: ";"%char :: tail).
  rewrite (span_app DefineEventsPass.is_param_char (c2 :: g2) ")") by done.
  by rewrite bool_decide_eq_false_2.
Qed.

Lemma param_name_group_format_witness :
  DefineEventsPass.param_name_group "urho3d_Param(P_TIMESTEP,  TimeStep); // seconds"
  = Some "TimeStep".
Proof.
  apply (param_name_group_format (Py.chars "urho3d_Param(") (Py.chars "P_TIMESTEP")
           (Py.chars "  ") (Py.chars "TimeStep") (Py.chars " // seconds"));
    try done; repeat constructor; done.
Defined.

Lemma write_params_app good names rest : ∀ f,
  Forall2 param_read good names →
  DefineEventsPass.write_params (good ++ rest) (DefineEventsPass.State (Some f))
  = DefineEventsPass.write_params rest
      (DefineEventsPass.State (Some (fwrite (Py.join "" (param_line <$> names)) f))).
Proof.
  intros f Hall. revert f.
  induction Hall as [|param nm good names [Hgroup Hcamel] _ IH]; intros f.
  - cbn. by rewrite fwrite_empty.
  - cbn [app DefineEventsPass.write_params]. rewrite Hgroup.
    unfold mbind, M_bind, lift. rewrite Hcamel.
    cbn [DefineEventsPass.fp_write DefineEventsPass.fp].
    rewrite IH, fwrite_fwrite, fmap_cons, join_empty_cons. done.
Qed.

Lemma events_visit_params p n action i next_node f good names rest :
  kind (cur n) = VAR_DECL →
  t_spelling (type (cur n)) = "const Urho3D::StringHash" →
  Py.startswith "E_" (spelling (cur n)) = true →
  DefineEventsPass.index_of n (children p) = Some i →
  children p !! (i + 1)%nat = Some next_node →
  kind (cur next_node) = NAMESPACE →
  DefineEventsPass.names_match next_node n = true →
  children next_node = good ++ rest →
  Forall2 param_read good names →
  DefineEventsPass.visit (Some p) n action (DefineEventsPass.State (Some f))
  = match DefineEventsPass.write_params rest
            (DefineEventsPass.State
               (Some (fwrite (event_header (spelling (cur next_node))
                              +:+ Py.join "" (param_line <$> names)) f))) with
    | (Ok _, st) =>
        (_ ← DefineEventsPass.fp_write (event_footer (spelling (cur next_node))); mret true) st
    | (Raise e, st) => (Raise e, st)
    end.
Proof.
  intros Hk Ht Hp Hi Hnext Hns Hname Hch Hall.
  unfold DefineEventsPass.visit. rewrite Hk, Ht, Hp.
  rewrite bool_decide_eq_true_2 by done. rewrite String.eqb_refl. cbn [andb].
  rewrite Hi, Hnext. rewrite (bool_decide_eq_true_2 _ Hns), Hname. cbn [andb].
  unfold mbind at 1, M_bind at 1.
  cbn [DefineEventsPass.fp_write DefineEventsPass.fp].
  unfold mbind at 1, M_bind at 1.
  rewrite Hch, (write_params_app good names rest _ Hall), fwrite_fwrite.
  done.
Qed.

(** X16: the whole text of an event descriptor.  When the event pattern is
    met and every child of the namespace is a parameter the pass can read,
    [visit] answers true and appends to its file the header of the
    descriptor, one line for each parameter in declaration order (the name
    of the field is the camel-cased second argument of the macro), and the
    closing lines. *)
Theorem event_descriptor_text (p n : node) (action : AstAction) (i : nat) (next_node : node)
    (f : file) (names : list (string * string)) :
  kind (cur n) = VAR_DECL →
  t_spelling (type (cur n)) = "const Urho3D::StringHash" →
  Py.startswith "E_" (spelling (cur n)) = true →
  DefineEventsPass.index_of n (children p) = Some i →
  children p !! (i + 1)%nat = Some next_node →
  kind (cur next_node) = NAMESPACE →
  DefineEventsPass.names_match next_node n = true →
  Forall2 param_read (children next_node) names →
  DefineEventsPass.visit (Some p) n action (DefineEventsPass.State (Some f))
  = (Ok true,
     DefineEventsPass.State
       (Some (fwrite (event_header (spelling (cur next_node))
                      +:+ Py.join "" (param_line <$> names)
                      +:+ event_footer (spelling (cur next_node))) f))).
Proof.
  intros Hk Ht Hp Hi Hnext Hns Hname Hall.
  rewrite (events_visit_params p n action i next_node f (children next_node) names []);
    [|done..|by rewrite app_nil_r|done].
  cbn [DefineEventsPass.write_params]. unfold mret at 1, M_ret at 1.
  unfold mbind, M_bind. cbn [DefineEventsPass.fp_write DefineEventsPass.fp].
  by rewrite fwrite_fwrite, append_assoc.
Qed.

Lemma event_descriptor_text_witness :
  DefineEventsPass.visit (Some events_SceneUpdate) (event_constant "E_SCENEUPDATE" 100) ENTER
    (DefineEventsPass.State (Some (File "_events.i" "")))
  = (Ok true,
     DefineEventsPass.State
       (Some (fwrite (event_header "SceneUpdate"
                      +:+ Py.join "" (param_line <$> [("TimeStep", "TimeStep")])
                      +:+ event_footer "SceneUpdate") (File "_events.i" "")))).
Proof.
  apply (event_descriptor_text events_SceneUpdate (event_constant "E_SCENEUPDATE" 100) ENTER
           0 (event_namespace "SceneUpdate" 140 ["URHO3D_PARAM(P_TIMESTEP, TimeStep);"])
           (File "_events.i" "") [("TimeStep", "TimeStep")]); try reflexivity.
  repeat constructor.
Defined.

(** X17: a child of the namespace that is no parameter macro stops the pass
    in the middle of a descriptor.  With the event pattern met, the children
    before that child read, and no match of the parameter pattern on it,
    [visit] raises [AttributeError]; the header of the descriptor and the
    lines of the parameters before it are written by then, the closing lines
    are not. *)
Theorem event_descriptor_broken (p n : node) (action : AstAction) (i : nat) (next_node : node)
    (f : file) (good : list node) (names : list (string * string)) (bad : node)
    (rest : list node) :
  kind (cur n) = VAR_DECL →
  t_spelling (type (cur n)) = "const Urho3D::StringHash" →
  Py.startswith "E_" (spelling (cur n)) = true →
  DefineEventsPass.index_of n (children p) = Some i →
  children p !! (i + 1)%nat = Some next_node →
  kind (cur next_node) = NAMESPACE →
  DefineEventsPass.names_match next_node n = true →
  children next_node = good ++ bad :: rest →
  Forall2 param_read good names →
  DefineEventsPass.param_name_group (raw_code (cur bad)) = None →
  DefineEventsPass.visit (Some p) n action (DefineEventsPass.State (Some f))
  = (Raise AttributeError,
     DefineEventsPass.State
       (Some (fwrite (event_header (spelling (cur next_node))
                      +:+ Py.join "" (param_line <$> names)) f))).
Proof.
  intros Hk Ht Hp Hi Hnext Hns Hname Hch Hall Hbad.
  rewrite (events_visit_params p n action i next_node f good names (bad :: rest)); [|done..].
  cbn [DefineEventsPass.write_params]. by rewrite Hbad.
Qed.

Lemma event_descriptor_broken_witness :
  DefineEventsPass.visit (Some events_Update_broken) (event_constant "E_UPDATE" 100) ENTER
    (DefineEventsPass.State (Some (File "_events.i" "")))
  = (Raise AttributeError,
     DefineEventsPass.State
       (Some (fwrite (event_header "Update"
                      +:+ Py.join "" (param_line <$> [("TimeStep", "TimeStep")]))
                     (File "_events.i" "")))).
Proof.
  apply (event_descriptor_broken events_Update_broken (event_constant "E_UPDATE" 100) ENTER
           0 (event_namespace "Update" 140 ["URHO3D_PARAM(P_TIMESTEP, TimeStep);"; "int x;"])
           (File "_events.i" "") [leaf VAR_DECL "URHO3D_PARAM(P_TIMESTEP, TimeStep);"]
           [("TimeStep", "TimeStep")] (leaf VAR_DECL "int x;") []); try reflexivity.
  repeat constructor.
Defined.

(** ** Property files *)

Lemma startswith_append a b : Py.startswith a (a +:+ b) = true.
Proof.
  unfold Py.startswith. induction a as [|c a IH]; [by destruct b|].
  change (String.prefix (String c a) (String c (a +:+ b)) = true).
  cbn [String.prefix]. by destruct (ascii_dec c c).
Qed.

Lemma slice_from_append a b : Py.slice_from (String.length a) (a +:+ b) = b.
Proof.
  unfold Py.slice_from. rewrite chars_app, <- length_chars, drop_app_length.
  apply str_chars.
Qed.

Lemma lstrip_chars_suffix cs l : ∃ k, l = k ++ Py.lstrip_chars cs l.
Proof.
  induction l as [|c l [k IH]]; [by exists []|]. cbn [Py.lstrip_chars].
  destruct (existsb (Ascii.eqb c) cs); [|by exists []].
  exists (c :: k). cbn [app]. by rewrite <- IH.
Qed.

Lemma rstrip_chars_prefix cs l : ∃ k, l = Py.rstrip_chars cs l ++ k.
Proof.
  unfold Py.rstrip_chars. destruct (lstrip_chars_suffix cs (rev l)) as [k Hk].
  exists (rev k). rewrite <- rev_app_distr, <- Hk. by rewrite rev_involutive.
Qed.

Lemma lstrip_slashes slashes c r :
  Forall (λ x, x = "/"%char) slashes → c ≠ "/"%char →
  Py.lstrip_chars ["/"%char] (slashes ++ c :: r) = c :: r.
Proof.
  intros Hs Hc. induction Hs as [|x slashes -> _ IH]; cbn [app Py.lstrip_chars existsb].
  - by destruct (Ascii.eqb_spec c "/").
  - rewrite Ascii.eqb_refl. cbn [orb]. exact IH.
Qed.

Lemma rstrip_chars_app cs d rest :
  Forall (λ x, existsb (Ascii.eqb x) cs = false) d →
  Py.rstrip_chars cs (d ++ rest) = d ++ Py.rstrip_chars cs rest.
Proof.
  induction 1 as [|x d Hx _ IH]; [done|].
  cbn [app]. by rewrite rstrip_chars_cons, IH.
Qed.

Lemma split_on_first d rest :
  Forall (λ x, x ≠ "/"%char) d → rest = [] ∨ head rest = Some "/"%char →
  head (Py.split_on "/" (d ++ rest)) = Some d.
Proof.
  intros Hd Hrest. induction Hd as [|x d Hx _ IH]; cbn [app].
  - destruct Hrest as [->|Hr]; [done|]. destruct rest as [|c r]; [done|].
    injection Hr as ->. cbn [Py.split_on]. by rewrite Ascii.eqb_refl.
  - cbn [Py.split_on]. destruct (Ascii.eqb_spec x "/") as [?|_]; [done|].
    destruct (Py.split_on "/" (d ++ rest)) as [|seg segs]; [done|].
    cbn in IH |- *. by injection IH as ->.
Qed.

Lemma head_fmap {A B} (f : A → B) (l : list A) : head (f <$> l) = f <$> head l.
Proof. by destruct l. Qed.

Lemma first_directory slashes d rest :
  Forall (λ x, x = "/"%char) slashes → d ≠ [] → Forall (λ x, x ≠ "/"%char) d →
  rest = [] ∨ head rest = Some "/"%char →
  head (Py.split "/" (Py.strip "/" (Py.str (slashes ++ d ++ rest)))) = Some (Py.str d).
Proof.
  intros Hs Hne Hd Hrest. unfold Py.split, Py.strip. rewrite !chars_str.
  change (Py.chars "/") with ["/"%char].
  destruct d as [|c d]; [done|]. inversion Hd as [|? ? Hc Hd']; subst.
  change ((c :: d) ++ rest) with (c :: (d ++ rest)).
  rewrite lstrip_slashes by done.
  change (c :: (d ++ rest)) with ((c :: d) ++ rest).
  rewrite rstrip_chars_app.
  2:{ eapply Forall_impl; [exact Hd|]. intros x Hx. cbn [existsb].
      rewrite orb_false_r. by destruct (Ascii.eqb_spec x "/"). }
  rewrite head_fmap, split_on_first; [done|done|].
  destruct (rstrip_chars_prefix ["/"%char] rest) as [k Hk].
  destruct (Py.rstrip_chars ["/"%char] rest) as [|c' r']; [by left|right].
  destruct Hrest as [->|Hr]; [by destruct k|].
  rewrite Hk in Hr. done.
Qed.

(** X18: the property file of a header is chosen by the first directory
    below the input directory, in lower case.  The test that the header lies
    below the input directory compares the two paths as strings, so the
    first directory is whatever follows the input path up to the next slash,
    after the slashes in front of it are dropped.  The file is opened to
    append: what it holds is kept. *)
Theorem on_file_begin_directory (abspath : string → string) (input output file_path : string)
    (st : DefinePropertiesPass.state) (fs : filesystem) (slashes d rest : list ascii) :
  abspath file_path = input +:+ Py.str (slashes ++ d ++ rest) →
  Forall (λ x, x = "/"%char) slashes → d ≠ [] → Forall (λ x, x ≠ "/"%char) d →
  rest = [] ∨ head rest = Some "/"%char →
  let path := path_join output ("_properties_" +:+ Py.lower (Py.str d) +:+ ".i") in
  let old := default "" (fs !! path) in
  DefinePropertiesPass.on_file_begin abspath input output file_path st fs
  = (true,
     DefinePropertiesPass.State (Some (File path old)) (DefinePropertiesPass.properties st)
       (DefinePropertiesPass.method_attribs st) (DefinePropertiesPass.stdout st),
     <[path := old]> fs).
Proof.
  intros Habs Hs Hne Hd Hrest path old.
  unfold DefinePropertiesPass.on_file_begin.
  rewrite Habs, startswith_append, slice_from_append.
  by rewrite first_directory.
Qed.

Lemma on_file_begin_directory_witness :
  DefinePropertiesPass.on_file_begin id "/src/Urho3D" "out" "/src/Urho3DExtras/Tool.h"
    (DefinePropertiesPass.State None None None []) ∅
  = (true,
     DefinePropertiesPass.State (Some (File "out/_properties_extras.i" "")) None None [],
     <["out/_properties_extras.i" := ""]> ∅).
Proof.
  etransitivity.
  - apply (on_file_begin_directory id "/src/Urho3D" "out" "/src/Urho3DExtras/Tool.h"
             (DefinePropertiesPass.State None None None []) ∅
             [] (Py.chars "Extras") (Py.chars "/Tool.h")).
    + reflexivity.
    + constructor.
    + discriminate.
    + repeat constructor; discriminate.
    + right. reflexivity.
  - vm_compute. reflexivity.
Defined.

(** X19: the two file hooks of the property pass, around the writes for a
    header below the input directory.  The text written for the header is
    added at the end of what the property file of its directory held; when
    that leaves the file empty it is removed, also when it was there,
    empty, before.  No other file is touched. *)
Theorem on_file_roundtrip (abspath : string → string) (input output file_path text : string)
    (st : DefinePropertiesPass.state) (fs : filesystem) :
  Py.startswith input (abspath file_path) = true →
  ∃ path,
    let old := default "" (fs !! path) in
    let begun := DefinePropertiesPass.on_file_begin abspath input output file_path st fs in
    let written := DefinePropertiesPass.fp_write text begun.1.2 in
    DefinePropertiesPass.fp begun.1.2 = Some (File path old)
    ∧ written.1 = Ok ()
    ∧ DefinePropertiesPass.on_file_end file_path written.2 begun.2
      = (Ok (), written.2,
         if String.eqb (old +:+ text) "" then delete path fs
         else <[path := old +:+ text]> fs).
Proof.
  intros Hstart. unfold DefinePropertiesPass.on_file_begin. rewrite Hstart.
  set (path := path_join output _).
  exists path. cbv zeta. unfold open_a. cbn [fst snd DefinePropertiesPass.fp].
  split; [reflexivity|]. split; [reflexivity|].
  unfold DefinePropertiesPass.on_file_end. cbn [DefinePropertiesPass.fp_write
    DefinePropertiesPass.fp snd fwrite f_name f_buf].
  unfold fclose, st_size, unlink, fwrite. cbn [f_name f_buf].
  rewrite insert_insert_eq, lookup_insert_eq. cbn [fmap option_fmap option_map].
  destruct (String.eqb_spec (default "" (fs !! path) +:+ text) "") as [Heq|Hne].
  - rewrite Heq. rewrite bool_decide_eq_true_2 by done. by rewrite delete_insert_eq.
  - rewrite bool_decide_eq_false_2; [done|].
    intros [= Hlen]. apply Hne. by destruct (_ +:+ text).
Qed.

Lemma on_file_roundtrip_witness :
  ∃ path,
    let old := default "" ((∅ : filesystem) !! path) in
    let begun := DefinePropertiesPass.on_file_begin id "/src" "out" "/src/Core/Object.h"
                   (DefinePropertiesPass.State None None None []) ∅ in
    let written := DefinePropertiesPass.fp_write "" begun.1.2 in
    DefinePropertiesPass.fp begun.1.2 = Some (File path old)
    ∧ written.1 = Ok ()
    ∧ DefinePropertiesPass.on_file_end "/src/Core/Object.h" written.2 begun.2
      = (Ok (), written.2,
         if String.eqb (old +:+ "") "" then delete path ∅
         else <[path := old +:+ ""]> ∅).
Proof.
  apply (on_file_roundtrip id "/src" "out" "/src/Core/Object.h" ""
           (DefinePropertiesPass.State None None None []) ∅).
  reflexivity.
Defined.

(** ** [rename_identifier] *)

Lemma abbreviates_iff cs : ∀ i parent_parts,
  abbreviates cs i parent_parts = Ok true
  ↔ ∀ j c, cs !! j = Some c →
           ∃ p, parent_parts !! (i + j) = Some p ∧ head (Py.chars p) = Some c.
Proof.
  induction cs as [|c cs IH]; intros i parent_parts; cbn [abbreviates].
  - split; [|done]. by intros _ j c.
  - destruct (parent_parts !! i) as [p|] eqn:Hp.
    + unfold Py.get. rewrite <- head_lookup.
      destruct (head (Py.chars p)) as [p0|] eqn:Hp0; cbn [mbind result_bind].
      * destruct (Ascii.eqb_spec c p0) as [<-|Hne].
        -- rewrite IH. split.
           ++ intros H [|j] c'; cbn.
              ** intros [= <-]. exists p. by rewrite Nat.add_0_r.
              ** intros Hj. destruct (H j c' Hj) as (q & Hq & Hc').
                 exists q. by rewrite <- Nat.add_succ_comm.
           ++ intros H j c' Hj. destruct (H (S j) c' Hj) as (q & Hq & Hc').
              exists q. by rewrite Nat.add_succ_comm.
        -- split; [done|]. intros H. destruct (H 0 c eq_refl) as (q & Hq & Hc').
           rewrite Nat.add_0_r, Hp in Hq. injection Hq as <-. congruence.
      * split; [done|]. intros H. destruct (H 0 c eq_refl) as (q & Hq & Hc').
        rewrite Nat.add_0_r, Hp in Hq. injection Hq as <-. congruence.
    + split; [done|]. intros H. destruct (H 0 c eq_refl) as (q & Hq & _).
      rewrite Nat.add_0_r, Hp in Hq. done.
Qed.

(** X20: [rename_identifier] drops the first segment of a name exactly when
    each of its characters is the first character of the segment of the
    parent name at the same position (a missing or empty parent segment
    keeps it); and whatever the loop decides, the function never returns:
    it hands a list to [camel_case], which calls [strip] on it and raises
    [AttributeError]. *)
Theorem rename_identifier_prefix (name parent_name : string) (is_private : bool)
    (first : string) (rest parent_parts : list string) :
  rename_identifier name parent_name is_private = Raise AttributeError
  ∧ (drop_parent_prefix (first :: rest) parent_parts = rest
     ↔ ∀ j c, Py.chars first !! j = Some c →
              ∃ p, parent_parts !! j = Some p ∧ head (Py.chars p) = Some c)
  ∧ (drop_parent_prefix (first :: rest) parent_parts = rest
     ∨ drop_parent_prefix (first :: rest) parent_parts = first :: rest).
Proof.
  split; [reflexivity|]. unfold drop_parent_prefix.
  pose proof (abbreviates_iff (Py.chars first) 0 parent_parts) as Hiff. cbn in Hiff.
  assert (Hneq : first :: rest ≠ rest).
  { intros Heq. apply (f_equal length) in Heq. cbn in Heq. lia. }
  destruct (abbreviates (Py.chars first) 0 parent_parts) as [[]|e].
  - split; [|by left]. split; [intros _; by apply Hiff|done].
  - split; [|by right]. split; [done|]. intros H. by apply Hiff in H.
  - split; [|by right]. split; [done|]. intros H. by apply Hiff in H.
Qed.

(** ** The literal of a constant *)

(** X21: the literal the constant pass finds for a variable of a built-in
    type.  When it is not empty, the canonical kind of the type has a C#
    name in [builtin_to_cs], which is the type name returned (for the kinds
    the table leaves out, the 16- and 32-bit characters and the 128-bit
    integer among them, no literal is ever returned); for an unsigned kind
    the literal ends in exactly one [U], put in place of any run of [U] and
    [u] at its end, and for a float in exactly one [f]. *)
Theorem extract_literal_suffix (re_sub : string → string → string → string) (n : node)
    (type_name cs v : string) :
  String.eqb (t_spelling (type (cur n))) "const ea::string"
    || String.eqb (t_spelling (type (cur n))) "const char*" = false →
  DefineConstantsPass.extract re_sub n type_name = (cs, Some v) →
  v = ""
  ∨ (builtin_to_cs (t_canonical_kind (type (cur n))) = Some cs
     ∧ (DefineConstantsPass.is_unsigned_kind (t_canonical_kind (type (cur n))) = true →
        ∃ body, v = body +:+ "U"
                ∧ ∀ r c, Py.chars body = r ++ [c] → c ≠ "U"%char ∧ c ≠ "u"%char)
     ∧ (t_canonical_kind (type (cur n)) = FLOAT →
        ∃ body, v = body +:+ "f"
                ∧ ∀ r c, Py.chars body = r ++ [c] → c ≠ "F"%char ∧ c ≠ "f"%char)).
Proof.
  intros Hstr. unfold DefineConstantsPass.extract. rewrite Hstr.
  destruct (t_is_builtin (type (cur n))); [|done].
  destruct (match find_any_child (has_kind INTEGER_LITERAL) n with
            | Some l => Some l
            | None => find_any_child (has_kind FLOATING_LITERAL) n
            end) as [literal|]; [|done].
  destruct (DefineConstantsPass.get_constant_value re_sub literal) as [v0|]; [|done].
  cbn [DefineConstantsPass.truthy default].
  destruct (String.eqb_spec v0 "") as [->|Hv0]; cbn [negb].
  { intros [= _ <-]. by left. }
  destruct (builtin_to_cs (t_canonical_kind (type (cur n)))) as [cs'|] eqn:Hcs; [|done].
  intros [= <- <-]. right. split; [done|]. split.
  - intros ->. eexists. split; [reflexivity|].
    intros r c Hbody. unfold Py.rstrip in Hbody. rewrite chars_str in Hbody.
    apply rstrip_chars_last in Hbody. split; intros ->; by vm_compute in Hbody.
  - intros Hk. rewrite Hk. cbn [DefineConstantsPass.is_unsigned_kind].
    rewrite bool_decide_eq_true_2 by done. eexists. split; [reflexivity|].
    intros r c Hbody. unfold Py.rstrip in Hbody. rewrite chars_str in Hbody.
    apply rstrip_chars_last in Hbody. split; intros ->; by vm_compute in Hbody.
Qed.

Lemma extract_literal_suffix_witness :
  "5U" = ""
  ∨ (builtin_to_cs (t_canonical_kind (type (cur decl_kCount))) = Some "uint"
     ∧ (DefineConstantsPass.is_unsigned_kind (t_canonical_kind (type (cur decl_kCount))) = true →
        ∃ body, "5U" = body +:+ "U"
                ∧ ∀ r c, Py.chars body = r ++ [c] → c ≠ "U"%char ∧ c ≠ "u"%char)
     ∧ (t_canonical_kind (type (cur decl_kCount)) = FLOAT →
        ∃ body, "5U" = body +:+ "f"
                ∧ ∀ r c, Py.chars body = r ++ [c] → c ≠ "F"%char ∧ c ≠ "f"%char)).
Proof.
  apply (extract_literal_suffix re_sub_unused decl_kCount "unsigned int" "uint" "5U");
    reflexivity.
Defined.
